(** * Account rotation pool and Copilot streaming session engine

  A shallow embedding of [src/account-pool.ts] (the account rotation pool)
  and of the Copilot session manager ([CopilotSessionManager]: the
  send / stream / settle state machine and its event translation),
  together with the properties the specification states about them.

  Conventions of the embedding.
  - JavaScript numbers that hold timestamps, durations and counters are
    integers here ([Z], or [nat] for indices and segment ids); the
    floating-point corner cases of [number] (NaN, values beyond 2^53) are
    outside the model. The one exception is the [rateLimitedUntil] of an
    account, which the status views and the rotation test read
    differently when it is NaN: it is a [Js.number], an integer or NaN.
    The cooldown added to the clock is an integer.
  - A JavaScript string is a [string]; one [ascii] stands for one code
    unit, so the model covers strings whose code units are below 256.
  - [Date.now()] and [new Date()] are explicit clock readings passed to
    the operation that takes them.
  - [console.*] calls are dropped: they touch nothing the properties
    mention. *)

From Stdlib Require Import ZArith Lia Bool Ascii String DecimalString.
From stdpp Require Import base list strings gmap sorting.

Local Open Scope string_scope.

(** ** Strings as JavaScript sees them *)

Module Js.

(** Code-unit classes used by the regular expressions of the pool. *)
Definition code (c : ascii) : nat := nat_of_ascii c.

Definition is_upper (c : ascii) : bool := (65 <=? code c)%nat && (code c <=? 90)%nat.
Definition is_lower (c : ascii) : bool := (97 <=? code c)%nat && (code c <=? 122)%nat.
Definition is_digit (c : ascii) : bool := (48 <=? code c)%nat && (code c <=? 57)%nat.

(** The class [[a-zA-Z0-9_-]]. *)
Definition is_name_char (c : ascii) : bool :=
  is_lower c || is_upper c || is_digit c || (code c =? 95)%nat || (code c =? 45)%nat.

(** [\s] and the characters [trim] strips, among code units below 256:
    TAB, LF, VT, FF, CR, SPACE and NBSP. *)
Definition is_space (c : ascii) : bool :=
  ((9 <=? code c)%nat && (code c <=? 13)%nat) || (code c =? 32)%nat || (code c =? 160)%nat.

(** [.] in a regular expression without the [s] flag: anything but a
    line terminator (LF and CR below 256). *)
Definition is_dot (c : ascii) : bool :=
  negb ((code c =? 10)%nat || (code c =? 13)%nat).

Definition is_quote (c : ascii) : bool := (code c =? 34)%nat || (code c =? 39)%nat.

(** [String.prototype.toLowerCase] on one code unit below 256: the ASCII
    capitals and the Latin-1 capitals (all of 0xC0..0xDE but the
    multiplication sign 0xD7) move up by 32. *)
Definition lower_char (c : ascii) : ascii :=
  if is_upper c
     || ((192 <=? code c)%nat && (code c <=? 222)%nat && negb (code c =? 215)%nat)
  then ascii_of_nat (code c + 32) else c.

Fixpoint map_chars (f : ascii -> ascii) (s : string) : string :=
  match s with
  | EmptyString => EmptyString
  | String c s' => String (f c) (map_chars f s')
  end.

Definition toLowerCase (s : string) : string := map_chars lower_char s.

Fixpoint all_chars (p : ascii -> bool) (s : string) : bool :=
  match s with
  | EmptyString => true
  | String c s' => p c && all_chars p s'
  end.

(** Longest prefix whose characters satisfy [p], and what follows it. *)
Fixpoint take_while (p : ascii -> bool) (s : string) : string :=
  match s with
  | EmptyString => EmptyString
  | String c s' => if p c then String c (take_while p s') else EmptyString
  end.

Fixpoint drop_while (p : ascii -> bool) (s : string) : string :=
  match s with
  | EmptyString => EmptyString
  | String c s' => if p c then drop_while p s' else s
  end.

Definition trimStart (s : string) : string := drop_while is_space s.

(** Strip trailing white space: keep a character when it is not a space
    or when something is kept after it. *)
Fixpoint trimEnd (s : string) : string :=
  match s with
  | EmptyString => EmptyString
  | String c s' =>
      match trimEnd s' with
      | EmptyString => if is_space c then EmptyString else String c EmptyString
      | rest => String c rest
      end
  end.

Definition trim (s : string) : string := trimEnd (trimStart s).

(** [s.split(sep)] for a one-character separator: always at least one
    piece. *)
Fixpoint split (sep : ascii) (s : string) : list string :=
  match s with
  | EmptyString => [EmptyString]
  | String c s' =>
      if Ascii.eqb c sep then EmptyString :: split sep s'
      else match split sep s' with
           | piece :: pieces => String c piece :: pieces
           | [] => [String c EmptyString]
           end
  end.

(** [s.startsWith(p)]. *)
Fixpoint startsWith (p s : string) : bool :=
  match p, s with
  | EmptyString, _ => true
  | String a p', String b s' => Ascii.eqb a b && startsWith p' s'
  | String _ _, EmptyString => false
  end.

(** What is left of [s] after its prefix [p], when [p] is a prefix. *)
Fixpoint strip_prefix (p s : string) : option string :=
  match p, s with
  | EmptyString, _ => Some s
  | String a p', String b s' => if Ascii.eqb a b then strip_prefix p' s' else None
  | String _ _, EmptyString => None
  end.

(** An empty string is falsy, every other string truthy. *)
Definition truthy (s : string) : bool :=
  match s with EmptyString => false | String _ _ => true end.

(** [s.slice(0, n)]. *)
Definition slice0 (n : nat) (s : string) : string := String.substring 0 n s.

(** [arr.join(sep)]. *)
Definition join (sep : string) (parts : list string) : string := String.concat sep parts.

(** An integer in a template literal: its decimal digits. *)
Definition show_int (z : Z) : string := NilZero.string_of_int (Z.to_int z).

(** [Math.ceil(d / k)] for integers [d] and [k > 0]. *)
Definition ceil_div (d k : Z) : Z := (- ((- d) / k))%Z.

(** First and last character of a string. *)
Definition first_char (s : string) : option ascii :=
  match s with
  | EmptyString => None
  | String c _ => Some c
  end.

Fixpoint last_char (s : string) : option ascii :=
  match s with
  | EmptyString => None
  | String c EmptyString => Some c
  | String _ s' => last_char s'
  end.

(** The characters that are not the separator [sep]. *)
Definition not_sep (sep : ascii) (c : ascii) : bool := negb (Ascii.eqb c sep).

(** [hay.includes(needle)]. *)
Fixpoint includes (needle hay : string) : bool :=
  startsWith needle hay
  || match hay with
     | EmptyString => false
     | String _ hay' => includes needle hay'
     end.

(** [a || b] for an environment variable [a] and a string [b]: an unset
    or empty variable is falsy. *)
Definition or_else (a : option string) (b : string) : string :=
  match a with
  | Some s => if truthy s then s else b
  | None => b
  end.

(** A number where the code tells NaN from the integers: [NaN] is
    falsy, as 0 is, and every comparison with it is false. *)
Inductive number := Int (z : Z) | NaN.

End Js.

(** ** The account pool ([src/account-pool.ts]) *)

Module AccountPool.

Record Account := mkAccount {
  name : string;
  configDir : string;
  rateLimitedUntil : option Js.number
}.

(** [sanitizeName]: every code unit outside [[a-zA-Z0-9_-]] becomes a
    dash, then the whole is lower-cased. *)
Definition sanitizeName (n : string) : string :=
  Js.toLowerCase (Js.map_chars (fun c => if Js.is_name_char c then c else "-"%char) n).

Record Pool := mkPool {
  accounts : list Account;
  _currentIndex : nat;
  cooldownMs : Z
}.

(** [this.accounts[this._currentIndex]], [undefined] out of range. *)
Definition currentAccount (p : Pool) : option Account :=
  accounts p !! _currentIndex p.

Definition setLimited (until : Z) (a : Account) : Account :=
  {| name := name a; configDir := configDir a; rateLimitedUntil := Some (Js.Int until) |}.

(** The test of the rotation loop:
    [rateLimitedUntil === null || rateLimitedUntil <= now]. *)
Definition available (now : Z) (a : Account) : bool :=
  match rateLimitedUntil a with
  | None => true
  | Some (Js.Int u) => (u <=? now)%Z
  | Some Js.NaN => false
  end.

(** Outcome of the loop [for (let i = 1; i <= accounts.length; i++)]:
    it returns from inside with the index it found, runs to its end, or
    dereferences an [undefined] candidate (a TypeError). *)
Inductive scan := Found (nextIndex : nat) | Exhausted | Threw.

(** The loop from counter [i] on, with [fuel] iterations left. *)
Fixpoint rotate_loop (accts : list Account) (startIndex : nat) (now : Z)
         (i fuel : nat) : scan :=
  match fuel with
  | O => Exhausted
  | S fuel' =>
      let nextIndex := (startIndex + i) `mod` length accts in
      match accts !! nextIndex with
      | None => Threw
      | Some candidate =>
          if available now candidate then Found nextIndex
          else rotate_loop accts startIndex now (S i) fuel'
      end
  end.

(** [markLimitedAndRotate(cooldownMs?)]. The two calls of [Date.now()]
    are the readings [now0] (when the account is marked) and [now]
    (before the scan). [None] stands for the TypeError. *)
Definition markLimitedAndRotate (cooldown : option Z) (now0 now : Z) (p : Pool)
  : option (bool * Pool) :=
  let cd := default (cooldownMs p) cooldown in
  let accts :=
    match currentAccount p with
    | Some _ => alter (setLimited (now0 + cd)%Z) (_currentIndex p) (accounts p)
    | None => accounts p
    end in
  let startIndex := _currentIndex p in
  match rotate_loop accts startIndex now 1 (length accts) with
  | Found nextIndex =>
      Some (true, {| accounts := accts; _currentIndex := nextIndex;
                     cooldownMs := cooldownMs p |})
  | Exhausted =>
      Some (false, {| accounts := accts; _currentIndex := startIndex;
                      cooldownMs := cooldownMs p |})
  | Threw => None
  end.

(** One entry of [getStatus]. The guard
    [acct.rateLimitedUntil && acct.rateLimitedUntil > now] is falsy for
    [null], for the number 0 and for NaN. *)
Definition statusEntry (now : Z) (current : nat) (idx : nat) (acct : Account) : string :=
  let prefix := if Nat.eqb idx current then ">" else " " in
  match rateLimitedUntil acct with
  | Some (Js.Int u) =>
      if negb (u =? 0)%Z && (u >? now)%Z then
        let secsLeft := Js.ceil_div (u - now) 1000 in
        prefix ++ " " ++ name acct ++ " [limited " ++ Js.show_int secsLeft ++ "s]"
      else prefix ++ " " ++ name acct ++ " [ok]"
  | Some Js.NaN => prefix ++ " " ++ name acct ++ " [ok]"
  | None => prefix ++ " " ++ name acct ++ " [ok]"
  end.

(** [getStatus()], with [now] the reading of [Date.now()]. *)
Definition getStatus (now : Z) (p : Pool) : string :=
  if Nat.eqb (length (accounts p)) 0 then "No pool configured"
  else Js.join ", " (imap (statusEntry now (_currentIndex p)) (accounts p)).


(** *** Account discovery *)

(** [loadFromEnv()]: [raw] is [process.env.CLAUDE_ACCOUNTS]; an absent or
    empty variable gives [null]. *)
Definition loadFromEnv (raw : option string) : option (list string) :=
  match raw with
  | None => None
  | Some r =>
      if Js.truthy r
      then Some (filter (fun s => Js.truthy s = true) (map Js.trim (Js.split "," r)))
      else None
  end.

(** [/^accounts\s*:/.test(line)]. *)
Definition is_accounts_key (line : string) : bool :=
  match Js.strip_prefix "accounts" line with
  | Some rest => Js.startsWith ":" (Js.drop_while Js.is_space rest)
  | None => false
  end.

(** [/^\s/.test(line)]. *)
Definition starts_with_space (line : string) : bool :=
  match line with
  | String c _ => Js.is_space c
  | EmptyString => false
  end.

(** The indentation: the length of the leading white space of [line]. *)
Definition indent_of (line : string) : nat :=
  String.length (Js.take_while Js.is_space line).

(** The capture of [/^\s{2}([a-zA-Z0-9_-]+)\s*:/] on [line]: two white
    space characters, the longest run of name characters (not empty),
    white space, a colon. *)
Definition match_map_key (line : string) : option string :=
  match line with
  | String a (String b rest) =>
      if Js.is_space a && Js.is_space b then
        let key := Js.take_while Js.is_name_char rest in
        let after := Js.drop_while Js.is_name_char rest in
        if Js.truthy key && Js.startsWith ":" (Js.drop_while Js.is_space after)
        then Some key else None
      else None
  | _ => None
  end.

(** [\s*(.+)] matched at the start of [s]: the white space is taken
    greedily and given back one character at a time until [.+] finds a
    character to start on; the capture then runs to the next line
    terminator. *)
Fixpoint match_value (s : string) : option string :=
  match s with
  | EmptyString => None
  | String c s' =>
      if Js.is_space c then
        match match_value s' with
        | Some cap => Some cap
        | None => if Js.is_dot c then Some (Js.take_while Js.is_dot s) else None
        end
      else if Js.is_dot c then Some (Js.take_while Js.is_dot s) else None
  end.

(** The capture of [/^-\s+name\s*:\s*(.+)/] on [trimmed]. *)
Definition match_inline_name (trimmed : string) : option string :=
  match Js.strip_prefix "-" trimmed with
  | Some r1 =>
      if starts_with_space r1 then
        match Js.strip_prefix "name" (Js.drop_while Js.is_space r1) with
        | Some r2 =>
            match Js.strip_prefix ":" (Js.drop_while Js.is_space r2) with
            | Some r3 => match_value r3
            | None => None
            end
        | None => None
        end
      else None
  | None => None
  end.

Fixpoint drop_last_quote (s : string) : string :=
  match s with
  | EmptyString => EmptyString
  | String c EmptyString => if Js.is_quote c then EmptyString else s
  | String c s' => String c (drop_last_quote s')
  end.

(** The replacement that follows the inline-name match: it deletes a
    single or double quote standing in first position and one standing in
    last position (of what follows the first). *)
Definition strip_quotes (s : string) : string :=
  match s with
  | EmptyString => EmptyString
  | String c rest => if Js.is_quote c then drop_last_quote rest else drop_last_quote s
  end.

(** The capture of [/^-\s+([a-zA-Z0-9_-]+)\s*$/] on [trimmed]. *)
Definition match_plain (trimmed : string) : option string :=
  match Js.strip_prefix "-" trimmed with
  | Some r1 =>
      if starts_with_space r1 then
        let r2 := Js.drop_while Js.is_space r1 in
        let key := Js.take_while Js.is_name_char r2 in
        let after := Js.drop_while Js.is_name_char r2 in
        if Js.truthy key && Js.all_chars Js.is_space after then Some key else None
      else None
  | None => None
  end.

(** The body of the loop of [parseYamlAccountNames] over the remaining
    lines, with the flag [inAccounts] and the names pushed so far. *)
Fixpoint parse_lines (lines : list string) (inAccounts : bool) (names : list string)
  : list string :=
  match lines with
  | [] => names
  | line :: rest =>
      let trimmed := Js.trim line in
      if is_accounts_key line then parse_lines rest true names
      else if negb inAccounts then parse_lines rest inAccounts names
      else if Js.truthy trimmed && negb (Js.startsWith "#" trimmed)
              && negb (starts_with_space line)
      then names
      else if negb (Js.truthy trimmed) || Js.startsWith "#" trimmed
      then parse_lines rest inAccounts names
      else
        match (if Nat.eqb (indent_of line) 2 then match_map_key line else None) with
        | Some key => parse_lines rest inAccounts (names ++ [key])
        | None =>
            if Js.startsWith "-" trimmed then
              match match_inline_name trimmed with
              | Some cap =>
                  let nm := strip_quotes (Js.trim cap) in
                  if Js.truthy nm then parse_lines rest inAccounts (names ++ [nm])
                  else parse_lines rest inAccounts names
              | None =>
                  match match_plain trimmed with
                  | Some key => parse_lines rest inAccounts (names ++ [key])
                  | None => parse_lines rest inAccounts names
                  end
              end
            else parse_lines rest inAccounts names
        end
  end.

(** [parseYamlAccountNames(content)]. *)
Definition parseYamlAccountNames (content : string) : option (list string) :=
  match parse_lines (Js.split "010" content) false [] with
  | [] => None
  | names => Some names
  end.

Section Disk.

(** [path.join] and [fs.existsSync] belong to the platform. *)
Variable pathJoin : list string -> string.
Variable existsSync : string -> bool.

(** The credential directory of a name: [join(ccsDir, "instances",
    sanitizeName(name))]. *)
Definition instanceDir (ccsDir nm : string) : string :=
  pathJoin [ccsDir; "instances"; sanitizeName nm].

(** [buildAccounts(names, ccsDir)]. *)
Fixpoint buildAccounts (names : list string) (ccsDir : string) : list Account :=
  match names with
  | [] => []
  | nm :: rest =>
      let configDir := instanceDir ccsDir nm in
      if existsSync configDir
      then {| name := nm; configDir := configDir; rateLimitedUntil := None |}
             :: buildAccounts rest ccsDir
      else buildAccounts rest ccsDir
  end.

End Disk.

(** *** Vocabulary of the properties *)

(** An account the rotation may move to at clock reading [now]: its
    [rateLimitedUntil] is [null] or has elapsed. *)
Definition Eligible (now : Z) (a : Account) : Prop :=
  rateLimitedUntil a = None
  \/ exists u : Z, rateLimitedUntil a = Some (Js.Int u) /\ (u <= now)%Z.

(** The index visited at step [j] of a scan that starts at [start]. *)
Definition slot (accts : list Account) (start j : nat) : nat :=
  (start + j) `mod` length accts.

(** The identifiers a source leads to: the sanitized names, in order. *)
Definition identifiers (names : option (list string)) : option (list string) :=
  map sanitizeName <$> names.

(** The line feed, as a string. *)
Definition newline : string := String "010" EmptyString.

(** A configuration file whose [accounts] section holds the one name
    [nm], in the mapping layout, in the list layout with [- name: X]
    entries, and in the list layout with bare [- X] entries. *)
Definition mapping_doc (nm : string) : string :=
  "accounts:" ++ newline ++ "  " ++ nm ++ ":" ++ newline.
Definition list_doc (nm : string) : string :=
  "accounts:" ++ newline ++ "  - name: " ++ nm ++ newline.
Definition bare_list_doc (nm : string) : string :=
  "accounts:" ++ newline ++ "  - " ++ nm ++ newline.

(** The ASCII punctuation marks. *)
Definition is_punct (c : ascii) : bool :=
  let n := Js.code c in
  ((33 <=? n)%nat && (n <=? 47)%nat) || ((58 <=? n)%nat && (n <=? 64)%nat)
  || ((91 <=? n)%nat && (n <=? 96)%nat) || ((123 <=? n)%nat && (n <=? 126)%nat).

(** A name with a space or a punctuation mark strictly inside it. *)
Definition Embedded (nm : string) : Prop :=
  exists before c after,
    nm = before ++ String c after /\ before <> "" /\ after <> "" /\
    (Js.is_space c = true \/ is_punct c = true).

(** A character that may stand at an end of a portable name: there is
    one, and it is neither white space nor a quote. *)
Definition edge_ok (c : option ascii) : bool :=
  match c with
  | Some c => negb (Js.is_space c) && negb (Js.is_quote c)
  | None => false
  end.

(** A name that survives both the explicit list and an inline
    [- name: X] entry unchanged: not empty, no comma, no line terminator,
    neither white space nor a quote at either end. *)
Definition Portable (nm : string) : Prop :=
  edge_ok (Js.first_char nm) = true /\ edge_ok (Js.last_char nm) = true /\
  Js.all_chars (fun c => Js.is_dot c && negb (Ascii.eqb c ","%char)) nm = true.

(** A name made of the characters [[a-zA-Z0-9_-]] only, and not empty. *)
Definition Plain (nm : string) : Prop :=
  nm <> "" /\ Js.all_chars Js.is_name_char nm = true.

(** A pool of two accounts, the second one current, the first one
    limited until clock reading 1601. *)
Definition demoPool : Pool :=
  mkPool [mkAccount "A" "/ccs/instances/a" (Some (Js.Int 1601));
          mkAccount "B" "/ccs/instances/b" None] 1 300000.

(** A pool of three accounts, the first one current and none
    limited. *)
Definition threePool : Pool :=
  mkPool [mkAccount "A" "/a" None; mkAccount "B" "/b" None; mkAccount "C" "/c" None]
    0 300000.

(** *** The rest of the pool *)

(** [getCurrentEnv()]: the record of environment overrides, a map from
    variable names to values. *)
Definition getCurrentEnv (p : Pool) : gmap string string :=
  match currentAccount p with
  | None => empty
  | Some acct => {[ "CLAUDE_CONFIG_DIR" := configDir acct ]}
  end.

(** [getCurrentName()]. *)
Definition getCurrentName (p : Pool) : string :=
  match currentAccount p with
  | Some acct => name acct
  | None => "default"
  end.

(** [accountCount()]. *)
Definition accountCount (p : Pool) : nat := length (accounts p).

(** A value as [JSON.parse] returns it. The properties of an object
    stand in the order in which [Object.keys] lists them, each key
    once; numbers are integers in the model. *)
#[warnings="-register-all"]
Inductive Json :=
| JNull
| JBool (b : bool)
| JNumber (n : Z)
| JString (s : string)
| JArray (items : list Json)
| JObject (props : list (string * Json)).

(** [p.name] kept by the filter [typeof n === "string" && n.length > 0]:
    the own property [name] of an object when it is a string that is not
    empty. Strings, numbers, booleans and arrays have no such property. *)
Definition profile_name (p : Json) : option string :=
  match p with
  | JObject props =>
      match List.find (fun kv => String.eqb (fst kv) "name") props with
      | Some (_, JString n) => if Js.truthy n then Some n else None
      | _ => None
      end
  | _ => None
  end.

(** [profiles.map((p) => p.name).filter(...)]: reading [name] off a
    [null] entry throws, which the caller catches; [None] stands for
    that. *)
Fixpoint profile_names (items : list Json) : option (list string) :=
  match items with
  | [] => Some []
  | JNull :: _ => None
  | item :: rest =>
      match profile_names rest with
      | None => None
      | Some names =>
          Some (match profile_name item with
                | Some n => n :: names
                | None => names
                end)
      end
  end.

Section Construction.

(** The platform: [path.join], [fs.existsSync], [fs.readFileSync] (no
    result when it throws) and [JSON.parse] (no result when it throws). *)
Variable pathJoin : list string -> string.
Variable existsSync : string -> bool.
Variable readFileSync : string -> option string.
Variable jsonParse : string -> option Json.

(** [getCcsDir()], from the two environment variables and the home
    directory. *)
Definition getCcsDir (CCS_DIR CCS_HOME : option string) (home : string) : string :=
  Js.or_else CCS_DIR (Js.or_else CCS_HOME (pathJoin [home; ".ccs"])).

(** [loadFromConfigYaml(ccsDir)]. *)
Definition loadFromConfigYaml (ccsDir : string) : option (list string) :=
  let configPath := pathJoin [ccsDir; "config.yaml"] in
  if existsSync configPath then
    match readFileSync configPath with
    | Some content => parseYamlAccountNames content
    | None => None
    end
  else None.

(** [loadFromProfilesJson(ccsDir)]. *)
Definition loadFromProfilesJson (ccsDir : string) : option (list string) :=
  let profilesPath := pathJoin [ccsDir; "profiles.json"] in
  if existsSync profilesPath then
    match readFileSync profilesPath with
    | Some content =>
        match jsonParse content with
        | Some (JArray items) => profile_names items
        | Some (JObject props) => Some (map fst props)
        | _ => None
        end
    | None => None
    end
  else None.

(** The names the constructor settles on:
    [loadFromEnv() || loadFromConfigYaml(ccsDir) ||
     loadFromProfilesJson(ccsDir) || []], where an array, even an empty
    one, is truthy and [null] is falsy. *)
Definition resolveNames (CLAUDE_ACCOUNTS : option string) (ccsDir : string) : list string :=
  match loadFromEnv CLAUDE_ACCOUNTS with
  | Some names => names
  | None =>
      match loadFromConfigYaml ccsDir with
      | Some names => names
      | None =>
          match loadFromProfilesJson ccsDir with
          | Some names => names
          | None => []
          end
      end
  end.

(** The constructor. [cooldown] is the number read off
    [ACCOUNT_COOLDOWN_MS] (300000 when unset). *)
Definition newPool (cooldown : Z) (CLAUDE_ACCOUNTS : option string) (ccsDir : string)
  : Pool :=
  {| accounts := buildAccounts pathJoin existsSync (resolveNames CLAUDE_ACCOUNTS ccsDir) ccsDir;
     _currentIndex := 0;
     cooldownMs := cooldown |}.

End Construction.

(** *** Vocabulary of the further properties *)

(** The characters of a sanitized name: lower-case letters, digits,
    underscore and dash. *)
Definition is_safe_char (c : ascii) : bool :=
  Js.is_lower c || Js.is_digit c || (Js.code c =? 95)%nat || (Js.code c =? 45)%nat.

(** One rate-limit report: the optional cooldown and the two clock
    readings of a call of [markLimitedAndRotate]. *)
Definition Report : Type := option Z * Z * Z.

(** Reports applied in order; the results are collected, oldest first.
    [None] when a call throws. *)
Fixpoint rotations (reports : list Report) (p : Pool) : option (list bool * Pool) :=
  match reports with
  | [] => Some ([], p)
  | (cooldown, now0, now) :: rest =>
      match markLimitedAndRotate cooldown now0 now p with
      | None => None
      | Some (r, p1) =>
          match rotations rest p1 with
          | None => None
          | Some (rs, p2) => Some (r :: rs, p2)
          end
      end
  end.

(** The index points into the pool, or the pool is empty. *)
Definition IndexValid (p : Pool) : Prop :=
  accounts p = [] \/ _currentIndex p < length (accounts p).

(** A line that ends the accounts section: not blank once trimmed, not a
    comment, not indented. *)
Definition ends_section (line : string) : bool :=
  Js.truthy (Js.trim line) && negb (Js.startsWith "#" (Js.trim line))
  && negb (starts_with_space line).

(** The accounts once the current one has been marked as limited until
    [until]. *)
Definition marked (until : Z) (p : Pool) : list Account :=
  match currentAccount p with
  | Some _ => alter (setLimited until) (_currentIndex p) (accounts p)
  | None => accounts p
  end.

(** An account that has never been limited. *)
Definition Unlimited (a : Account) : Prop := rateLimitedUntil a = None.

(** A report that uses the pool's default cooldown and whose two clock
    readings lie in the window that starts at [t0] and lasts [cd]. *)
Definition in_window (t0 cd : Z) (r : Report) : Prop :=
  r.1.1 = None /\ (t0 <= r.1.2)%Z /\ (r.2 < t0 + cd)%Z.

(** A pool of two fresh accounts. *)
Definition freshPool : Pool :=
  mkPool [mkAccount "A" "/ccs/instances/a" None;
          mkAccount "B" "/ccs/instances/b" None] 0 300000.

End AccountPool.

(** ** The Copilot session manager ([CopilotSessionManager]) *)

Module CopilotSession.

(** The updates handed to the status callback: [(type, content,
    segmentId?)]. *)
Inductive StatusType := thinking | tool | text | segment_end | done.

Record Update := mkUpdate {
  utype : StatusType;
  content : string;
  segmentId : option nat
}.

(** The handle of a backend session, as far as the manager reads it. *)
Record SdkSession := mkSdkSession { sdkSessionId : string }.

Record TokenUsage := mkTokenUsage {
  input_tokens : Z;
  output_tokens : Z;
  cache_read_input_tokens : Z;
  cache_creation_input_tokens : Z
}.

(** The fields of the manager object. [client] tells whether a started
    client is held. *)
Record Manager := mkManager {
  client : bool;
  session : option SdkSession;
  lastActivity : option Z;
  queryStarted : option Z;
  currentTool : option string;
  lastTool : option string;
  lastError : option string;
  lastErrorTime : option Z;
  lastUsage : option TokenUsage;
  lastMessage : option string;
  conversationTitle : option string;
  currentModel : string;
  stopRequested : bool;
  _isProcessing : bool;
  interruptFlag : bool
}.

Definition sessionId (m : Manager) : option string := sdkSessionId <$> session m.
Definition isActive (m : Manager) : bool := bool_decide (session m <> None).
Definition isRunning (m : Manager) : bool := _isProcessing m.

(** Assignments to single fields of the manager. *)
Definition set_client (v : bool) (m : Manager) : Manager :=
  mkManager v (session m) (lastActivity m) (queryStarted m) (currentTool m) (lastTool m)
    (lastError m) (lastErrorTime m) (lastUsage m) (lastMessage m) (conversationTitle m)
    (currentModel m) (stopRequested m) (_isProcessing m) (interruptFlag m).
Definition set_session (v : option SdkSession) (m : Manager) : Manager :=
  mkManager (client m) v (lastActivity m) (queryStarted m) (currentTool m) (lastTool m)
    (lastError m) (lastErrorTime m) (lastUsage m) (lastMessage m) (conversationTitle m)
    (currentModel m) (stopRequested m) (_isProcessing m) (interruptFlag m).
Definition set_lastActivity (v : option Z) (m : Manager) : Manager :=
  mkManager (client m) (session m) v (queryStarted m) (currentTool m) (lastTool m)
    (lastError m) (lastErrorTime m) (lastUsage m) (lastMessage m) (conversationTitle m)
    (currentModel m) (stopRequested m) (_isProcessing m) (interruptFlag m).
Definition set_queryStarted (v : option Z) (m : Manager) : Manager :=
  mkManager (client m) (session m) (lastActivity m) v (currentTool m) (lastTool m)
    (lastError m) (lastErrorTime m) (lastUsage m) (lastMessage m) (conversationTitle m)
    (currentModel m) (stopRequested m) (_isProcessing m) (interruptFlag m).
Definition set_currentTool (v : option string) (m : Manager) : Manager :=
  mkManager (client m) (session m) (lastActivity m) (queryStarted m) v (lastTool m)
    (lastError m) (lastErrorTime m) (lastUsage m) (lastMessage m) (conversationTitle m)
    (currentModel m) (stopRequested m) (_isProcessing m) (interruptFlag m).
Definition set_lastTool (v : option string) (m : Manager) : Manager :=
  mkManager (client m) (session m) (lastActivity m) (queryStarted m) (currentTool m) v
    (lastError m) (lastErrorTime m) (lastUsage m) (lastMessage m) (conversationTitle m)
    (currentModel m) (stopRequested m) (_isProcessing m) (interruptFlag m).
Definition set_lastError (v : option string) (m : Manager) : Manager :=
  mkManager (client m) (session m) (lastActivity m) (queryStarted m) (currentTool m) (lastTool m)
    v (lastErrorTime m) (lastUsage m) (lastMessage m) (conversationTitle m)
    (currentModel m) (stopRequested m) (_isProcessing m) (interruptFlag m).
Definition set_lastErrorTime (v : option Z) (m : Manager) : Manager :=
  mkManager (client m) (session m) (lastActivity m) (queryStarted m) (currentTool m) (lastTool m)
    (lastError m) v (lastUsage m) (lastMessage m) (conversationTitle m)
    (currentModel m) (stopRequested m) (_isProcessing m) (interruptFlag m).
Definition set_lastUsage (v : option TokenUsage) (m : Manager) : Manager :=
  mkManager (client m) (session m) (lastActivity m) (queryStarted m) (currentTool m) (lastTool m)
    (lastError m) (lastErrorTime m) v (lastMessage m) (conversationTitle m)
    (currentModel m) (stopRequested m) (_isProcessing m) (interruptFlag m).
Definition set_lastMessage (v : option string) (m : Manager) : Manager :=
  mkManager (client m) (session m) (lastActivity m) (queryStarted m) (currentTool m) (lastTool m)
    (lastError m) (lastErrorTime m) (lastUsage m) v (conversationTitle m)
    (currentModel m) (stopRequested m) (_isProcessing m) (interruptFlag m).
Definition set_conversationTitle (v : option string) (m : Manager) : Manager :=
  mkManager (client m) (session m) (lastActivity m) (queryStarted m) (currentTool m) (lastTool m)
    (lastError m) (lastErrorTime m) (lastUsage m) (lastMessage m) v
    (currentModel m) (stopRequested m) (_isProcessing m) (interruptFlag m).
Definition set_stopRequested (v : bool) (m : Manager) : Manager :=
  mkManager (client m) (session m) (lastActivity m) (queryStarted m) (currentTool m) (lastTool m)
    (lastError m) (lastErrorTime m) (lastUsage m) (lastMessage m) (conversationTitle m)
    (currentModel m) v (_isProcessing m) (interruptFlag m).
Definition set_isProcessing (v : bool) (m : Manager) : Manager :=
  mkManager (client m) (session m) (lastActivity m) (queryStarted m) (currentTool m) (lastTool m)
    (lastError m) (lastErrorTime m) (lastUsage m) (lastMessage m) (conversationTitle m)
    (currentModel m) (stopRequested m) v (interruptFlag m).
Definition set_interruptFlag (v : bool) (m : Manager) : Manager :=
  mkManager (client m) (session m) (lastActivity m) (queryStarted m) (currentTool m) (lastTool m)
    (lastError m) (lastErrorTime m) (lastUsage m) (lastMessage m) (conversationTitle m)
    (currentModel m) (stopRequested m) (_isProcessing m) v.

(** The manager right after construction. *)
Definition newManager : Manager :=
  mkManager false None None None None None None None None None None "claude-sonnet-4"
    false false false.

(** *** Session lifecycle *)

(** [ensureClient()]: [startOk] tells whether starting a new client
    succeeds. The boolean result is false when the call throws. *)
Definition ensureClient (startOk : bool) (m : Manager) : Manager * bool :=
  if client m then (m, true)
  else if startOk then (set_client true m, true)
  else (set_client false m, false).

(** [ensureSession()]: [created] is what [client.createSession] yields,
    [None] when it rejects. The result is [None] when the call throws. *)
Definition ensureSession (startOk : bool) (created : option SdkSession) (m : Manager)
  : Manager * option SdkSession :=
  let (m1, ok) := ensureClient startOk m in
  if ok then
    match session m1 with
    | Some s => (m1, Some s)
    | None =>
        match created with
        | Some s => (set_session (Some s) m1, Some s)
        | None => (m1, None)
        end
    end
  else (m1, None).

(** [kill()]: [destroyOk] tells whether [session.destroy()] succeeds; its
    failure is caught and only logged. *)
Definition kill (destroyOk : bool) (m : Manager) : Manager :=
  let m1 :=
    match session m with
    | Some _ => if destroyOk then set_session None m else set_session None m
    | None => m
    end in
  set_isProcessing false
    (set_lastMessage None (set_conversationTitle None (set_lastActivity None m1))).

Definition startProcessing (m : Manager) : Manager := set_isProcessing true m.
Definition clearStopRequested (m : Manager) : Manager := set_stopRequested false m.
Definition consumeInterruptFlag (m : Manager) : bool * Manager :=
  (interruptFlag m, set_interruptFlag false m).
Definition markInterrupt (m : Manager) : Manager :=
  set_stopRequested true (set_interruptFlag true m).

(** *** One send *)

(** The segment accumulator [{ text, id, lastUpdate }]. *)
Record Segment := mkSegment {
  seg_text : string;
  seg_id : nat;
  seg_lastUpdate : Z
}.

(** What the pending promise was told: [resolve(value)] or
    [reject(error)], the error standing by its message. *)
Inductive Settlement := Resolved (value : string) | Rejected (error : string).

(** The variables of the closure of one [sendMessageStreaming] call.
    [timeoutTimer] is true while the timer is armed; [subAll], [subIdle]
    and [subError] while the three listeners are subscribed; [promise]
    lists the calls of [resolve] and [reject], oldest first. *)
Record Send := mkSend {
  fullContent : string;
  receivedDelta : bool;
  segment : Segment;
  settled : bool;
  timeoutTimer : bool;
  subAll : bool;
  subIdle : bool;
  subError : bool;
  promise : list Settlement
}.

Record State := mkState { mgr : Manager; send : Send }.

Definition set_hooks (fc : string) (rd : bool) (seg : Segment) (s : Send) : Send :=
  mkSend fc rd seg (settled s) (timeoutTimer s) (subAll s) (subIdle s) (subError s)
    (promise s).

(** [unsubAll(); unsubIdle(); unsubError()]. *)
Definition unsubscribe (s : Send) : Send :=
  mkSend (fullContent s) (receivedDelta s) (segment s) (settled s) (timeoutTimer s)
    false false false (promise s).

Definition settle_promise (o : Settlement) (s : Send) : Send :=
  mkSend (fullContent s) (receivedDelta s) (segment s) (settled s) (timeoutTimer s)
    (subAll s) (subIdle s) (subError s) (promise s ++ [o]).

(** The latch [settle()]: false when already settled; otherwise it sets
    the latch, clears the timer and answers true. *)
Definition settle (s : Send) : bool * Send :=
  if settled s then (false, s)
  else (true, mkSend (fullContent s) (receivedDelta s) (segment s) true false
                (subAll s) (subIdle s) (subError s) (promise s)).

(** The events of the backend that the manager tells apart. *)
Inductive SessionEvent :=
| assistant_message_delta (deltaContent : string)
| assistant_message (content : string)
| tool_execution_start (toolName : string)
| tool_execution_complete
| assistant_usage (inputTokens outputTokens cacheReadTokens cacheWriteTokens : option Z)
| session_title_changed (title : string)
| assistant_reasoning_delta (deltaContent : string)
| session_idle
| session_error (message : string)
| other_event.

(** The state a send starts from, once [ensureSession] has answered:
    the manager is marked busy and the closure is fresh. *)
Definition freshSend : Send :=
  mkSend "" false (mkSegment "" 0 0) false true true true true [].

Definition beginSend (now : Z) (m : Manager) : State :=
  {| mgr := set_currentTool None
              (set_queryStarted (Some now)
                 (set_stopRequested false (set_isProcessing true m)));
     send := freshSend |}.

(** [sendMessageStreaming] up to the creation of the promise: the left
    injection when [ensureSession] throws, in which case the manager is
    all that is left. The text that is submitted (the message, after a
    date line on a new session) plays no part in what follows and is
    left out. *)
Definition sendMessageStreaming (startOk : bool) (created : option SdkSession)
           (now : Z) (m : Manager) : Manager + State :=
  match ensureSession startOk created m with
  | (m1, Some _) => inr (beginSend now m1)
  | (m1, None) => inl m1
  end.

Section Engine.

(** The throttle interval of the configuration. *)
Variable STREAMING_THROTTLE_MS : Z.

(** The caller's status callback, an async function: it returns a promise
    and throws nothing synchronously. Every call is recorded in the
    output of the handler that makes it; [statusCallback u] tells whether
    the promise the call returns fulfils (true) or rejects (false). *)
Variable statusCallback : Update -> bool.

(** [handleEvent(event, statusCallback, hooks, segment)], with [now] the
    reading of [Date.now()]. The promises of its callback calls are not
    awaited and their rejections are swallowed. *)
Definition handleEvent (now : Z) (event : SessionEvent) (st : State)
  : State * list Update :=
  let m := mgr st in
  let s := send st in
  let seg := segment s in
  match event with
  | assistant_message_delta deltaContent =>
      let fc := fullContent s ++ deltaContent in
      let txt := seg_text seg ++ deltaContent in
      if ((now - seg_lastUpdate seg >? STREAMING_THROTTLE_MS)%Z
          && (20 <? String.length txt)%nat)%bool
      then ({| mgr := m; send := set_hooks fc true (mkSegment txt (seg_id seg) now) s |},
            [mkUpdate text txt (Some (seg_id seg))])
      else ({| mgr := m;
               send := set_hooks fc true (mkSegment txt (seg_id seg) (seg_lastUpdate seg)) s |},
            [])
  | assistant_message content =>
      if negb (receivedDelta s) && Js.truthy content then
        let fc := fullContent s ++ content in
        let txt := seg_text seg ++ content in
        ({| mgr := m; send := set_hooks fc true (mkSegment txt (seg_id seg) now) s |},
         [mkUpdate text txt (Some (seg_id seg))])
      else (st, [])
  | tool_execution_start toolName =>
      let m' := set_currentTool (Some toolName) m in
      let toolUpdate := mkUpdate tool ("⚙️ " ++ toolName) None in
      if Js.truthy (seg_text seg) then
        ({| mgr := m';
            send := set_hooks (fullContent s) (receivedDelta s)
                     (mkSegment "" (S (seg_id seg)) 0) s |},
         [mkUpdate segment_end (seg_text seg) (Some (seg_id seg)); toolUpdate])
      else ({| mgr := m'; send := s |}, [toolUpdate])
  | tool_execution_complete =>
      ({| mgr := set_currentTool None (set_lastTool (currentTool m) m); send := s |}, [])
  | assistant_usage inputTokens outputTokens cacheReadTokens cacheWriteTokens =>
      ({| mgr := set_lastUsage
                   (Some (mkTokenUsage (default 0%Z inputTokens) (default 0%Z outputTokens)
                            (default 0%Z cacheReadTokens) (default 0%Z cacheWriteTokens))) m;
          send := s |}, [])
  | session_title_changed title =>
      ({| mgr := set_conversationTitle (Some title) m; send := s |}, [])
  | assistant_reasoning_delta deltaContent =>
      (st, [mkUpdate thinking deltaContent None])
  | session_idle | session_error _ | other_event => (st, [])
  end.

(** The three assignments every settlement handler makes but the
    submission-failure one, which leaves [currentTool] alone. *)
Definition clearQuery (m : Manager) : Manager :=
  set_currentTool None (set_queryStarted None (set_isProcessing false m)).

(** The callback of the timeout timer. *)
Definition onTimeout (st : State) : State * list Update :=
  match settle (send st) with
  | (false, _) => (st, [])
  | (true, s1) =>
      ({| mgr := clearQuery (mgr st);
          send := settle_promise (Rejected "Copilot response timed out") (unsubscribe s1) |},
       [])
  end.

(** The listener of [session.idle]. The two callback calls are awaited:
    when one rejects, the listener ends there and [resolve] is not
    reached. Whatever arrives while the listener waits finds the latch
    set, the timer cleared and the listeners gone, so the listener is
    one step of the model. *)
Definition onIdle (now : Z) (st : State) : State * list Update :=
  match settle (send st) with
  | (false, _) => (st, [])
  | (true, s1) =>
      let s2 := unsubscribe s1 in
      let m := set_lastErrorTime None
                 (set_lastError None
                    (set_lastActivity (Some now) (clearQuery (mgr st)))) in
      let seg := segment s2 in
      let flush := mkUpdate segment_end (seg_text seg) (Some (seg_id seg)) in
      let fin := mkUpdate done "" None in
      let value := if Js.truthy (fullContent s2) then fullContent s2
                   else "No response from Copilot." in
      if Js.truthy (seg_text seg) then
        if statusCallback flush then
          if statusCallback fin
          then ({| mgr := m; send := settle_promise (Resolved value) s2 |}, [flush; fin])
          else ({| mgr := m; send := s2 |}, [flush; fin])
        else ({| mgr := m; send := s2 |}, [flush])
      else
        if statusCallback fin
        then ({| mgr := m; send := settle_promise (Resolved value) s2 |}, [fin])
        else ({| mgr := m; send := s2 |}, [fin])
  end.

(** The listener of [session.error]; [message] is [event.data.message]. *)
Definition onError (now : Z) (message : string) (st : State) : State * list Update :=
  match settle (send st) with
  | (false, _) => (st, [])
  | (true, s1) =>
      let errMsg := if Js.truthy message then message else "Unknown Copilot error" in
      ({| mgr := set_lastErrorTime (Some now)
                   (set_lastError (Some (Js.slice0 100 errMsg)) (clearQuery (mgr st)));
          send := settle_promise (Rejected errMsg) (unsubscribe s1) |},
       [])
  end.

(** The [catch] of [session.send(...)]; [err] is the rejection. *)
Definition onSendFailed (err : string) (st : State) : State * list Update :=
  match settle (send st) with
  | (false, _) => (st, [])
  | (true, s1) =>
      ({| mgr := set_queryStarted None (set_isProcessing false (mgr st));
          send := settle_promise (Rejected err) (unsubscribe s1) |},
       [])
  end.

(** What can reach a send from outside: a backend event, the firing of
    the timer, the rejection of the submission. *)
Inductive Signal :=
| SigEvent (event : SessionEvent)
| SigTimeout
| SigSendFailed (err : string).

(** Delivery of one signal at clock reading [now]. An event goes to the
    catch-all listener and to the listener of its type, each only while
    subscribed (the catch-all listener does nothing on the two terminal
    events, so the order of the two calls is immaterial); the timer
    fires only while armed. *)
Definition deliver (now : Z) (sig : Signal) (st : State) : State * list Update :=
  match sig with
  | SigEvent event =>
      let (st1, out1) :=
        if subAll (send st) then handleEvent now event st else (st, []) in
      let (st2, out2) :=
        match event with
        | session_idle => if subIdle (send st1) then onIdle now st1 else (st1, [])
        | session_error message =>
            if subError (send st1) then onError now message st1 else (st1, [])
        | _ => (st1, [])
        end in
      (st2, (out1 ++ out2)%list)
  | SigTimeout => if timeoutTimer (send st) then onTimeout st else (st, [])
  | SigSendFailed err => onSendFailed err st
  end.

(** A run: signals with their clock readings, delivered in order. Every
    update in the output carries the reading of the signal that caused
    it. *)
Fixpoint run (sigs : list (Z * Signal)) (st : State) : State * list (Z * Update) :=
  match sigs with
  | [] => (st, [])
  | (now, sig) :: rest =>
      let (st1, out) := deliver now sig st in
      let (st2, outs) := run rest st1 in
      (st2, (map (pair now) out ++ outs)%list)
  end.

End Engine.

Definition is_terminal (sig : Signal) : bool :=
  match sig with
  | SigEvent session_idle | SigEvent (session_error _) | SigTimeout | SigSendFailed _ => true
  | SigEvent _ => false
  end.

(** *** Vocabulary of the properties *)

#[global] Instance StatusType_eq_dec : EqDecision StatusType.
Proof. solve_decision. Defined.

(** A send in flight: not settled, timer armed, listeners subscribed. *)
Definition Pending (s : Send) : Prop :=
  settled s = false /\ timeoutTimer s = true /\
  subAll s = true /\ subIdle s = true /\ subError s = true.

(** A send that is over: latch set, timer cleared, listeners gone. *)
Definition Over (s : Send) : Prop :=
  settled s = true /\ timeoutTimer s = false /\
  subAll s = false /\ subIdle s = false /\ subError s = false.

(** The states a send passes through: in flight with an untouched
    promise, or over with at most one call of [resolve] or [reject]. *)
Definition Coherent (s : Send) : Prop :=
  (Pending s /\ promise s = []) \/ (Over s /\ length (promise s) <= 1).

(** Text deltas with their clock readings, as signals. *)
Definition delta_signals (deltas : list (Z * string)) : list (Z * Signal) :=
  map (fun d => (d.1, SigEvent (assistant_message_delta d.2))) deltas.


(** An update that belongs to a segment: a text or a segment_end. *)
Definition of_segment (u : Update) : bool :=
  bool_decide (utype u = text) || bool_decide (utype u = segment_end).

(** A segment_end update for segment [k]. *)
Definition closes (k : nat) (u : Update) : bool :=
  bool_decide (utype u = segment_end) && bool_decide (segmentId u = Some k).

(** Clock readings spaced by more than [T], the first one from [last]. *)
Fixpoint spaced (T last : Z) (ts : list Z) : Prop :=
  match ts with
  | [] => True
  | t :: rest => (t - last > T)%Z /\ spaced T t rest
  end.

(** How many updates of a log close segment [k]. *)
Definition closings (k : nat) (log : list Update) : nat :=
  length (List.filter (closes k) log).

(** Updates of a segment carry an id that is at least [k]. *)
Definition ids_from (k : nat) (out : list Update) : Prop :=
  Forall (fun u => of_segment u = true -> exists k', segmentId u = Some k' /\ k <= k') out.

(** The outcome a terminal signal stands for: a resolution for the idle
    event, a rejection with the event's message (or the default one) for
    the error event, with the timed-out error for the timer, with the
    submission's error for a failed submission. *)
Definition settles (sig : Signal) (o : Settlement) : Prop :=
  match sig with
  | SigEvent session_idle => exists value, o = Resolved value
  | SigEvent (session_error message) =>
      o = Rejected (if decide (message = "") then "Unknown Copilot error" else message)
  | SigTimeout => o = Rejected "Copilot response timed out"
  | SigSendFailed err => o = Rejected err
  | SigEvent _ => False
  end.

(** Two status callbacks: one whose promises always fulfil, one whose
    promises always reject. *)
Definition acceptAll : Update -> bool := fun _ => true.
Definition rejectAll : Update -> bool := fun _ => false.

(** The value [resolve] receives for an accumulated response. *)
Definition finalText (fc : string) : string :=
  if decide (fc = "") then "No response from Copilot." else fc.

(** A worked send: a throttle interval of half a second, three deltas of
    5, 10 and 30 characters inside one interval, a tool start, and what
    follows. *)
Definition demoStart : State := beginSend 0 newManager.

Definition demoDeltas : list (Z * string) :=
  [(1000%Z, "Intro"); (1001%Z, " and more."); (1002%Z, " thirty characters of prose...")].

Definition demoLater : list (Z * Signal) :=
  [(1700%Z, SigEvent (assistant_message_delta "The answer continues after the tool."));
   (2400%Z, SigEvent session_idle)].

(** A burst: a long delta, one 200 ms later, one 600 ms later. *)
Definition demoBurst : list (Z * string) :=
  [(1000%Z, "A first delta of some length."); (1200%Z, " More."); (1800%Z, " Still more.")].

(** *** Stopping and shutting down *)

(** What [stop()] answers: ["stopped"], ["pending"] or [false]. *)
Inductive StopResult := stopped | pending | not_running.

(** [stop()]: [abortOk] tells whether [session.abort()] succeeds. *)
Definition stop (abortOk : bool) (m : Manager) : StopResult * Manager :=
  if _isProcessing m && isActive m then
    (if abortOk then stopped else pending, set_stopRequested true m)
  else (not_running, m).

(** The function [startProcessing()] returns. *)
Definition stopProcessing (m : Manager) : Manager := set_isProcessing false m.

(** [shutdown()]: [stopOk] tells whether [client.stop()] succeeds; its
    failure is caught and only logged. *)
Definition shutdown (destroyOk stopOk : bool) (m : Manager) : Manager :=
  let m1 := kill destroyOk m in
  if client m1 then (if stopOk then set_client false m1 else set_client false m1)
  else m1.

(** [shutdown()] is suspended while it waits for [client.stop()], and
    other operations may run meanwhile. What it does once the wait is
    over, to the manager as it is by then: [this.client = null]. *)
Definition shutdownResume (m : Manager) : Manager := set_client false m.

(** *** Vocabulary of the further properties *)

(** The text a log has closed: the contents of its segment_end updates,
    in order. *)
Definition closedText (log : list Update) : string :=
  String.concat ""
    (map content (List.filter (fun u => bool_decide (utype u = segment_end)) log)).

(** The updates of a run, without their clock readings. *)
Definition updates (out : list (Z * Update)) : list Update := map Datatypes.snd out.

(** The last update every resolved send ends on. *)
Definition doneUpdate : Update := mkUpdate done "" None.

(** Events that only touch bookkeeping fields of the manager: the end of
    a tool run, a usage report, a title change, and the events the
    manager does not know. *)
Definition is_bookkeeping (sig : Signal) : bool :=
  match sig with
  | SigEvent tool_execution_complete | SigEvent (assistant_usage _ _ _ _)
  | SigEvent (session_title_changed _) | SigEvent other_event => true
  | _ => false
  end.

(** [a] is a prefix of [b]. *)
Definition is_prefix (a b : string) : Prop := exists tail, b = a ++ tail.

(** The worked send up to its end: the deltas, a tool start, a last
    delta. *)
Definition demoTooled : list (Z * Signal) :=
  (delta_signals demoDeltas
   ++ [(1003%Z, SigEvent (tool_execution_start "bash"));
       (1700%Z, SigEvent (assistant_message_delta "The answer continues after the tool."))])%list.

(** A log that holds no done update, and one that ends on the done
    update and holds no other. *)
Definition NoDone (log : list Update) : Prop := Forall (fun u => utype u <> done) log.
Definition EndsDone (log : list Update) : Prop :=
  exists pre, log = (pre ++ [doneUpdate])%list /\ NoDone pre.

(** What the log tells about the promise, and the promise about the
    log. *)
Definition DoneInv (s : Send) (log : list Update) : Prop :=
  (Pending s /\ promise s = [] /\ NoDone log) \/
  (Over s /\
   (((exists e, promise s = [Rejected e]) /\ NoDone log) \/
    (promise s = [] /\ (NoDone log \/ EndsDone log)) \/
    ((exists v, promise s = [Resolved v]) /\ EndsDone log))).

(** The signals of a run that are not bookkeeping. *)
Definition essential (sigs : list (Z * Signal)) : list (Z * Signal) :=
  List.filter (fun s => negb (is_bookkeeping s.2)) sigs.

(** A segment_end update of the log closes segment [k] on a text that
    extends the content of [u]. *)
Definition ClosedBy (log : list Update) (u : Update) (k : nat) : Prop :=
  exists e, In e log /\ utype e = segment_end /\ segmentId e = Some k /\
            is_prefix (content u) (content e).

(** The text updates of a log against the open segment: a text update
    is not empty and belongs either to the open segment, whose text
    extends it, or to an earlier segment that the log has closed on an
    extension of it; no segment is closed twice, and neither the open
    segment nor a later one is closed. *)
Definition TextInv (log : list Update) (seg : Segment) : Prop :=
  (forall u, In u log -> utype u = text ->
     content u <> "" /\
     exists k, segmentId u = Some k /\
       ((k = seg_id seg /\ is_prefix (content u) (seg_text seg)) \/
        (k < seg_id seg /\ ClosedBy log u k))) /\
  (forall k, closings k log <= 1 /\ (seg_id seg <= k -> closings k log = 0)).

(** *** The manager over its life *)

(** What is done to the manager from outside. The operations of a
    history do not overlap: each has run to its end, awaits included,
    when the next one starts. A send comes with what the backend answers
    to it: whether a client starts, the session it creates, the clock
    reading, and the signals that reach it before the next operation. A
    signal that reaches a send still in flight later on, between other
    operations, is an operation of its own: [closure] is the state of the
    closure of that send, whatever it is. *)
Inductive Op :=
| OpSend (startOk : bool) (created : option SdkSession) (now : Z)
         (sigs : list (Z * Signal))
| OpSignal (now : Z) (sig : Signal) (closure : Send)
| OpStop (abortOk : bool)
| OpKill (destroyOk : bool)
| OpShutdown (destroyOk stopOk : bool)
| OpStartProcessing
| OpStopProcessing
| OpClearStopRequested
| OpMarkInterrupt
| OpConsumeInterruptFlag
| OpSetLastMessage (message : string)
| OpSetConversationTitle (title : string).

Section Operations.

Variable STREAMING_THROTTLE_MS : Z.
Variable statusCallback : Update -> bool.

Definition apply_op (op : Op) (m : Manager) : Manager :=
  match op with
  | OpSend startOk created now sigs =>
      match sendMessageStreaming startOk created now m with
      | inl m1 => m1
      | inr st => mgr (run STREAMING_THROTTLE_MS statusCallback sigs st).1
      end
  | OpSignal now sig closure =>
      mgr (deliver STREAMING_THROTTLE_MS statusCallback now sig
             {| mgr := m; send := closure |}).1
  | OpStop abortOk => (stop abortOk m).2
  | OpKill destroyOk => kill destroyOk m
  | OpShutdown destroyOk stopOk => shutdown destroyOk stopOk m
  | OpStartProcessing => startProcessing m
  | OpStopProcessing => stopProcessing m
  | OpClearStopRequested => clearStopRequested m
  | OpMarkInterrupt => markInterrupt m
  | OpConsumeInterruptFlag => (consumeInterruptFlag m).2
  | OpSetLastMessage message => set_lastMessage (Some message) m
  | OpSetConversationTitle title => set_conversationTitle (Some title) m
  end.

Definition apply_ops (ops : list Op) (m : Manager) : Manager :=
  foldl (fun acc op => apply_op op acc) m ops.

End Operations.

(** An operation that neither sets nor reads the interrupt flag. *)
Definition leaves_interrupt (op : Op) : bool :=
  match op with
  | OpMarkInterrupt | OpConsumeInterruptFlag => false
  | _ => true
  end.

End CopilotSession.

(** ** The agent manager ([src/agent-manager.ts]) *)

Module AgentManager.

Inductive AgentType := claude | copilot.

(** The fields of the manager: the global agent and the preferences of
    the users, a map from user ids. *)
Record Manager := mkManager {
  currentAgent : AgentType;
  userPreferences : gmap Z AgentType
}.

(** The manager right after construction. *)
Definition newManager : Manager := mkManager claude empty.

(** An optional user id as a condition: [undefined] and 0 are falsy. *)
Definition given (userId : option Z) : option Z :=
  match userId with
  | Some u => if (u =? 0)%Z then None else Some u
  | None => None
  end.

(** [getCurrentAgent(userId?)]. *)
Definition getCurrentAgent (userId : option Z) (a : Manager) : AgentType :=
  match given userId with
  | Some u =>
      match userPreferences a !! u with
      | Some t => t
      | None => currentAgent a
      end
  | None => currentAgent a
  end.

(** [setAgent(agentType, userId?)]. *)
Definition setAgent (agentType : AgentType) (userId : option Z) (a : Manager) : Manager :=
  match given userId with
  | Some u => mkManager (currentAgent a) (<[u := agentType]> (userPreferences a))
  | None => mkManager agentType (userPreferences a)
  end.

(** [getSession(userId?)] chooses between the two global sessions; the
    choice is returned with the pair of sessions it is made from. *)
Definition getSession {S : Type} (claudeSession copilotSession : S)
           (userId : option Z) (a : Manager) : S :=
  match getCurrentAgent userId a with
  | claude => claudeSession
  | copilot => copilotSession
  end.

(** *** Vocabulary of the properties *)

#[global] Instance AgentType_eq_dec : EqDecision AgentType.
Proof. solve_decision. Defined.

(** Calls of [setAgent], applied in order. *)
Definition Switch : Type := AgentType * option Z.

Definition switches (calls : list Switch) (a : Manager) : Manager :=
  foldl (fun acc call => setAgent call.1 call.2 acc) a calls.

(** The agent of the last call that addressed user [u], and of the last
    call that addressed nobody. *)
Definition last_for (u : Z) (calls : list Switch) : option AgentType :=
  last (omap (fun call : Switch => if decide (given call.2 = Some u) then Some call.1 else None)
          calls).

Definition last_global (calls : list Switch) : option AgentType :=
  last (omap (fun call : Switch => if decide (given call.2 = None) then Some call.1 else None)
          calls).

End AgentManager.

(** ** The handlers ([handlers/text.ts], [handlers/commands.ts]) *)

Module Handlers.

Import CopilotSession.

(** How a call of [sendMessageStreaming] ends for its caller: it
    returns the response, it throws (the error standing by
    [String(error)]), or its promise never settles. *)
Inductive Outcome :=
| Returned (response : string)
| Threw (errorStr : string)
| NeverSettles.

(** The texts a handler replies with. *)
Inductive Notice :=
| Unauthorized
| RateLimited
| Retrying
| QueryStopped
| AllAccountsLimited
| ErrorNotice (detail : string)
| SessionCleared.

(** What a handler does that can be seen from outside, in order: the
    calls it makes on the session and its replies. *)
Inductive Action :=
| Reply (notice : Notice)
| AuditRateLimit
| Sent (message : string)
| Audit (message response : string)
| CleanedUp
| Killed
| Stopped
| StopCleared.

Definition MAX_RETRIES : nat := 1.

(** The title taken from a first message:
    [message.length > 50 ? message.slice(0, 47) + "..." : message]. *)
Definition titleOf (message : string) : string :=
  if (50 <? String.length message)%nat then Js.slice0 47 message ++ "..." else message.

Section Provider.

(** The session the agent manager hands out, an [AIProvider], and the
    parts of the platform the handlers call: the state [S] holds the
    session and whatever these parts remember. *)
Context {S : Type}.
Variable isActive : S -> bool.
Variable isRunning : S -> bool.
Variable setLastMessage : string -> S -> S.
Variable setConversationTitle : string -> S -> S.
Variable startProcessing : S -> S.
Variable stopProcessing : S -> S.
Variable sendMessageStreaming : string -> S -> S * Outcome.
Variable stop : S -> StopResult * S.
Variable kill : S -> S.
Variable clearStopRequested : S -> S.
Variable consumeInterruptFlag : S -> bool * S.
Variable isAuthorized : Z -> bool.
Variable checkInterrupt : string -> Z -> S -> S * string.
Variable rateLimiterCheck : Z -> S -> S * bool.

(** What the [catch] of the retry loop does with an error that is not
    retried. *)
Definition reportError (errorStr : string) (s : S) : S * list Action :=
  if Js.includes "abort" errorStr || Js.includes "cancel" errorStr then
    let (wasInterrupt, s1) := consumeInterruptFlag s in
    (s1, if wasInterrupt then [] else [Reply QueryStopped])
  else if Js.includes "all accounts rate limited" errorStr then
    (s, [Reply AllAccountsLimited])
  else (s, [Reply (ErrorNotice (Js.slice0 200 errorStr))]).

(** The loop [for (let attempt = 0; attempt <= MAX_RETRIES; attempt++)]
    from [attempt] on, with [fuel] iterations left. The boolean tells
    whether the loop is left at all: it is not when a send never
    settles. *)
Fixpoint attempts (fuel attempt : nat) (message : string) (s : S)
  : S * list Action * bool :=
  match fuel with
  | O => (s, [], true)
  | Datatypes.S fuel' =>
      match sendMessageStreaming message s with
      | (s1, Returned response) => (s1, [Sent message; Audit message response], true)
      | (s1, NeverSettles) => (s1, [Sent message], false)
      | (s1, Threw errorStr) =>
          let isClaudeCodeCrash := Js.includes "exited with code" errorStr in
          if isClaudeCodeCrash && (attempt <? MAX_RETRIES)%nat then
            let '(s2, acts, exited) := attempts fuel' (Datatypes.S attempt) message (kill s1) in
            (s2, ([Sent message; CleanedUp; Killed; Reply Retrying] ++ acts)%list, exited)
          else
            let (s2, acts) := reportError errorStr s1 in
            (s2, ([Sent message; CleanedUp] ++ acts)%list, true)
      end
  end.

(** [handleText(ctx)]: [userId], [text] and [chatId] are [ctx.from?.id],
    [ctx.message?.text] and [ctx.chat?.id]. The boolean tells whether the
    handler returns. The typing indicator and the streaming state behind
    the status callback belong to the chat and are left out. *)
Definition handleText (userId : option Z) (text : option string) (chatId : option Z)
           (s : S) : S * list Action * bool :=
  match AgentManager.given userId, text, AgentManager.given chatId with
  | Some uid, Some message0, Some _ =>
      if negb (Js.truthy message0) then (s, [], true)
      else if negb (isAuthorized uid) then (s, [Reply Unauthorized], true)
      else
        let (s1, message) := checkInterrupt message0 uid s in
        if negb (Js.truthy (Js.trim message)) then (s1, [], true)
        else
          let (s2, allowed) := rateLimiterCheck uid s1 in
          if negb allowed then (s2, [AuditRateLimit; Reply RateLimited], true)
          else
            let s3 := setLastMessage message s2 in
            let s4 := if negb (isActive s3)
                      then setConversationTitle (titleOf message) s3 else s3 in
            let s5 := startProcessing s4 in
            let '(s6, acts, exited) := attempts (Datatypes.S MAX_RETRIES) 0 message s5 in
            if exited then (stopProcessing s6, acts, true) else (s6, acts, false)
  | _, _, _ => (s, [], true)
  end.

(** What [handleNew] and [handleStop] share: stop a running query and,
    when the stop was taken, clear the request. *)
Definition stopRunning (s : S) : S * list Action :=
  if isRunning s then
    match stop s with
    | (not_running, s1) => (s1, [Stopped])
    | (_, s1) => (clearStopRequested s1, [Stopped; StopCleared])
    end
  else (s, []).

(** [handleNew(ctx)]; [authorized] is what [isAuthorized] answers. *)
Definition handleNew (authorized : bool) (s : S) : S * list Action :=
  if negb authorized then (s, [Reply Unauthorized])
  else
    let (s1, acts) := stopRunning s in
    (kill s1, (acts ++ [Killed; Reply SessionCleared])%list).

(** [handleStop(ctx)]. *)
Definition handleStop (authorized : bool) (s : S) : S * list Action :=
  if negb authorized then (s, [Reply Unauthorized])
  else stopRunning s.

End Provider.

(** *** The account command *)

(** The time left as [handleAccount] shows it: minutes and seconds from
    a minute on, seconds below. *)
Definition cooldownText (secsLeft : Z) : string :=
  let minsLeft := (secsLeft / 60)%Z in
  if (minsLeft >? 0)%Z
  then Js.show_int minsLeft ++ "m " ++ Js.show_int (Z.rem secsLeft 60) ++ "s"
  else Js.show_int secsLeft ++ "s".

(** One line of [handleAccount]. The guard
    [acct.rateLimitedUntil && acct.rateLimitedUntil > now] is falsy for
    [null], for the number 0 and for NaN. Characters beyond Latin-1 stand
    by their UTF-8 bytes. *)
Definition accountLine (now : Z) (current i : nat) (acct : AccountPool.Account) : string :=
  let marker := if Nat.eqb i current then "▶" else "  " in
  match AccountPool.rateLimitedUntil acct with
  | Some (Js.Int u) =>
      if negb (u =? 0)%Z && (u >? now)%Z then
        let secsLeft := Js.ceil_div (u - now) 1000 in
        marker ++ " <code>" ++ AccountPool.name acct ++ "</code> — ⏳ limited ("
        ++ cooldownText secsLeft ++ " left)"
      else marker ++ " <code>" ++ AccountPool.name acct ++ "</code> — ✅ available"
  | Some Js.NaN => marker ++ " <code>" ++ AccountPool.name acct ++ "</code> — ✅ available"
  | None => marker ++ " <code>" ++ AccountPool.name acct ++ "</code> — ✅ available"
  end.

(** [handleAccount(ctx)]: the text it replies with, at clock reading
    [now]. *)
Definition handleAccount (authorized : bool) (now : Z) (p : AccountPool.Pool) : string :=
  if negb authorized then "Unauthorized."
  else
    let count := AccountPool.accountCount p in
    if Nat.eqb count 0 then
      "👤 <b>Account Pool</b>" ++ AccountPool.newline ++ AccountPool.newline
      ++ "No CCS accounts configured." ++ AccountPool.newline
      ++ "Running with default Claude account."
    else
      let header := "👤 <b>Account Pool</b> (" ++ Js.show_int (Z.of_nat count) ++ " accounts)"
                    ++ AccountPool.newline in
      let footer := AccountPool.newline ++ "Current: <b>" ++ AccountPool.getCurrentName p
                    ++ "</b>" in
      Js.join AccountPool.newline
        (header
         :: imap (accountLine now (AccountPool._currentIndex p)) (AccountPool.accounts p)
         ++ [footer])%list.

(** *** Vocabulary of the properties *)

(** How often a handler sent a message, and how often it killed the
    session. *)
Definition sends (acts : list Action) : nat :=
  length (List.filter (fun a => match a with Sent _ => true | _ => false end) acts).

Definition kills (acts : list Action) : nat :=
  length (List.filter (fun a => match a with Killed => true | _ => false end) acts).

(** The replies that end a message that failed. *)
Definition is_failure_notice (a : Action) : bool :=
  match a with
  | Reply QueryStopped | Reply AllAccountsLimited | Reply (ErrorNotice _) => true
  | _ => false
  end.

Definition failure_notices (acts : list Action) : nat :=
  length (List.filter is_failure_notice acts).

(** The audit entries of responses ([auditLog]); the audit entry of a
    rate limit ([auditLogRateLimit]) is the action [AuditRateLimit]. *)
Definition audits (acts : list Action) : nat :=
  length (List.filter (fun a => match a with Audit _ _ => true | _ => false end) acts).

(** A pool of three: [A] limited until clock reading 90100, [B]
    current and never limited, [C] limited until NaN. *)
Definition viewPool : AccountPool.Pool :=
  AccountPool.mkPool
    [AccountPool.mkAccount "A" "/ccs/instances/a" (Some (Js.Int 90100));
     AccountPool.mkAccount "B" "/ccs/instances/b" None;
     AccountPool.mkAccount "C" "/ccs/instances/c" (Some Js.NaN)] 1 300000.

(** The commands on the Copilot session manager, with what the backend
    answers to [abort()] and [destroy()]. *)
Definition copilotNew (abortOk destroyOk : bool) (authorized : bool) (m : Manager)
  : Manager * list Action :=
  handleNew CopilotSession.isRunning (CopilotSession.stop abortOk)
    (CopilotSession.kill destroyOk) CopilotSession.clearStopRequested authorized m.

Definition copilotStop (abortOk : bool) (authorized : bool) (m : Manager)
  : Manager * list Action :=
  handleStop CopilotSession.isRunning (CopilotSession.stop abortOk)
    CopilotSession.clearStopRequested authorized m.

End Handlers.

(** ** The usage tracker ([getLocalUsageStats]) *)

Module UsageTracker.

(** What [parseSessionFile] returns for one session file: the four
    sums, numbers, and the time of the first event in milliseconds,
    [None] for [null]. Dates are valid dates and numbers are integers in
    the model. *)
Record FileStats := mkFileStats {
  inputTokens : Z;
  outputTokens : Z;
  cacheCreation : Z;
  cacheRead : Z;
  timestamp : option Z
}.

Record RecentSession := mkRecentSession {
  rs_timestamp : Z;
  rs_inputTokens : Z;
  rs_outputTokens : Z
}.

Record UsageStats := mkUsageStats {
  totalInputTokens : Z;
  totalOutputTokens : Z;
  totalCacheCreation : Z;
  totalCacheRead : Z;
  sessionCount : nat;
  dateRange_start : Z;
  dateRange_end : Z;
  recentSessions : list RecentSession
}.

(** The variables of the loop over the session files. *)
Record Totals := mkTotals {
  t_input : Z;
  t_output : Z;
  t_cacheCreation : Z;
  t_cacheRead : Z;
  t_count : nat;
  oldestDate : option Z;
  newestDate : option Z;
  t_recent : list RecentSession
}.

Definition noTotals : Totals := mkTotals 0 0 0 0 0 None None [].

(** The body of the inner loop for one session file, [cutoff] being the
    time of [cutoffDate]. *)
Definition addFile (cutoff : Z) (acc : Totals) (stats : FileStats) : Totals :=
  match timestamp stats with
  | None => acc
  | Some t =>
      if (t <? cutoff)%Z then acc
      else
        mkTotals (t_input acc + inputTokens stats) (t_output acc + outputTokens stats)
          (t_cacheCreation acc + cacheCreation stats) (t_cacheRead acc + cacheRead stats)
          (S (t_count acc))
          (match oldestDate acc with
           | None => Some t
           | Some o => if (t <? o)%Z then Some t else Some o
           end)
          (match newestDate acc with
           | None => Some t
           | Some n => if (t >? n)%Z then Some t else Some n
           end)
          (if (inputTokens stats >? 0)%Z || (outputTokens stats >? 0)%Z
           then t_recent acc ++ [mkRecentSession t (inputTokens stats) (outputTokens stats)]
           else t_recent acc)
  end.

(** [sessions.sort((a, b) => b.timestamp.getTime() - a.timestamp.getTime())]:
    newest first, sessions of the same time in the order they had. *)
Fixpoint insertSession (x : RecentSession) (l : list RecentSession) : list RecentSession :=
  match l with
  | [] => [x]
  | y :: l' =>
      if (rs_timestamp y <=? rs_timestamp x)%Z then x :: y :: l'
      else y :: insertSession x l'
  end.

Definition sortNewestFirst (l : list RecentSession) : list RecentSession :=
  foldr insertSession [] l.

(** [getLocalUsageStats(daysBack)]: [projectsDirExists] is what
    [existsSync(projectsDir)] answers; [files] lists what
    [parseSessionFile] returns for the session files in the order of the
    traversal, [None] when the traversal throws; [cutoff] and [now] are
    the times of [cutoffDate] and of the [new Date()] of the result. *)
Definition getLocalUsageStats (projectsDirExists : bool) (files : option (list FileStats))
           (cutoff now : Z) : option UsageStats :=
  if negb projectsDirExists then None
  else
    match files with
    | None => None
    | Some files =>
        let acc := foldl (addFile cutoff) noTotals files in
        Some (mkUsageStats (t_input acc) (t_output acc) (t_cacheCreation acc)
                (t_cacheRead acc) (t_count acc)
                (default cutoff (oldestDate acc)) (default now (newestDate acc))
                (take 5 (sortNewestFirst (t_recent acc))))
    end.

(** *** Vocabulary of the properties *)

(** The files the loop counts: those with a time that is not before the
    cutoff. *)
Definition counted (cutoff : Z) (stats : FileStats) : bool :=
  match timestamp stats with
  | Some t => negb (t <? cutoff)%Z
  | None => false
  end.

Definition timeOf (stats : FileStats) : Z := default 0%Z (timestamp stats).

(** The sum of a field over a list of files. *)
Definition total (field : FileStats -> Z) (files : list FileStats) : Z :=
  foldr Z.add 0%Z (map field files).

(** The counted files that show usage, as recent sessions. *)
Definition candidates (cutoff : Z) (files : list FileStats) : list RecentSession :=
  map (fun stats => mkRecentSession (timeOf stats) (inputTokens stats) (outputTokens stats))
    (List.filter (fun stats => counted cutoff stats
                    && ((inputTokens stats >? 0)%Z || (outputTokens stats >? 0)%Z)) files).

(** No session is newer than the one before it. *)
Definition newestFirst (l : list RecentSession) : Prop :=
  Sorted (fun a b => (rs_timestamp b <= rs_timestamp a)%Z) l.

Definition demoFiles : list FileStats :=
  [mkFileStats 10 20 0 0 (Some 5000%Z); mkFileStats 1 1 0 0 (Some 100%Z);
   mkFileStats 0 0 7 7 (Some 9000%Z); mkFileStats 3 4 0 0 None;
   mkFileStats 5 0 0 0 (Some 7000%Z)].

End UsageTracker.

(** * Properties *)

(** ** Strings *)

Module JsFacts.

Lemma truthy_true s : Js.truthy s = true <-> s <> "".
Proof. destruct s; simpl; split; congruence. Qed.

Lemma truthy_decide {A} s (x y : A) :
  (if Js.truthy s then x else y) = (if decide (s = "") then y else x).
Proof. destruct s; reflexivity. Qed.

Lemma app_cons c (s t : string) : String c s ++ t = String c (s ++ t).
Proof. reflexivity. Qed.

Lemma app_empty_r (s : string) : s ++ "" = s.
Proof. induction s as [|c s IH]; [reflexivity | rewrite app_cons, IH; reflexivity]. Qed.

Lemma app_assoc_str (s t u : string) : (s ++ t) ++ u = s ++ (t ++ u).
Proof. induction s as [|c s IH]; [reflexivity | rewrite !app_cons, IH; reflexivity]. Qed.

Lemma concat_empty_cons (x : string) (xs : list string) :
  String.concat "" (x :: xs) = x ++ String.concat "" xs.
Proof. destruct xs; simpl; [symmetry; apply app_empty_r | reflexivity]. Qed.

(** [slice(0, n)] keeps a prefix of [min n length] characters. *)
Lemma slice0_prefix n s :
  exists tail, s = Js.slice0 n s ++ tail /\
               String.length (Js.slice0 n s) = Nat.min n (String.length s).
Proof.
  unfold Js.slice0. revert n. induction s as [|c s IH]; intros n.
  - exists "". destruct n; split; reflexivity.
  - destruct n as [|n].
    + exists (String c s). split; reflexivity.
    + destruct (IH n) as (tail & Htail & Hlen). exists tail. simpl. split.
      * transitivity (String c (String.substring 0 n s ++ tail));
          [f_equal; exact Htail | reflexivity].
      * f_equal. exact Hlen.
Qed.

(** [Math.ceil(d / k)] is the least multiple count that covers [d]. *)
Lemma ceil_div_bounds (d k : Z) :
  (0 < k)%Z -> (k * (Js.ceil_div d k - 1) < d <= k * Js.ceil_div d k)%Z.
Proof.
  intros Hk. unfold Js.ceil_div.
  pose proof (Z.div_mod (- d) k ltac:(lia)) as Hdm.
  pose proof (Z.mod_pos_bound (- d) k Hk) as Hm.
  nia.
Qed.

Section Characters.

Variable p : ascii -> bool.

Lemma all_chars_app (a b : string) :
  Js.all_chars p (a ++ b) = Js.all_chars p a && Js.all_chars p b.
Proof.
  induction a as [|c a IH]; [reflexivity|].
  rewrite app_cons. simpl. rewrite IH. apply andb_assoc.
Qed.

Lemma all_chars_take_while (s : string) : Js.all_chars p (Js.take_while p s) = true.
Proof.
  induction s as [|c s IH]; [reflexivity|]. simpl.
  destruct (p c) eqn:Hc; [simpl; rewrite Hc; exact IH | reflexivity].
Qed.

(** A run of [p]-characters followed by something that does not start
    with one: [take_while] stops at the seam. *)
Lemma take_drop_seam (a b : string) :
  Js.all_chars p a = true ->
  (forall c, Js.first_char b = Some c -> p c = false) ->
  Js.take_while p (a ++ b) = a /\ Js.drop_while p (a ++ b) = b.
Proof.
  intros Ha Hb. induction a as [|c a IH].
  - change ("" ++ b) with b. destruct b as [|c b]; [split; reflexivity|].
    simpl. rewrite (Hb c eq_refl). split; reflexivity.
  - simpl in Ha. apply andb_true_iff in Ha as [Hc Ha].
    destruct (IH Ha) as [IH1 IH2]. rewrite app_cons. simpl. rewrite Hc, IH1, IH2.
    split; reflexivity.
Qed.

Lemma take_while_all (s : string) : Js.all_chars p s = true -> Js.take_while p s = s.
Proof.
  intros H. destruct (take_drop_seam s "" H) as [H1 _]; [discriminate|].
  rewrite app_empty_r in H1. exact H1.
Qed.

Lemma drop_while_all (s : string) : Js.all_chars p s = true -> Js.drop_while p s = "".
Proof.
  intros H. destruct (take_drop_seam s "" H) as [_ H2]; [discriminate|].
  rewrite app_empty_r in H2. exact H2.
Qed.

Lemma drop_while_stop (s : string) :
  (forall c, Js.first_char s = Some c -> p c = false) -> Js.drop_while p s = s.
Proof. intros H. exact (proj2 (take_drop_seam "" s eq_refl H)). Qed.

End Characters.

Lemma all_chars_impl (p q : ascii -> bool) (s : string) :
  (forall c, p c = true -> q c = true) ->
  Js.all_chars p s = true -> Js.all_chars q s = true.
Proof.
  intros Hpq. induction s as [|c s IH]; [reflexivity|]. simpl.
  intros H. apply andb_true_iff in H as [Hc Hs].
  rewrite (Hpq c Hc), (IH Hs). reflexivity.
Qed.

Lemma split_no_sep sep (s : string) :
  Js.all_chars (Js.not_sep sep) s = true -> Js.split sep s = [s].
Proof.
  induction s as [|c s IH]; [reflexivity|]. simpl. intros H.
  apply andb_true_iff in H as [Hc Hs]. unfold Js.not_sep in Hc.
  apply negb_true_iff in Hc. rewrite Hc, (IH Hs). reflexivity.
Qed.

Lemma split_at_sep sep (a b : string) :
  Js.all_chars (Js.not_sep sep) a = true ->
  Js.split sep (a ++ String sep b) = a :: Js.split sep b.
Proof.
  induction a as [|c a IH]; intros H.
  - change ("" ++ String sep b) with (String sep b). simpl.
    rewrite Ascii.eqb_refl. reflexivity.
  - simpl in H. apply andb_true_iff in H as [Hc Ha]. unfold Js.not_sep in Hc.
    apply negb_true_iff in Hc. rewrite app_cons. simpl. rewrite Hc, (IH Ha).
    reflexivity.
Qed.

(** What a name character is not. *)
Lemma name_char_facts c :
  Js.is_name_char c = true ->
  Js.is_space c = false /\ Js.is_quote c = false /\ Js.is_dot c = true /\
  Ascii.eqb c ","%char = false /\ Ascii.eqb c ":"%char = false /\
  Ascii.eqb c "#"%char = false.
Proof.
  destruct c as [b0 b1 b2 b3 b4 b5 b6 b7].
  destruct b0, b1, b2, b3, b4, b5, b6, b7; vm_compute; intros H;
    first [discriminate H | repeat split].
Qed.

End JsFacts.

(** ** The account pool *)

Module PoolFacts.

Import AccountPool JsFacts.

(** *** Rotation *)

Lemma available_true now a : available now a = true <-> Eligible now a.
Proof.
  unfold available, Eligible. destruct (rateLimitedUntil a) as [[u|]|].
  - rewrite Z.leb_le. split.
    + intros H. right. exists u. split; [reflexivity | exact H].
    + intros [H | (u' & H & Hle)]; [discriminate | congruence].
  - split; [discriminate|]. intros [H | (u' & H & _)]; discriminate.
  - split; [intros _; left; reflexivity | reflexivity].
Qed.

Lemma available_false now a : available now a = false <-> ~ Eligible now a.
Proof. rewrite <- available_true. symmetry. apply not_true_iff_false. Qed.

(** The loop never dereferences a missing candidate; it stops at the
    first eligible account it visits, and when it runs to its end none of
    the accounts it visited was eligible. *)
Lemma rotate_loop_spec accts start now fuel : forall i,
  (accts = [] -> fuel = 0) ->
  match rotate_loop accts start now i fuel with
  | Found k =>
      exists j a, i <= j < i + fuel /\ k = slot accts start j /\
        accts !! k = Some a /\ Eligible now a /\
        forall j', i <= j' < j ->
          exists b, accts !! slot accts start j' = Some b /\ ~ Eligible now b
  | Exhausted =>
      forall j, i <= j < i + fuel ->
        exists b, accts !! slot accts start j = Some b /\ ~ Eligible now b
  | Threw => False
  end.
Proof.
  induction fuel as [|fuel IH]; intros i Hne; simpl.
  - intros j Hj. lia.
  - assert (Hlen : 0 < length accts).
    { destruct accts; [specialize (Hne eq_refl); discriminate | simpl; lia]. }
    fold (slot accts start i).
    destruct (accts !! slot accts start i) as [cand|] eqn:Hcand.
    + destruct (available now cand) eqn:Hav.
      * exists i, cand. split; [lia|]. split; [reflexivity|]. split; [exact Hcand|].
        split; [apply available_true; exact Hav|]. intros j' Hj'. lia.
      * assert (Hne' : accts = [] -> fuel = 0).
        { intros ->. simpl in Hlen. lia. }
        specialize (IH (S i) Hne').
        destruct (rotate_loop accts start now (S i) fuel) as [k| |].
        -- destruct IH as (j & a & Hj & Hk & Ha & Hel & Hbefore).
           exists j, a. split; [lia|]. split; [exact Hk|]. split; [exact Ha|].
           split; [exact Hel|]. intros j' Hj'.
           destruct (decide (j' = i)) as [->|Hneq].
           ++ exists cand. split; [exact Hcand | apply available_false; exact Hav].
           ++ apply Hbefore. lia.
        -- intros j Hj. destruct (decide (j = i)) as [->|Hneq].
           ++ exists cand. split; [exact Hcand | apply available_false; exact Hav].
           ++ apply IH. lia.
        -- exact IH.
    + apply lookup_ge_None in Hcand. unfold slot in Hcand.
      pose proof (Nat.mod_upper_bound (start + i) (length accts)). lia.
Qed.

Lemma alter_current_lookup (accts : list Account) start until j a :
  accts !! j = Some a ->
  alter (setLimited until) start accts !! j
  = Some (if decide (j = start) then setLimited until a else a).
Proof.
  intros Hj. destruct (decide (j = start)) as [->|Hne].
  - rewrite list_lookup_alter_eq, Hj. reflexivity.
  - rewrite list_lookup_alter_ne by congruence. exact Hj.
Qed.

(** C1. For every pool state, [markLimitedAndRotate] returns (it never
    throws); it first sets the current account's [rateLimitedUntil] to the
    clock reading plus the cooldown (the pool's default when none is
    given): afterwards that field of the current account holds exactly
    this number, and every other field of every account (names,
    directories, the [rateLimitedUntil] of the other accounts) is what it
    was. It then visits the accounts at [currentIndex+1],
    [currentIndex+2], ... modulo the pool size [N], at most [N] of them.
    If a visited account is eligible ([rateLimitedUntil] null or not
    after the clock reading), [currentIndex] becomes the first such
    account in visiting order and the result is true; otherwise all [N]
    visited accounts are limited, [currentIndex] is unchanged and the
    result is false. *)
Theorem markLimitedAndRotate_spec (p : Pool) (cooldown : option Z) (now0 now : Z) :
  let N := length (accounts p) in
  let start := _currentIndex p in
  let cd := default (cooldownMs p) cooldown in
  exists r p',
    markLimitedAndRotate cooldown now0 now p = Some (r, p') /\
    length (accounts p') = N /\
    cooldownMs p' = cooldownMs p /\
    (forall j a, accounts p !! j = Some a ->
       accounts p' !! j
       = Some (if decide (j = start) then setLimited (now0 + cd) a else a)) /\
    (forall j a, accounts p !! j = Some a ->
       exists a', accounts p' !! j = Some a' /\
         name a' = name a /\ configDir a' = configDir a /\
         rateLimitedUntil a'
         = if decide (j = start) then Some (Js.Int (now0 + cd)) else rateLimitedUntil a) /\
    ((r = true /\
      exists i a, 1 <= i <= N /\
        _currentIndex p' = (start + i) `mod` N /\
        accounts p' !! ((start + i) `mod` N) = Some a /\ Eligible now a /\
        forall j, 1 <= j < i ->
          exists b, accounts p' !! ((start + j) `mod` N) = Some b /\ ~ Eligible now b)
     \/
     (r = false /\ _currentIndex p' = start /\
      forall i, 1 <= i <= N ->
        exists b, accounts p' !! ((start + i) `mod` N) = Some b /\ ~ Eligible now b)).
Proof.
  intros N start cd. unfold markLimitedAndRotate. fold cd. fold start.
  set (accts := match currentAccount p with
                | Some _ => alter (setLimited (now0 + cd)) start (accounts p)
                | None => accounts p
                end).
  assert (Hlen : length accts = N).
  { unfold accts. destruct (currentAccount p); [apply length_alter | reflexivity]. }
  assert (Hmark : forall j a, accounts p !! j = Some a ->
            accts !! j = Some (if decide (j = start) then setLimited (now0 + cd) a else a)).
  { intros j a Hj. unfold accts, currentAccount. fold start.
    destruct (accounts p !! start) as [c|] eqn:Hc.
    - apply alter_current_lookup. exact Hj.
    - destruct (decide (j = start)) as [->|_]; [congruence | exact Hj]. }
  assert (Hfield : forall j a, accounts p !! j = Some a ->
            exists a', accts !! j = Some a' /\
              name a' = name a /\ configDir a' = configDir a /\
              rateLimitedUntil a'
              = if decide (j = start) then Some (Js.Int (now0 + cd)) else rateLimitedUntil a).
  { intros j a Hj. eexists. split; [exact (Hmark j a Hj)|].
    destruct (decide (j = start)); repeat split. }
  pose proof (rotate_loop_spec accts start now (length accts) 1) as Hloop.
  assert (Hne : accts = [] -> length accts = 0) by (intros ->; reflexivity).
  specialize (Hloop Hne). unfold slot in Hloop. rewrite Hlen in Hloop.
  rewrite Hlen.
  destruct (rotate_loop accts start now 1 N) as [k| |].
  - destruct Hloop as (i & a & Hi & Hk & Ha & Hel & Hbefore).
    eexists true, _. split; [reflexivity|]. simpl.
    split; [exact Hlen|]. split; [reflexivity|]. split; [exact Hmark|].
    split; [exact Hfield|].
    left. split; [reflexivity|]. exists i, a.
    split; [lia|]. split; [exact Hk|]. split; [rewrite <- Hk; exact Ha|].
    split; [exact Hel|]. intros j Hj. apply Hbefore. lia.
  - eexists false, _. split; [reflexivity|]. simpl.
    split; [exact Hlen|]. split; [reflexivity|]. split; [exact Hmark|].
    split; [exact Hfield|].
    right. split; [reflexivity|]. split; [reflexivity|].
    intros i Hi. apply Hloop. lia.
  - destruct Hloop.
Qed.

(** A worked example, read off the theorem: from [A, B, C] with [A]
    current, a report at clock reading 1000 with the default cooldown of
    300000 leaves [A] limited until 301000, leaves [B] and [C] as they
    were, moves to [B] and returns true. *)
Lemma markLimitedAndRotate_spec_witness :
  exists p',
    markLimitedAndRotate None 1000 1000 threePool = Some (true, p') /\
    _currentIndex p' = 1 /\
    accounts p' !! 0 = Some (mkAccount "A" "/a" (Some (Js.Int 301000))) /\
    accounts p' !! 1 = Some (mkAccount "B" "/b" None) /\
    accounts p' !! 2 = Some (mkAccount "C" "/c" None).
Proof.
  destruct (markLimitedAndRotate_spec threePool None 1000 1000)
    as (r & p' & Hcall & _ & _ & _ & Hfield & Hscan).
  assert (Hacct : forall j a, accounts threePool !! j = Some a ->
            accounts p' !! j
            = Some (mkAccount (name a) (configDir a)
                      (if decide (j = 0) then Some (Js.Int 301000) else rateLimitedUntil a))).
  { intros j a Hj. destruct (Hfield j a Hj) as ([n d u] & Ha' & Hn & Hd & Hu).
    simpl in Hn, Hd, Hu. rewrite Ha', Hn, Hd, Hu. reflexivity. }
  assert (Hb : accounts p' !! 1 = Some (mkAccount "B" "/b" None)) by exact (Hacct 1 _ eq_refl).
  assert (Hr : r = true /\ _currentIndex p' = 1).
  { destruct Hscan as [(Hr & i & a & Hi & Hidx & _ & _ & Hbefore) | (_ & _ & Hall)].
    - split; [exact Hr|]. simpl in Hi, Hidx.
      destruct (decide (i = 1)) as [->|Hi1]; [exact Hidx|].
      destruct (Hbefore 1 ltac:(lia)) as (b & Hb' & Hnot). simpl in Hb'.
      rewrite Hb in Hb'. injection Hb' as <-. exfalso. apply Hnot. left. reflexivity.
    - destruct (Hall 1 ltac:(simpl; lia)) as (b & Hb' & Hnot). simpl in Hb'.
      rewrite Hb in Hb'. injection Hb' as <-. exfalso. apply Hnot. left. reflexivity. }
  destruct Hr as [-> Hidx]. exists p'. split; [exact Hcall|]. split; [exact Hidx|].
  split; [exact (Hacct 0 _ eq_refl)|]. split; [exact Hb | exact (Hacct 2 _ eq_refl)].
Defined.

(** The two worked examples of the specification: from
    [A (limited), B, C] with [A] current the pool moves to [B]; a pool of
    the single account [A] marks it, finds nobody else and stays. *)
Example rotate_three_accounts :
  markLimitedAndRotate None 1000 1000
    (mkPool [mkAccount "A" "/a" (Some (Js.Int 11000)); mkAccount "B" "/b" None;
             mkAccount "C" "/c" None] 0 300000)
  = Some (true,
          mkPool [mkAccount "A" "/a" (Some (Js.Int 301000)); mkAccount "B" "/b" None;
                  mkAccount "C" "/c" None] 1 300000).
Proof. reflexivity. Qed.

Example rotate_single_account :
  markLimitedAndRotate None 1000 1000 (mkPool [mkAccount "A" "/a" None] 0 300000)
  = Some (false, mkPool [mkAccount "A" "/a" (Some (Js.Int 301000))] 0 300000).
Proof. reflexivity. Qed.

(** *** Status *)

Lemma statusEntry_marker idx current :
  (if Nat.eqb idx current then ">" else " ")
  = (if decide (idx = current) then ">" else " ").
Proof. destruct (Nat.eqb_spec idx current), (decide (idx = current)); congruence. Qed.







(** *** Discovery of account names *)

Lemma all_chars_first (p : ascii -> bool) (s : string) c :
  Js.all_chars p s = true -> Js.first_char s = Some c -> p c = true.
Proof.
  destruct s as [|c' s]; [discriminate|]. simpl. intros H [= ->].
  apply andb_true_iff in H as [H _]. exact H.
Qed.

Lemma all_chars_last (p : ascii -> bool) (s : string) c :
  Js.all_chars p s = true -> Js.last_char s = Some c -> p c = true.
Proof.
  induction s as [|c' s IH]; [discriminate|]. intros H Hl.
  simpl in H. apply andb_true_iff in H as [Hc Hs].
  destruct s as [|c'' s]; [injection Hl as <-; exact Hc | exact (IH Hs Hl)].
Qed.

Lemma last_char_app (a b : string) :
  b <> "" -> Js.last_char (a ++ b) = Js.last_char b.
Proof.
  intros Hb. induction a as [|c a IH]; [reflexivity|].
  rewrite app_cons. simpl. rewrite IH.
  destruct (a ++ b) eqn:E; [|reflexivity].
  destruct a; [change ("" ++ b) with b in E; congruence | discriminate].
Qed.

(** *** White space at the ends *)

Lemma trimEnd_keep (s : string) c :
  Js.last_char s = Some c -> Js.is_space c = false -> Js.trimEnd s = s.
Proof.
  induction s as [|c' s IH]; [discriminate|]. intros Hl Hc.
  destruct s as [|c'' s].
  - injection Hl as <-. simpl. rewrite Hc. reflexivity.
  - specialize (IH Hl Hc). change (Js.trimEnd (String c' (String c'' s)))
      with (match Js.trimEnd (String c'' s) with
            | EmptyString => if Js.is_space c' then EmptyString else String c' EmptyString
            | rest => String c' rest
            end).
    rewrite IH. reflexivity.
Qed.

Lemma trim_keep (s : string) a b :
  Js.first_char s = Some a -> Js.is_space a = false ->
  Js.last_char s = Some b -> Js.is_space b = false ->
  Js.trim s = s.
Proof.
  intros Hf Ha Hl Hb. unfold Js.trim, Js.trimStart.
  rewrite drop_while_stop.
  - exact (trimEnd_keep s b Hl Hb).
  - intros c Hc. congruence.
Qed.

(** *** Character classes *)

Lemma plain_is_portable nm : Plain nm -> Portable nm.
Proof.
  intros [Hne Hall]. unfold Portable.
  assert (Hedge : forall c, Js.is_name_char c = true -> edge_ok (Some c) = true).
  { intros c Hc. destruct (name_char_facts c Hc) as (H1 & H2 & _).
    simpl. rewrite H1, H2. reflexivity. }
  split; [|split].
  - destruct nm as [|c nm]; [congruence|]. simpl in Hall.
    apply andb_true_iff in Hall as [Hc _]. exact (Hedge c Hc).
  - destruct (Js.last_char nm) as [c|] eqn:Hl.
    + apply Hedge. exact (all_chars_last _ nm c Hall Hl).
    + exfalso. clear -Hne Hl. induction nm as [|c nm IH]; [congruence|].
      destruct nm; [discriminate | apply IH; [discriminate | exact Hl]].
  - eapply all_chars_impl; [|exact Hall]. intros c Hc.
    destruct (name_char_facts c Hc) as (_ & _ & H3 & H4 & _). rewrite H3, H4. reflexivity.
Qed.

(** What a portable name offers at its two ends and inside. *)
Lemma portable_facts nm :
  Portable nm ->
  exists a b,
    Js.first_char nm = Some a /\ Js.is_space a = false /\ Js.is_quote a = false /\
    Js.last_char nm = Some b /\ Js.is_space b = false /\ Js.is_quote b = false /\
    Js.all_chars Js.is_dot nm = true /\ Js.all_chars (Js.not_sep ",") nm = true.
Proof.
  intros (Hf & Hl & Hall).
  destruct (Js.first_char nm) as [a|] eqn:Ea; [|discriminate].
  destruct (Js.last_char nm) as [b|] eqn:Eb; [|discriminate].
  simpl in Hf, Hl. apply andb_true_iff in Hf as [Hf1 Hf2], Hl as [Hl1 Hl2].
  apply negb_true_iff in Hf1, Hf2, Hl1, Hl2.
  exists a, b. repeat (split; [first [reflexivity | assumption]|]). split.
  - eapply all_chars_impl; [|exact Hall]. intros c Hc.
    apply andb_true_iff in Hc as [Hc _]. exact Hc.
  - eapply all_chars_impl; [|exact Hall]. intros c Hc.
    apply andb_true_iff in Hc as [_ Hc]. exact Hc.
Qed.

(** *** The explicit list *)

Lemma loadFromEnv_portable nm : Portable nm -> loadFromEnv (Some nm) = Some [nm].
Proof.
  intros HP. destruct (portable_facts nm HP) as (a & b & Hf & Ha & _ & Hl & Hb & _ & _ & Hsep).
  unfold loadFromEnv.
  assert (Htr : Js.truthy nm = true) by (destruct nm; [discriminate | reflexivity]).
  rewrite Htr, (split_no_sep _ nm Hsep). simpl.
  rewrite (trim_keep nm a b Hf Ha Hl Hb).
  unfold filter, list_filter. rewrite decide_True by exact Htr. reflexivity.
Qed.

(** *** Lines of the configuration file *)

Lemma drop_last_quote_keep (s : string) c :
  Js.last_char s = Some c -> Js.is_quote c = false -> drop_last_quote s = s.
Proof.
  induction s as [|c' s IH]; [discriminate|]. intros Hl Hc.
  destruct s as [|c'' s].
  - injection Hl as <-. simpl. rewrite Hc. reflexivity.
  - change (drop_last_quote (String c' (String c'' s)))
      with (String c' (drop_last_quote (String c'' s))).
    rewrite (IH Hl Hc). reflexivity.
Qed.

Lemma strip_quotes_keep (s : string) a b :
  Js.first_char s = Some a -> Js.is_quote a = false ->
  Js.last_char s = Some b -> Js.is_quote b = false ->
  strip_quotes s = s.
Proof.
  intros Hf Ha Hl Hb. destruct s as [|c s]; [discriminate|].
  injection Hf as ->. unfold strip_quotes. rewrite Ha.
  exact (drop_last_quote_keep _ b Hl Hb).
Qed.

Lemma match_value_keep (s : string) a :
  Js.first_char s = Some a -> Js.is_space a = false ->
  Js.all_chars Js.is_dot s = true -> match_value s = Some s.
Proof.
  intros Hf Ha Hdot. destruct s as [|c s]; [discriminate|]. injection Hf as ->.
  pose proof (take_while_all Js.is_dot _ Hdot) as Htw.
  simpl in Hdot. apply andb_true_iff in Hdot as [Hc _].
  unfold match_value; fold match_value. rewrite Ha, Hc, Htw. reflexivity.
Qed.

Lemma truthy_first (s : string) a : Js.first_char s = Some a -> Js.truthy s = true.
Proof. destruct s; [discriminate | reflexivity]. Qed.

Lemma nonempty_first (s : string) : s <> "" -> exists a, Js.first_char s = Some a.
Proof. destruct s as [|a s]; [congruence | exists a; reflexivity]. Qed.

Lemma nonempty_of_first (s : string) a : Js.first_char s = Some a -> s <> "".
Proof. destruct s; [discriminate | discriminate]. Qed.

(** An inline entry [  - name: X] inside the accounts section pushes [X]
    when [X] is portable. *)
Lemma inline_entry nm rest names :
  Portable nm ->
  parse_lines (("  - name: " ++ nm) :: rest) true names
  = parse_lines rest true (names ++ [nm]).
Proof.
  intros HP.
  destruct (portable_facts nm HP) as (a & b & Hf & Ha & Hqa & Hl & Hb & Hqb & Hdot & _).
  pose proof (nonempty_of_first nm a Hf) as Hne.
  assert (Htrim : Js.trim ("  - name: " ++ nm) = "- name: " ++ nm).
  { unfold Js.trim. change (Js.trimStart ("  - name: " ++ nm)) with ("- name: " ++ nm).
    apply (trimEnd_keep _ b); [rewrite last_char_app by exact Hne; exact Hl | exact Hb]. }
  assert (Hinline : match_inline_name ("- name: " ++ nm) = Some nm).
  { change (match_inline_name ("- name: " ++ nm))
      with (match match_value nm with
            | Some cap => Some cap
            | None => Some (Js.take_while Js.is_dot (String " " nm))
            end).
    rewrite (match_value_keep nm a Hf Ha Hdot). reflexivity. }
  cbn [parse_lines]. rewrite Htrim.
  change (is_accounts_key ("  - name: " ++ nm)) with false.
  change (starts_with_space ("  - name: " ++ nm)) with true.
  change (Js.truthy ("- name: " ++ nm)) with true.
  change (Js.startsWith "#" ("- name: " ++ nm)) with false.
  change (indent_of ("  - name: " ++ nm)) with 2.
  change (match_map_key ("  - name: " ++ nm)) with (@None string).
  change (Js.startsWith "-" ("- name: " ++ nm)) with true.
  cbn [negb andb orb Nat.eqb]. rewrite Hinline.
  rewrite (trim_keep nm a b Hf Ha Hl Hb), (strip_quotes_keep nm a b Hf Hqa Hl Hqb).
  rewrite (truthy_first nm a Hf). reflexivity.
Qed.

Lemma plain_facts nm :
  Plain nm ->
  exists a, Js.first_char nm = Some a /\ Js.is_name_char a = true /\
            Js.all_chars Js.is_name_char nm = true.
Proof.
  intros [Hne Hall]. destruct (nonempty_first nm Hne) as [a Ha].
  exists a. split; [exact Ha|]. split; [exact (all_chars_first _ nm a Hall Ha) | exact Hall].
Qed.

(** A mapping key [  X:] inside the accounts section pushes [X] when [X]
    is plain. *)
Lemma mapping_entry nm rest names :
  Plain nm ->
  parse_lines (("  " ++ nm ++ ":") :: rest) true names
  = parse_lines rest true (names ++ [nm]).
Proof.
  intros HP. destruct (plain_facts nm HP) as (a & Hf & Ha & Hall).
  destruct (name_char_facts a Ha) as (Hsp & _ & _ & _ & Hcolon & Hhash).
  assert (Hf' : Js.first_char (nm ++ ":") = Some a).
  { destruct nm; [discriminate | exact Hf]. }
  assert (Hseam : Js.take_while Js.is_name_char (nm ++ ":") = nm /\
                  Js.drop_while Js.is_name_char (nm ++ ":") = ":").
  { apply take_drop_seam; [exact Hall|]. intros c [= <-]. reflexivity. }
  destruct Hseam as [Htake Hdrop].
  assert (Hdropsp : Js.drop_while Js.is_space (nm ++ ":") = nm ++ ":").
  { apply drop_while_stop. intros c Hc. congruence. }
  assert (Htrim : Js.trim ("  " ++ nm ++ ":") = nm ++ ":").
  { unfold Js.trim, Js.trimStart.
    change (Js.drop_while Js.is_space ("  " ++ nm ++ ":"))
      with (Js.drop_while Js.is_space (nm ++ ":")).
    rewrite Hdropsp. apply (trimEnd_keep _ ":"%char); [|reflexivity].
    rewrite last_char_app by discriminate. reflexivity. }
  assert (Hindent : indent_of ("  " ++ nm ++ ":") = 2).
  { unfold indent_of.
    change (Js.take_while Js.is_space ("  " ++ nm ++ ":"))
      with (String " " (String " " (Js.take_while Js.is_space (nm ++ ":")))).
    destruct (take_drop_seam Js.is_space "" (nm ++ ":") eq_refl) as [Ht _].
    { intros c Hc. congruence. }
    change ("" ++ (nm ++ ":")) with (nm ++ ":") in Ht. rewrite Ht. reflexivity. }
  assert (Hkey : match_map_key ("  " ++ nm ++ ":") = Some nm).
  { change (match_map_key ("  " ++ nm ++ ":"))
      with (let key := Js.take_while Js.is_name_char (nm ++ ":") in
            let after := Js.drop_while Js.is_name_char (nm ++ ":") in
            if Js.truthy key && Js.startsWith ":" (Js.drop_while Js.is_space after)
            then Some key else None).
    cbv zeta. rewrite Htake, Hdrop, (truthy_first nm a Hf). reflexivity. }
  cbn [parse_lines]. rewrite Htrim, Hindent, Hkey.
  change (is_accounts_key ("  " ++ nm ++ ":")) with false.
  change (starts_with_space ("  " ++ nm ++ ":")) with true.
  rewrite (truthy_first _ a Hf').
  assert (Hnohash : Js.startsWith "#" (nm ++ ":") = false).
  { destruct nm as [|c nm]; [discriminate|]. injection Hf as ->.
    rewrite app_cons.
    change (Js.startsWith "#" (String a (nm ++ ":"))) with (Ascii.eqb "#" a && true).
    rewrite Ascii.eqb_sym, Hhash. reflexivity. }
  rewrite Hnohash. reflexivity.
Qed.

Lemma strip_prefix_app (p s r : string) : Js.strip_prefix p s = Some r -> s = p ++ r.
Proof.
  revert s. induction p as [|c p IH]; intros s H.
  - simpl in H. injection H as ->. reflexivity.
  - destruct s as [|c' s]; [discriminate|]. simpl in H.
    destruct (Ascii.eqb_spec c c') as [->|]; [|discriminate].
    rewrite (IH s H). reflexivity.
Qed.

(** The inline pattern does not take a plain name for [name: X]. *)
Lemma plain_is_not_inline nm : Plain nm -> match_inline_name ("- " ++ nm) = None.
Proof.
  intros HP. destruct (plain_facts nm HP) as (a & Hf & Ha & Hall).
  destruct (name_char_facts a Ha) as (Hsp & _).
  assert (Hdrop : Js.drop_while Js.is_space nm = nm).
  { apply drop_while_stop. intros c Hc. congruence. }
  change (match_inline_name ("- " ++ nm))
    with (match Js.strip_prefix "name" (Js.drop_while Js.is_space nm) with
          | Some r2 =>
              match Js.strip_prefix ":" (Js.drop_while Js.is_space r2) with
              | Some r3 => match_value r3
              | None => None
              end
          | None => None
          end).
  rewrite Hdrop. destruct (Js.strip_prefix "name" nm) as [r2|] eqn:E; [|reflexivity].
  apply strip_prefix_app in E. rewrite E, all_chars_app in Hall.
  apply andb_true_iff in Hall as [_ Hr2].
  destruct r2 as [|c r2]; [reflexivity|].
  simpl in Hr2. apply andb_true_iff in Hr2 as [Hc _].
  destruct (name_char_facts c Hc) as (Hcs & _ & _ & _ & Hcc & _).
  rewrite (drop_while_stop Js.is_space (String c r2)) by (intros c' [= <-]; exact Hcs).
  change (Js.strip_prefix ":" (String c r2))
    with (if Ascii.eqb ":" c then Some r2 else None).
  rewrite Ascii.eqb_sym, Hcc. reflexivity.
Qed.

(** A bare entry [  - X] inside the accounts section pushes [X] when [X]
    is plain. *)
Lemma bare_entry nm rest names :
  Plain nm ->
  parse_lines (("  - " ++ nm) :: rest) true names
  = parse_lines rest true (names ++ [nm]).
Proof.
  intros HP. pose proof (plain_is_portable nm HP) as HPo.
  destruct (portable_facts nm HPo) as (a & b & Hf & Ha & _ & Hl & Hb & _ & _ & _).
  destruct (plain_facts nm HP) as (a' & Hf' & Ha' & Hall).
  assert (a' = a) by congruence. subst a'.
  destruct (name_char_facts a Ha') as (_ & _ & _ & _ & Hcolon & _).
  pose proof (nonempty_of_first nm a Hf) as Hne.
  assert (Hdrop : Js.drop_while Js.is_space nm = nm).
  { apply drop_while_stop. intros c Hc. congruence. }
  assert (Htrim : Js.trim ("  - " ++ nm) = "- " ++ nm).
  { unfold Js.trim. change (Js.trimStart ("  - " ++ nm)) with ("- " ++ nm).
    apply (trimEnd_keep _ b); [rewrite last_char_app by exact Hne; exact Hl | exact Hb]. }
  assert (Hkey : match_map_key ("  - " ++ nm) = None).
  { change (match_map_key ("  - " ++ nm))
      with (if Js.startsWith ":" (Js.drop_while Js.is_space nm) then Some "-" else None).
    rewrite Hdrop. destruct nm as [|c nm]; [discriminate|]. injection Hf as ->.
    change (Js.startsWith ":" (String a nm)) with (Ascii.eqb ":" a && true).
    rewrite Ascii.eqb_sym, Hcolon. reflexivity. }
  assert (Hplain : match_plain ("- " ++ nm) = Some nm).
  { change (match_plain ("- " ++ nm))
      with (let r2 := Js.drop_while Js.is_space nm in
            let key := Js.take_while Js.is_name_char r2 in
            let after := Js.drop_while Js.is_name_char r2 in
            if Js.truthy key && Js.all_chars Js.is_space after then Some key else None).
    cbv zeta. rewrite Hdrop, (take_while_all _ nm Hall), (drop_while_all _ nm Hall).
    rewrite (truthy_first nm a Hf). reflexivity. }
  cbn [parse_lines]. rewrite Htrim, Hkey, (plain_is_not_inline nm HP), Hplain.
  change (is_accounts_key ("  - " ++ nm)) with false.
  change (starts_with_space ("  - " ++ nm)) with true.
  change (Js.truthy ("- " ++ nm)) with true.
  change (Js.startsWith "#" ("- " ++ nm)) with false.
  change (Js.startsWith "-" ("- " ++ nm)) with true.
  cbn [negb andb orb]. destruct (Nat.eqb _ _); reflexivity.
Qed.

(** *** Whole documents *)

Lemma portable_one_line nm : Portable nm -> Js.all_chars (Js.not_sep "010") nm = true.
Proof.
  intros HP. destruct (portable_facts nm HP) as (a & b & _ & _ & _ & _ & _ & _ & Hdot & _).
  eapply all_chars_impl; [|exact Hdot]. intros c Hc.
  unfold Js.is_dot in Hc. apply negb_true_iff, orb_false_iff in Hc as [Hc _].
  unfold Js.not_sep. apply negb_true_iff.
  destruct (Ascii.eqb_spec c "010"%char) as [->|]; [discriminate Hc | reflexivity].
Qed.

(** A document made of the [accounts:] key and one further line. *)
Lemma split_two_lines (line : string) :
  Js.all_chars (Js.not_sep "010") line = true ->
  Js.split "010" ("accounts:" ++ newline ++ line ++ newline) = ["accounts:"; line; ""].
Proof.
  intros Hline.
  change ("accounts:" ++ newline ++ line ++ newline)
    with ("accounts:" ++ String "010" (line ++ String "010" "")).
  rewrite split_at_sep by reflexivity. rewrite (split_at_sep _ line "" Hline).
  reflexivity.
Qed.

Lemma parse_one_entry (line nm : string) :
  Js.all_chars (Js.not_sep "010") line = true ->
  (forall rest names, parse_lines (line :: rest) true names
                      = parse_lines rest true (names ++ [nm])) ->
  parseYamlAccountNames ("accounts:" ++ newline ++ line ++ newline) = Some [nm].
Proof.
  intros Hline Hentry. unfold parseYamlAccountNames.
  rewrite (split_two_lines line Hline).
  change (parse_lines ["accounts:"; line; ""] false [])
    with (parse_lines [line; ""] true []).
  rewrite Hentry. reflexivity.
Qed.

Lemma list_doc_portable nm : Portable nm -> parseYamlAccountNames (list_doc nm) = Some [nm].
Proof.
  intros HP. unfold list_doc.
  replace ("accounts:" ++ newline ++ "  - name: " ++ nm ++ newline)
    with ("accounts:" ++ newline ++ ("  - name: " ++ nm) ++ newline)
    by (rewrite (app_assoc_str "  - name: "); reflexivity).
  apply parse_one_entry.
  - rewrite all_chars_app, (portable_one_line nm HP). reflexivity.
  - intros rest names. apply inline_entry. exact HP.
Qed.

Lemma mapping_doc_plain nm : Plain nm -> parseYamlAccountNames (mapping_doc nm) = Some [nm].
Proof.
  intros HP. unfold mapping_doc.
  replace ("accounts:" ++ newline ++ "  " ++ nm ++ ":" ++ newline)
    with ("accounts:" ++ newline ++ ("  " ++ nm ++ ":") ++ newline)
    by (rewrite (app_assoc_str "  "), (app_assoc_str nm); reflexivity).
  apply parse_one_entry.
  - rewrite !all_chars_app, (portable_one_line nm (plain_is_portable nm HP)). reflexivity.
  - intros rest names. apply mapping_entry. exact HP.
Qed.

Lemma bare_list_doc_plain nm : Plain nm -> parseYamlAccountNames (bare_list_doc nm) = Some [nm].
Proof.
  intros HP. unfold bare_list_doc.
  replace ("accounts:" ++ newline ++ "  - " ++ nm ++ newline)
    with ("accounts:" ++ newline ++ ("  - " ++ nm) ++ newline)
    by (rewrite (app_assoc_str "  - "); reflexivity).
  apply parse_one_entry.
  - rewrite all_chars_app, (portable_one_line nm (plain_is_portable nm HP)). reflexivity.
  - intros rest names. apply bare_entry. exact HP.
Qed.

(** What the mapping layout and the bare entries capture is plain. *)
Lemma map_key_is_plain line key : match_map_key line = Some key -> Plain key.
Proof.
  unfold match_map_key. destruct line as [|a [|b rest]]; try discriminate.
  destruct (Js.is_space a && Js.is_space b); [|discriminate].
  destruct (Js.truthy (Js.take_while Js.is_name_char rest)) eqn:Ht; [|discriminate].
  destruct (Js.startsWith _ _); [|discriminate].
  intros [= <-]. split; [|apply all_chars_take_while].
  destruct (Js.take_while Js.is_name_char rest); [discriminate | discriminate].
Qed.

Lemma bare_key_is_plain trimmed key : match_plain trimmed = Some key -> Plain key.
Proof.
  unfold match_plain. destruct (Js.strip_prefix "-" trimmed) as [r1|]; [|discriminate].
  destruct (starts_with_space r1); [|discriminate].
  destruct (Js.truthy (Js.take_while Js.is_name_char (Js.drop_while Js.is_space r1)))
    eqn:Ht; [|discriminate].
  destruct (Js.all_chars _ _); [|discriminate].
  intros [= <-]. split; [|apply all_chars_take_while].
  destruct (Js.take_while _ _); [discriminate | discriminate].
Qed.

(** *** Accounts built from names *)

Lemma buildAccounts_dirs pathJoin existsSync names ccsDir a :
  In a (buildAccounts pathJoin existsSync names ccsDir) ->
  In (name a) names /\
  configDir a = pathJoin [ccsDir; "instances"; sanitizeName (name a)] /\
  existsSync (configDir a) = true /\ rateLimitedUntil a = None.
Proof.
  induction names as [|nm names IH]; simpl; [intros []|].
  destruct (existsSync (instanceDir pathJoin ccsDir nm)) eqn:Hex.
  - intros [<- | Hin].
    + simpl. split; [left; reflexivity|]. split; [reflexivity|]. split; [exact Hex | reflexivity].
    + destruct (IH Hin) as (H1 & H2). split; [right; exact H1 | exact H2].
  - intros Hin. destruct (IH Hin) as (H1 & H2). split; [right; exact H1 | exact H2].
Qed.

(** C8, refuted as stated. The name [my account] has an embedded space.
    Listed in the explicit list or in an inline [- name: X] entry it is
    found and sanitized to [my-account]; written as a key of the mapping
    layout it is not found at all, so the three sources do not lead to
    the same identifier. *)
Lemma mapping_layout_loses_spaced_name :
  ~ (forall nm, Embedded nm ->
       identifiers (parseYamlAccountNames (mapping_doc nm)) = identifiers (loadFromEnv (Some nm)) /\
       identifiers (parseYamlAccountNames (list_doc nm)) = identifiers (loadFromEnv (Some nm))).
Proof.
  intros H. destruct (H "my account") as [Hmap _].
  - exists "my", " "%char, "account". repeat split; try discriminate. left. reflexivity.
  - vm_compute in Hmap. discriminate Hmap.
Qed.

(** C8, amended. Every account the pool admits has the credential
    directory [<root>/instances/<sanitizeName name>], whatever source
    its name came from, so a name found by two sources leads to the same
    directory. A portable name (no comma or line terminator, neither
    white space nor a quote at either end; spaces and punctuation inside
    are fine) is found unchanged by the explicit list and by an inline
    [- name: X] entry, and both lead to the same identifier. A plain name
    (characters of [[A-Za-z0-9_-]] only) is found by all the routes, the
    mapping layout and bare [- X] entries included, with the same
    identifier. The mapping layout and bare entries find plain names
    only. *)
Theorem discovery_sanitizes_uniformly
        (pathJoin : list string -> string) (existsSync : string -> bool) :
  (forall names ccsDir a,
     In a (buildAccounts pathJoin existsSync names ccsDir) ->
     In (name a) names /\
     configDir a = pathJoin [ccsDir; "instances"; sanitizeName (name a)]) /\
  (forall nm, Portable nm ->
     identifiers (loadFromEnv (Some nm)) = Some [sanitizeName nm] /\
     identifiers (parseYamlAccountNames (list_doc nm)) = Some [sanitizeName nm]) /\
  (forall nm, Plain nm ->
     identifiers (loadFromEnv (Some nm)) = Some [sanitizeName nm] /\
     identifiers (parseYamlAccountNames (mapping_doc nm)) = Some [sanitizeName nm] /\
     identifiers (parseYamlAccountNames (list_doc nm)) = Some [sanitizeName nm] /\
     identifiers (parseYamlAccountNames (bare_list_doc nm)) = Some [sanitizeName nm]) /\
  (forall line key, match_map_key line = Some key -> Plain key) /\
  (forall trimmed key, match_plain trimmed = Some key -> Plain key).
Proof.
  split; [|split; [|split; [|split]]].
  - intros names ccsDir a Hin.
    destruct (buildAccounts_dirs _ _ _ _ _ Hin) as (H1 & H2 & _). split; assumption.
  - intros nm HP. rewrite (loadFromEnv_portable nm HP), (list_doc_portable nm HP).
    split; reflexivity.
  - intros nm HP. pose proof (plain_is_portable nm HP) as HPo.
    rewrite (loadFromEnv_portable nm HPo), (list_doc_portable nm HPo),
      (mapping_doc_plain nm HP), (bare_list_doc_plain nm HP).
    repeat split; reflexivity.
  - exact map_key_is_plain.
  - exact bare_key_is_plain.
Qed.

(** The name [my account]: the explicit list and an inline entry find
    it and lead to [my-account]; the mapping layout and a bare entry do
    not find it. The mapping key [a:b] is found as [a]. *)
Example spaced_name_routes :
  sanitizeName "my account" = "my-account" /\
  loadFromEnv (Some "my account") = Some ["my account"] /\
  parseYamlAccountNames (list_doc "my account") = Some ["my account"] /\
  parseYamlAccountNames (mapping_doc "my account") = None /\
  parseYamlAccountNames (bare_list_doc "my account") = None /\
  parseYamlAccountNames (mapping_doc "a:b") = Some ["a"].
Proof. vm_compute. repeat split; reflexivity. Qed.

(** The portable name [My Account.2] and the plain name [team_a-1]
    through their routes. *)
Lemma discovery_sanitizes_uniformly_witness :
  Portable "My Account.2" /\ Plain "team_a-1" /\
  identifiers (loadFromEnv (Some "My Account.2")) = Some ["my-account-2"] /\
  identifiers (parseYamlAccountNames (list_doc "My Account.2")) = Some ["my-account-2"] /\
  identifiers (parseYamlAccountNames (mapping_doc "team_a-1")) = Some ["team_a-1"] /\
  identifiers (parseYamlAccountNames (bare_list_doc "team_a-1")) = Some ["team_a-1"].
Proof.
  assert (HP : Portable "My Account.2") by (repeat split; reflexivity).
  assert (HQ : Plain "team_a-1") by (split; [discriminate | reflexivity]).
  split; [exact HP|]. split; [exact HQ|].
  destruct (discovery_sanitizes_uniformly (fun parts => Js.join "/" parts) (fun _ => true))
    as (_ & Hportable & Hplain & _).
  destruct (Hportable _ HP) as [H1 H2].
  destruct (Hplain _ HQ) as (_ & H3 & _ & H4).
  split; [exact H1|]. split; [exact H2|]. split; [exact H3 | exact H4].
Defined.

End PoolFacts.

(** ** The session manager *)

Module SessionFacts.

Import CopilotSession JsFacts.

(** *** Kill *)

(** C9. After [kill()], whether or not destroying the backend session
    succeeded: the session handle is null, so [sessionId] is null and
    [isActive] false; [lastActivity], [conversationTitle] and
    [lastMessage] are null and the processing flag is false; [lastError],
    [lastErrorTime], [lastUsage], [lastTool], [currentTool],
    [currentModel], [stopRequested] and [interruptFlag] (and
    [queryStarted] and the client) are what they were; and the next send,
    given a backend that starts and creates a session, holds that newly
    created session and starts from a fresh closure. *)
Theorem kill_resets_transient_fields (destroyOk : bool) (m : Manager) :
  let m' := kill destroyOk m in
  (session m' = None /\ sessionId m' = None /\ isActive m' = false) /\
  (lastActivity m' = None /\ conversationTitle m' = None /\
   lastMessage m' = None /\ _isProcessing m' = false) /\
  (lastError m' = lastError m /\ lastErrorTime m' = lastErrorTime m /\
   lastUsage m' = lastUsage m /\ lastTool m' = lastTool m /\
   currentTool m' = currentTool m /\ currentModel m' = currentModel m /\
   stopRequested m' = stopRequested m /\ interruptFlag m' = interruptFlag m /\
   queryStarted m' = queryStarted m /\ client m' = client m) /\
  (forall (fresh : SdkSession) (now : Z),
     exists st, sendMessageStreaming true (Some fresh) now m' = inr st /\
                session (mgr st) = Some fresh /\ send st = freshSend).
Proof.
  intros m'. subst m'. unfold kill.
  destruct m as [cl ses la qs ct lt le lET lu lm ctitle cm sr ip ifl].
  destruct ses as [s|], destroyOk, cl; simpl;
    (split; [auto|]); (split; [auto|]); (split; [repeat split; reflexivity|]);
    intros fresh now; eexists; (split; [reflexivity|]); split; reflexivity.
Qed.

(** *** The latch *)

Section Latch.

Variable T : Z.
Variable cb : Update -> bool.

Lemma run_cons now sig rest st :
  run T cb ((now, sig) :: rest) st
  = (let (st1, out) := deliver T cb now sig st in
     let (st2, outs) := run T cb rest st1 in
     (st2, (map (pair now) out ++ outs)%list)).
Proof. reflexivity. Qed.

Lemma settle_pending s :
  settled s = false ->
  settle s = (true, mkSend (fullContent s) (receivedDelta s) (segment s) true false
                      (subAll s) (subIdle s) (subError s) (promise s)).
Proof. intros H. unfold settle. rewrite H. reflexivity. Qed.

Lemma settle_over s : settled s = true -> settle s = (false, s).
Proof. intros H. unfold settle. rewrite H. reflexivity. Qed.

(** Handlers called on a settled send leave everything as it is. *)
Lemma handlers_after_settlement now st :
  settled (send st) = true ->
  onTimeout st = (st, []) /\ onIdle cb now st = (st, []) /\
  (forall message, onError now message st = (st, [])) /\
  (forall err, onSendFailed err st = (st, [])).
Proof.
  intros H. unfold onTimeout, onIdle, onError, onSendFailed.
  rewrite (settle_over _ H). repeat split; reflexivity.
Qed.

(** Once a send is over, a signal changes nothing and calls nothing. *)
Lemma deliver_over now sig st :
  Over (send st) -> deliver T cb now sig st = (st, []).
Proof.
  intros (Hs & Ht & Ha & Hi & He).
  destruct sig as [ev| |err]; simpl.
  - rewrite Ha. destruct ev; simpl; rewrite ?Hi, ?He; reflexivity.
  - rewrite Ht. reflexivity.
  - apply (handlers_after_settlement now st Hs).
Qed.

Lemma run_over sigs st : Over (send st) -> run T cb sigs st = (st, []).
Proof.
  intros H. induction sigs as [|[now sig] rest IH]; [reflexivity|].
  rewrite run_cons, (deliver_over now sig st H), IH. reflexivity.
Qed.

(** The catch-all listener never touches the latch, the timer, the
    subscriptions or the promise. *)
Lemma handleEvent_frame now ev st :
  let s' := send (handleEvent T now ev st).1 in
  settled s' = settled (send st) /\ timeoutTimer s' = timeoutTimer (send st) /\
  subAll s' = subAll (send st) /\ subIdle s' = subIdle (send st) /\
  subError s' = subError (send st) /\ promise s' = promise (send st).
Proof.
  destruct st as [m s]. unfold handleEvent. simpl.
  destruct ev; simpl;
    repeat match goal with |- context [if ?b then _ else _] => destruct b end;
    simpl; repeat split; reflexivity.
Qed.

Lemma handleEvent_pending now ev st :
  Pending (send st) -> Pending (send (handleEvent T now ev st).1).
Proof.
  intros (Hs & Ht & Ha & Hi & He).
  destruct (handleEvent_frame now ev st) as (Es & Et & Ea & Ei & Ee & _).
  unfold Pending. rewrite Es, Et, Ea, Ei, Ee. auto.
Qed.

Lemma deliver_idle_pending now st :
  Pending (send st) ->
  deliver T cb now (SigEvent session_idle) st = onIdle cb now st.
Proof.
  intros (Hs & Ht & Ha & Hi & He). simpl. rewrite Ha. simpl. rewrite Hi.
  destruct (onIdle cb now st). reflexivity.
Qed.

Lemma deliver_error_pending now message st :
  Pending (send st) ->
  deliver T cb now (SigEvent (session_error message)) st = onError now message st.
Proof.
  intros (Hs & Ht & Ha & Hi & He). simpl. rewrite Ha. simpl. rewrite He.
  destruct (onError now message st). reflexivity.
Qed.

Lemma deliver_timeout_pending now st :
  Pending (send st) -> deliver T cb now SigTimeout st = onTimeout st.
Proof. intros (Hs & Ht & Ha & Hi & He). simpl. rewrite Ht. reflexivity. Qed.

(** A signal that is not terminal keeps the send in flight and its
    promise untouched. *)
Lemma deliver_nonterminal now sig st :
  is_terminal sig = false -> Pending (send st) ->
  Pending (send (deliver T cb now sig st).1) /\
  promise (send (deliver T cb now sig st).1) = promise (send st).
Proof.
  intros Hsig HP. pose proof HP as (Hs & Ht & Ha & Hi & He).
  destruct sig as [ev| |err]; try discriminate. simpl. rewrite Ha.
  pose proof (handleEvent_pending now ev st HP) as HP1.
  pose proof (handleEvent_frame now ev st) as (_ & _ & _ & _ & _ & Ep).
  destruct (handleEvent T now ev st) as [st1 out1]. simpl in *.
  destruct ev; try discriminate; simpl; split; assumption.
Qed.

(** What a terminal signal does to a send in flight: the send is over,
    and the promise was told at most one thing more. *)
Lemma deliver_terminal now sig st :
  is_terminal sig = true -> Pending (send st) ->
  Over (send (deliver T cb now sig st).1) /\
  (promise (send (deliver T cb now sig st).1) = promise (send st) \/
   exists o, promise (send (deliver T cb now sig st).1) = (promise (send st) ++ [o])%list).
Proof.
  intros Hsig HP. pose proof HP as (Hs & _).
  destruct sig as [ev| |err].
  - destruct ev; try discriminate.
    + rewrite (deliver_idle_pending now st HP). unfold onIdle.
      rewrite (settle_pending _ Hs). cbv zeta.
      repeat match goal with |- context [if ?b then _ else _] => destruct b end;
        (split; [repeat split; reflexivity|]);
        first [left; reflexivity | right; eexists; reflexivity].
    + rewrite (deliver_error_pending now message st HP). unfold onError.
      rewrite (settle_pending _ Hs). cbv zeta.
      split; [repeat split; reflexivity | right; eexists; reflexivity].
  - rewrite (deliver_timeout_pending now st HP). unfold onTimeout.
    rewrite (settle_pending _ Hs).
    split; [repeat split; reflexivity | right; eexists; reflexivity].
  - simpl. unfold onSendFailed. rewrite (settle_pending _ Hs).
    split; [repeat split; reflexivity | right; eexists; reflexivity].
Qed.

Lemma deliver_coherent now sig st :
  Coherent (send st) -> Coherent (send (deliver T cb now sig st).1).
Proof.
  intros [[HP Hpr] | [HO Hlen]].
  2:{ rewrite (deliver_over now sig st HO). right. split; assumption. }
  destruct (is_terminal sig) eqn:Hsig.
  - destruct (deliver_terminal now sig st Hsig HP) as [HO [Hp | [o Hp]]];
      right; (split; [exact HO|]); rewrite Hp, ?length_app, Hpr; simpl; lia.
  - destruct (deliver_nonterminal now sig st Hsig HP) as [HP' Hp].
    left. split; [exact HP' | congruence].
Qed.

Lemma run_coherent sigs : forall st,
  Coherent (send st) -> Coherent (send (run T cb sigs st).1).
Proof.
  induction sigs as [|[now sig] rest IH]; intros st H; [exact H|].
  rewrite run_cons. pose proof (deliver_coherent now sig st H) as H1.
  destruct (deliver T cb now sig st) as [st1 out]. simpl in H1.
  specialize (IH st1 H1). destruct (run T cb rest st1) as [st2 outs]. exact IH.
Qed.

Lemma beginSend_coherent now m : Coherent (send (beginSend now m)).
Proof. left. split; [repeat split; reflexivity | reflexivity]. Qed.

(** At most one outcome. From the start of a send, however many signals
    arrive and whatever the status callback's promises do, [resolve] and
    [reject] are called at most once in all. *)
Theorem promise_settled_at_most_once sigs now m :
  length (promise (send (run T cb sigs (beginSend now m)).1)) <= 1.
Proof.
  destruct (run_coherent sigs _ (beginSend_coherent now m)) as [[_ ->] | [_ H]];
    [simpl; lia | exact H].
Qed.

(** The first terminal signal settles the send for good: the state it
    leaves and the updates it causes are all there will ever be. *)
Lemma run_terminal now sig later st :
  Pending (send st) -> is_terminal sig = true ->
  run T cb ((now, sig) :: later) st
  = ((deliver T cb now sig st).1, map (pair now) (deliver T cb now sig st).2).
Proof.
  intros HP Hsig. rewrite run_cons.
  destruct (deliver_terminal now sig st Hsig HP) as [HO _].
  destruct (deliver T cb now sig st) as [st1 out]. simpl in HO.
  rewrite (run_over later st1 HO). simpl. rewrite app_nil_r. reflexivity.
Qed.

(** When the status callback's promise rejects while the idle listener
    awaits it, the latch is set and [resolve] is never reached: whatever
    arrives later, the promise stays pending. *)
Lemma idle_with_rejected_callback_never_settles now later st :
  Pending (send st) -> promise (send st) = [] ->
  cb (mkUpdate done "" None) = false ->
  let after := (run T cb ((now, SigEvent session_idle) :: later) st).1 in
  settled (send after) = true /\ timeoutTimer (send after) = false /\
  promise (send after) = [].
Proof.
  intros HP Hpr Hrej after. subst after.
  rewrite (run_terminal now (SigEvent session_idle) later st HP eq_refl).
  rewrite (deliver_idle_pending now st HP). pose proof HP as (Hs & _).
  unfold onIdle. rewrite (settle_pending _ Hs). cbv zeta. rewrite Hrej.
  repeat match goal with |- context [if ?b then _ else _] => destruct b end;
    (split; [reflexivity|]); (split; [reflexivity | exact Hpr]).
Qed.

Lemma run_app sigs1 sigs2 : forall st,
  run T cb (sigs1 ++ sigs2) st
  = (let (st1, out1) := run T cb sigs1 st in
     let (st2, out2) := run T cb sigs2 st1 in
     (st2, (out1 ++ out2)%list)).
Proof.
  induction sigs1 as [|[now sig] rest IH]; intros st.
  - simpl. destruct (run T cb sigs2 st). reflexivity.
  - rewrite <- app_comm_cons, !run_cons. destruct (deliver T cb now sig st) as [st1 out].
    rewrite IH. destruct (run T cb rest st1) as [st2 out1].
    destruct (run T cb sigs2 st2) as [st3 out2]. rewrite app_assoc. reflexivity.
Qed.

(** Signals that are not terminal keep the send in flight. *)
Lemma run_nonterminal sigs : forall st,
  Forall (fun s => is_terminal s.2 = false) sigs -> Pending (send st) ->
  Pending (send (run T cb sigs st).1) /\
  promise (send (run T cb sigs st).1) = promise (send st).
Proof.
  induction sigs as [|[now sig] rest IH]; intros st Hall HP; [split; [exact HP | reflexivity]|].
  apply Forall_cons in Hall as [Hsig Hrest]. simpl in Hsig.
  rewrite run_cons. destruct (deliver_nonterminal now sig st Hsig HP) as [HP1 Hp1].
  destruct (deliver T cb now sig st) as [st1 out]. simpl in HP1, Hp1.
  destruct (IH st1 Hrest HP1) as [HP2 Hp2].
  destruct (run T cb rest st1) as [st2 outs]. simpl in *. split; [exact HP2 | congruence].
Qed.

(** With a status callback whose promises fulfil, a terminal signal tells
    the promise of a send in flight exactly one thing, of its own kind. *)
Lemma deliver_terminal_accepted now sig st :
  is_terminal sig = true -> Pending (send st) -> (forall u, cb u = true) ->
  exists o, promise (send (deliver T cb now sig st).1) = (promise (send st) ++ [o])%list /\
            settles sig o.
Proof.
  intros Hsig HP Hcb. pose proof HP as (Hs & _).
  destruct sig as [ev| |err].
  - destruct ev; try discriminate.
    + rewrite (deliver_idle_pending now st HP). unfold onIdle.
      rewrite (settle_pending _ Hs). cbv zeta. rewrite !Hcb.
      destruct (Js.truthy (seg_text _)); eexists; (split; [reflexivity|]);
        eexists; reflexivity.
    + rewrite (deliver_error_pending now message st HP). unfold onError.
      rewrite (settle_pending _ Hs). cbv zeta.
      eexists. split; [reflexivity|]. simpl. apply f_equal, truthy_decide.
  - rewrite (deliver_timeout_pending now st HP). unfold onTimeout.
    rewrite (settle_pending _ Hs). eexists. split; reflexivity.
  - simpl. unfold onSendFailed. rewrite (settle_pending _ Hs).
    eexists. split; reflexivity.
Qed.

(** Exactly one outcome. On a send in flight whose promise is untouched,
    with a status callback whose promises fulfil: when the signals that
    arrive are some that are not terminal, then a terminal one, then any
    others, the promise is told exactly one thing, and it is the outcome
    of that first terminal signal. *)
Theorem exactly_one_outcome pre now sig later st :
  Pending (send st) -> promise (send st) = [] ->
  Forall (fun s => is_terminal s.2 = false) pre ->
  is_terminal sig = true ->
  (forall u, cb u = true) ->
  exists o, promise (send (run T cb (pre ++ (now, sig) :: later) st).1) = [o] /\
            settles sig o.
Proof.
  intros HP Hpr Hpre Hsig Hcb. rewrite run_app.
  destruct (run_nonterminal pre st Hpre HP) as [HP1 Hp1].
  destruct (run T cb pre st) as [st1 out1]. simpl in HP1, Hp1.
  rewrite (run_terminal now sig later st1 HP1 Hsig).
  destruct (deliver_terminal_accepted now sig st1 Hsig HP1 Hcb) as (o & Ho & Hkind).
  exists o. split; [|exact Hkind]. simpl. rewrite Ho, Hp1, Hpr. reflexivity.
Qed.

(** Nothing after the first terminal signal has an effect: the final
    state (promise, session fields, segment) and the updates handed to
    the status callback are those of the run cut after that signal. *)
Theorem later_signals_have_no_effect pre now sig later st :
  Pending (send st) ->
  Forall (fun s => is_terminal s.2 = false) pre ->
  is_terminal sig = true ->
  run T cb (pre ++ (now, sig) :: later) st = run T cb (pre ++ [(now, sig)]) st.
Proof.
  intros HP Hpre Hsig. rewrite !run_app.
  destruct (run_nonterminal pre st Hpre HP) as [HP1 _].
  destruct (run T cb pre st) as [st1 out1]. simpl in HP1.
  rewrite (run_terminal now sig later st1 HP1 Hsig),
    (run_terminal now sig [] st1 HP1 Hsig). reflexivity.
Qed.

End Latch.

(** *** Settlement *)

Section Settlement.

Variable T : Z.
Variable cb : Update -> bool.



(** The timeout and the submission failure leave the recorded error
    alone. *)
Lemma timeout_and_send_failure_record_nothing now st :
  Pending (send st) ->
  lastError (mgr (deliver T cb now SigTimeout st).1) = lastError (mgr st) /\
  lastErrorTime (mgr (deliver T cb now SigTimeout st).1) = lastErrorTime (mgr st) /\
  forall err,
    lastError (mgr (deliver T cb now (SigSendFailed err) st).1) = lastError (mgr st) /\
    lastErrorTime (mgr (deliver T cb now (SigSendFailed err) st).1)
    = lastErrorTime (mgr st).
Proof.
  intros HP. pose proof HP as (Hs & _).
  rewrite (deliver_timeout_pending T cb now st HP). unfold onTimeout.
  rewrite (settle_pending _ Hs). simpl. repeat split.
  all: unfold onSendFailed; rewrite (settle_pending _ Hs); reflexivity.
Qed.

End Settlement.

Lemma demoStart_pending : Pending (send demoStart).
Proof. repeat split; reflexivity. Qed.

(** The worked send, cut short by an error event that the timer and the
    idle event follow: the call is rejected once, with the error. *)
Lemma exactly_one_outcome_witness :
  let pre := delta_signals demoDeltas in
  let later := [(2000%Z, SigEvent session_idle); (300000%Z, SigTimeout)] in
  Pending (send demoStart) /\
  promise (send (run 500 acceptAll
                   (pre ++ (1500%Z, SigEvent (session_error "boom")) :: later)
                   demoStart).1) = [Rejected "boom"].
Proof.
  intros pre later. split; [exact demoStart_pending|].
  destruct (exactly_one_outcome 500 acceptAll pre 1500 (SigEvent (session_error "boom"))
              later demoStart demoStart_pending eq_refl)
    as (o & Ho & Hkind).
  - repeat constructor.
  - reflexivity.
  - intros u. reflexivity.
  - rewrite Ho. simpl in Hkind. rewrite Hkind. reflexivity.
Defined.

(** The same send: what follows the error event changes nothing. *)
Lemma later_signals_have_no_effect_witness :
  let pre := delta_signals demoDeltas in
  let later := [(2000%Z, SigEvent session_idle); (300000%Z, SigTimeout)] in
  Pending (send demoStart) /\
  run 500 acceptAll (pre ++ (1500%Z, SigEvent (session_error "boom")) :: later) demoStart
  = run 500 acceptAll (pre ++ [(1500%Z, SigEvent (session_error "boom"))]) demoStart.
Proof.
  intros pre later. split; [exact demoStart_pending|].
  apply (later_signals_have_no_effect 500 acceptAll pre 1500
           (SigEvent (session_error "boom")) later demoStart demoStart_pending).
  - repeat constructor.
  - reflexivity.
Defined.





(** C2, at a failing input. A send streams [Hello]; the idle event
    arrives first and wins the latch, and the promise the status callback
    returns for the flushed segment rejects. The listener ends there:
    the latch is set, the timer is cleared, the listeners are gone, and
    neither [resolve] nor [reject] is ever called, whatever arrives
    afterwards. None of the four outcomes occurs. *)
Theorem rejected_callback_leaves_promise_pending :
  let trace := [(1000, SigEvent (assistant_message_delta "Hello"));
                (2000, SigEvent session_idle);
                (3000, SigEvent (session_error "late"));
                (4000, SigSendFailed "late");
                (300000, SigTimeout)]%Z in
  let after := run 500 rejectAll trace (beginSend 0 newManager) in
  settled (send after.1) = true /\
  timeoutTimer (send after.1) = false /\
  promise (send after.1) = [] /\
  after.2 = [(2000%Z, mkUpdate segment_end "Hello" (Some 0))].
Proof. vm_compute. repeat split; reflexivity. Qed.

(** *** Segments and throttling *)

Section Segments.

Variable T : Z.
Variable cb : Update -> bool.

(** One text delta: the buffers grow, and a text update goes out exactly
    when both conditions of the throttle hold. *)
Lemma delta_step now d st :
  let st' := (handleEvent T now (assistant_message_delta d) st).1 in
  let out := (handleEvent T now (assistant_message_delta d) st).2 in
  let seg := segment (send st) in
  let txt := seg_text seg ++ d in
  fullContent (send st') = fullContent (send st) ++ d /\
  seg_text (segment (send st')) = txt /\
  seg_id (segment (send st')) = seg_id seg /\
  subAll (send st') = subAll (send st) /\
  ((out = [mkUpdate text txt (Some (seg_id seg))] /\
    (now - seg_lastUpdate seg > T)%Z /\ 20 < String.length txt /\
    seg_lastUpdate (segment (send st')) = now)
   \/
   (out = [] /\
    ~ ((now - seg_lastUpdate seg > T)%Z /\ 20 < String.length txt) /\
    seg_lastUpdate (segment (send st')) = seg_lastUpdate seg)).
Proof.
  unfold handleEvent.
  destruct (Z.gtb_spec (now - seg_lastUpdate (segment (send st))) T) as [Ht|Ht];
    destruct (Nat.ltb_spec 20 (String.length (seg_text (segment (send st)) ++ d)))
      as [Hl|Hl];
    simpl; repeat (split; [reflexivity|]).
  - left. repeat split; [lia | exact Hl].
  - right. repeat split. intros [_ H]. lia.
  - right. repeat split. intros [H _]. lia.
  - right. repeat split. intros [_ H]. lia.
Qed.

Lemma deliver_delta now d st :
  subAll (send st) = true ->
  deliver T cb now (SigEvent (assistant_message_delta d)) st
  = handleEvent T now (assistant_message_delta d) st.
Proof.
  intros Ha. unfold deliver. rewrite Ha.
  destruct (handleEvent T now (assistant_message_delta d) st) as [st1 out1].
  rewrite app_nil_r. reflexivity.
Qed.

(** A run of text deltas: the segment id stays, only text updates of that
    segment go out, each passes the length test, and their clock
    readings are spaced by more than the interval, starting from the
    last emission before the run. *)
Lemma run_deltas deltas : forall st,
  subAll (send st) = true ->
  let st' := (run T cb (delta_signals deltas) st).1 in
  let out := (run T cb (delta_signals deltas) st).2 in
  seg_id (segment (send st')) = seg_id (segment (send st)) /\
  subAll (send st') = true /\
  seg_text (segment (send st'))
  = seg_text (segment (send st)) ++ String.concat "" (map Datatypes.snd deltas) /\
  spaced T (seg_lastUpdate (segment (send st))) (map fst out) /\
  Forall (fun tu => utype tu.2 = text /\
                    segmentId tu.2 = Some (seg_id (segment (send st))) /\
                    20 < String.length (content tu.2)) out.
Proof.
  induction deltas as [|[now d] rest IH]; intros st Ha.
  - simpl. split; [reflexivity|]. split; [exact Ha|].
    split; [symmetry; apply app_empty_r|]. split; [exact I | constructor].
  - unfold delta_signals. rewrite map_cons. fold (delta_signals rest).
    cbn [fst Datatypes.snd]. rewrite run_cons, (deliver_delta now d st Ha).
    pose proof (delta_step now d st) as (Hfc & Htxt & Hid & Hsub & Hout).
    destruct (handleEvent T now (assistant_message_delta d) st) as [st1 out1].
    cbn [fst Datatypes.snd] in *.
    assert (Ha1 : subAll (send st1) = true) by congruence.
    specialize (IH st1 Ha1). cbv zeta in IH.
    destruct (run T cb (delta_signals rest) st1) as [st2 outs].
    cbn [fst Datatypes.snd] in *.
    destruct IH as (IHid & IHsub & IHtxt & IHsp & IHall).
    split; [congruence|]. split; [exact IHsub|]. split.
    { rewrite IHtxt, Htxt, map_cons, concat_empty_cons. apply app_assoc_str. }
    destruct Hout as [(-> & Ht & Hl & Hlu) | (-> & _ & Hlu)]; simpl.
    + split; [split; [exact Ht | rewrite <- Hlu; exact IHsp]|].
      constructor; [simpl; auto|]. rewrite <- Hid. exact IHall.
    + split; [rewrite <- Hlu; exact IHsp|]. rewrite <- Hid. exact IHall.
Qed.

Lemma spaced_from last ts :
  (0 <= T)%Z -> spaced T last ts -> Forall (fun t => (t - last > T)%Z) ts.
Proof.
  intros HT. revert last. induction ts as [|t rest IH]; intros last Hsp.
  - constructor.
  - destruct Hsp as [Ht Hrest]. constructor; [exact Ht|].
    specialize (IH t Hrest). eapply Forall_impl; [exact IH|].
    intros t' Ht'. simpl in Ht'. lia.
Qed.

Lemma spaced_pairwise last ts :
  (0 <= T)%Z -> spaced T last ts ->
  forall i j ti tj, i < j -> ts !! i = Some ti -> ts !! j = Some tj -> (tj - ti > T)%Z.
Proof.
  intros HT. revert last. induction ts as [|t rest IH]; intros last Hsp i j ti tj Hij Hi Hj.
  - discriminate.
  - destruct Hsp as [_ Hrest]. destruct j as [|j]; [lia|]. simpl in Hj.
    destruct i as [|i].
    + simpl in Hi. injection Hi as <-.
      pose proof (spaced_from t rest HT Hrest) as Hall.
      rewrite Forall_lookup in Hall. exact (Hall j tj Hj).
    + simpl in Hi. apply (IH t Hrest i j ti tj); [lia | assumption | assumption].
Qed.

(** Updates of a segment carry the id the segment has when they go out,
    and the id never decreases. *)
Lemma handleEvent_ids now ev st :
  seg_id (segment (send st)) <= seg_id (segment (send (handleEvent T now ev st).1)) /\
  ids_from (seg_id (segment (send st))) (handleEvent T now ev st).2.
Proof.
  unfold handleEvent, ids_from.
  destruct ev; simpl;
    repeat match goal with |- context [if ?b then _ else _] => destruct b end;
    simpl; (split; [lia|]);
    repeat constructor; simpl; try discriminate; intros _; eexists; split; eauto.
Qed.

Lemma onIdle_ids now st :
  seg_id (segment (send (onIdle cb now st).1)) = seg_id (segment (send st)) /\
  ids_from (seg_id (segment (send st))) (onIdle cb now st).2.
Proof.
  unfold onIdle, settle, ids_from.
  destruct (settled (send st)); simpl; [split; [reflexivity | constructor]|].
  repeat match goal with |- context [if ?b then _ else _] => destruct b end;
    simpl; (split; [reflexivity|]);
    repeat constructor; simpl; try discriminate; intros _; eexists; split; eauto.
Qed.

Lemma settlers_ids now st :
  (seg_id (segment (send (onTimeout st).1)) = seg_id (segment (send st)) /\
   (onTimeout st).2 = []) /\
  (forall message,
     seg_id (segment (send (onError now message st).1)) = seg_id (segment (send st)) /\
     (onError now message st).2 = []) /\
  (forall err,
     seg_id (segment (send (onSendFailed err st).1)) = seg_id (segment (send st)) /\
     (onSendFailed err st).2 = []).
Proof.
  unfold onTimeout, onError, onSendFailed, settle.
  destruct (settled (send st)); simpl; repeat split; reflexivity.
Qed.

Lemma ids_from_weaken k k' out : k <= k' -> ids_from k' out -> ids_from k out.
Proof.
  intros Hk H. unfold ids_from in *. eapply Forall_impl; [exact H|]. intros u Hu Hseg.
  destruct (Hu Hseg) as (j & Hj & Hle). exists j. split; [exact Hj | lia].
Qed.

Lemma deliver_ids now sig st :
  seg_id (segment (send st)) <= seg_id (segment (send (deliver T cb now sig st).1)) /\
  ids_from (seg_id (segment (send st))) (deliver T cb now sig st).2.
Proof.
  destruct sig as [ev| |err].
  - unfold deliver.
    assert (H1 : seg_id (segment (send st))
                 <= seg_id (segment (send (if subAll (send st) then handleEvent T now ev st
                                           else (st, [])).1)) /\
                 ids_from (seg_id (segment (send st)))
                   (if subAll (send st) then handleEvent T now ev st else (st, [])).2).
    { destruct (subAll (send st)); [apply handleEvent_ids|].
      simpl. split; [lia | constructor]. }
    destruct (if subAll (send st) then handleEvent T now ev st else (st, []))
      as [st1 out1]. simpl in H1. destruct H1 as [Hle1 Hids1].
    assert (H2 : forall r : State * list Update,
              seg_id (segment (send r.1)) = seg_id (segment (send st1)) ->
              ids_from (seg_id (segment (send st1))) r.2 ->
              seg_id (segment (send st)) <= seg_id (segment (send (let (st2, out2) := r in (st2, (out1 ++ out2)%list)).1)) /\
              ids_from (seg_id (segment (send st))) (let (st2, out2) := r in (st2, (out1 ++ out2)%list)).2).
    { intros [st2 out2] Heq Hids. simpl in *. split; [lia|].
      apply Forall_app. split; [exact Hids1|].
      eapply ids_from_weaken; [exact Hle1 | exact Hids]. }
    destruct ev; try (apply (H2 (st1, [])); simpl; [reflexivity | constructor]).
    + destruct (subIdle (send st1)).
      * apply (H2 (onIdle cb now st1)); apply onIdle_ids.
      * apply (H2 (st1, [])); simpl; [reflexivity | constructor].
    + destruct (subError (send st1)).
      * destruct (settlers_ids now st1) as (_ & He & _). destruct (He message) as [E1 E2].
        apply (H2 (onError now message st1)); [exact E1 | rewrite E2; constructor].
      * apply (H2 (st1, [])); simpl; [reflexivity | constructor].
  - simpl. destruct (timeoutTimer (send st)).
    + destruct (settlers_ids now st) as ((E1 & E2) & _). rewrite E1, E2.
      split; [lia | constructor].
    + simpl. split; [lia | constructor].
  - simpl. destruct (settlers_ids now st) as (_ & _ & He). destruct (He err) as [E1 E2].
    rewrite E1, E2. split; [lia | constructor].
Qed.

Lemma run_ids sigs : forall st,
  seg_id (segment (send st)) <= seg_id (segment (send (run T cb sigs st).1)) /\
  ids_from (seg_id (segment (send st))) (map Datatypes.snd (run T cb sigs st).2).
Proof.
  induction sigs as [|[now sig] rest IH]; intros st.
  - simpl. split; [lia | constructor].
  - rewrite run_cons. pose proof (deliver_ids now sig st) as [Hle Hids].
    destruct (deliver T cb now sig st) as [st1 out]. simpl in Hle, Hids.
    specialize (IH st1). destruct (run T cb rest st1) as [st2 outs].
    simpl in IH. destruct IH as [Hle2 Hids2]. simpl. split; [lia|].
    rewrite map_app. apply Forall_app. split.
    + rewrite map_map. simpl. rewrite map_id. exact Hids.
    + eapply ids_from_weaken; [exact Hle | exact Hids2].
Qed.

Lemma closings_app k (l1 l2 : list Update) :
  closings k (l1 ++ l2) = closings k l1 + closings k l2.
Proof. unfold closings. rewrite List.filter_app, length_app. reflexivity. Qed.

Lemma closings_none k (l : list Update) :
  Forall (fun u => closes k u = false) l -> closings k l = 0.
Proof.
  unfold closings. induction 1 as [|u l Hu _ IH]; simpl; [reflexivity|].
  rewrite Hu. exact IH.
Qed.

Lemma closes_text k u : utype u = text -> closes k u = false.
Proof. intros H. unfold closes. rewrite H. reflexivity. Qed.

Lemma closes_later k k0 u :
  k < k0 -> (of_segment u = true -> exists k', segmentId u = Some k' /\ k0 <= k') ->
  closes k u = false.
Proof.
  intros Hk Hu. unfold closes.
  destruct (bool_decide (utype u = segment_end)) eqn:Hty; [|reflexivity].
  apply bool_decide_eq_true in Hty. simpl.
  destruct Hu as (k' & Hid & Hle).
  { unfold of_segment. rewrite Hty. reflexivity. }
  apply bool_decide_eq_false. rewrite Hid. intros [= ->]. lia.
Qed.

Lemma deliver_tool_start now toolName st :
  subAll (send st) = true ->
  deliver T cb now (SigEvent (tool_execution_start toolName)) st
  = handleEvent T now (tool_execution_start toolName) st.
Proof.
  intros Ha. unfold deliver. rewrite Ha.
  destruct (handleEvent T now (tool_execution_start toolName) st) as [st1 out1].
  rewrite app_nil_r. reflexivity.
Qed.

(** C3. For any text deltas followed by a tool-invocation start, on a
    send whose catch-all listener is subscribed. If the segment holds
    text when the tool starts, the tool start emits one segment_end
    update with that text and the current segment id [k] (followed by
    the tool update), and leaves the segment with id [k+1], an empty
    buffer and the throttle clock at 0; in the whole log (the deltas',
    the tool start's, and whatever any later signals cause) exactly one
    update closes segment [k]; and every later text or segment_end
    update carries an id greater than [k]. If the segment holds no text,
    the tool start emits the tool update alone and leaves the segment,
    its id included, as it was. *)
Theorem tool_start_closes_segment (st : State) (deltas : list (Z * string))
        (now : Z) (toolName : string) (later : list (Z * Signal)) :
  subAll (send st) = true ->
  let r1 := run T cb (delta_signals deltas) st in
  let r2 := deliver T cb now (SigEvent (tool_execution_start toolName)) r1.1 in
  let r3 := run T cb later r2.1 in
  let seg := segment (send r1.1) in
  let k := seg_id seg in
  let toolUpdate := mkUpdate tool ("⚙️ " ++ toolName) None in
  (seg_text seg <> "" ->
     r2.2 = [mkUpdate segment_end (seg_text seg) (Some k); toolUpdate] /\
     segment (send r2.1) = mkSegment "" (S k) 0 /\
     closings k (map Datatypes.snd r1.2 ++ r2.2 ++ map Datatypes.snd r3.2) = 1 /\
     (forall t u, In (t, u) r3.2 -> of_segment u = true ->
        exists k', segmentId u = Some k' /\ k < k')) /\
  (seg_text seg = "" ->
     r2.2 = [toolUpdate] /\ segment (send r2.1) = seg).
Proof.
  intros Ha r1 r2 r3 seg k toolUpdate.
  pose proof (run_deltas deltas st Ha) as (Hid & Ha1 & _ & _ & Hall).
  fold r1 in Hid, Ha1, Hall.
  assert (Hr2 : r2 = handleEvent T now (tool_execution_start toolName) r1.1).
  { apply deliver_tool_start. exact Ha1. }
  split.
  - intros Hne. apply truthy_true in Hne.
    assert (E2 : r2.2 = [mkUpdate segment_end (seg_text seg) (Some k); toolUpdate] /\
                 segment (send r2.1) = mkSegment "" (S k) 0).
    { rewrite Hr2. unfold handleEvent. fold seg. rewrite Hne. split; reflexivity. }
    destruct E2 as [Eout Eseg]. split; [exact Eout|]. split; [exact Eseg|].
    pose proof (run_ids later r2.1) as [_ Hids]. fold r3 in Hids.
    rewrite Eseg in Hids. simpl in Hids.
    split.
    + rewrite !closings_app, Eout.
      rewrite (closings_none k (map Datatypes.snd r1.2)).
      2:{ apply Forall_fmap. eapply Forall_impl; [exact Hall|].
          intros [t u] (Hty & _). simpl. apply closes_text. exact Hty. }
      rewrite (closings_none k (map Datatypes.snd r3.2)).
      2:{ eapply Forall_impl; [exact Hids|]. intros u Hu.
          apply (closes_later k (S k)); [lia | exact Hu]. }
      unfold closings, closes. simpl. rewrite bool_decide_eq_true_2 by reflexivity.
      reflexivity.
    + intros t u Hin Hseg. unfold ids_from in Hids. rewrite Forall_forall in Hids.
      destruct (Hids u) as (k' & Hk' & Hle).
      * apply list_elem_of_In. apply in_map_iff. exists (t, u). split; [reflexivity | exact Hin].
      * exact Hseg.
      * exists k'. split; [exact Hk' | lia].
  - intros He. rewrite Hr2. unfold handleEvent. fold seg. rewrite He. simpl.
    split; reflexivity.
Qed.

(** C4. With a throttle interval [T >= 0], on a send whose catch-all
    listener is subscribed. A text delta causes a text update only when
    more than [T] has elapsed since the segment's last emission and the
    buffered text is longer than 20 characters. Hence, over any run of
    text deltas, every update caused is a text update of the current
    segment, longer than 20 characters and more than [T] after the
    emission that preceded the run, and any two of them are more than
    [T] apart. The segment-closing emissions do not look at the clock: a
    tool start, and the idle event on a send in flight, emit the
    segment_end of a segment that holds text at any clock reading. *)
Theorem text_updates_are_throttled (st : State) (deltas : list (Z * string)) :
  (0 <= T)%Z -> subAll (send st) = true ->
  let out := (run T cb (delta_signals deltas) st).2 in
  let seg := segment (send st) in
  (forall now d s,
     (handleEvent T now (assistant_message_delta d) s).2 <> [] ->
     (now - seg_lastUpdate (segment (send s)) > T)%Z /\
     20 < String.length (seg_text (segment (send s)) ++ d)) /\
  (forall t u, In (t, u) out ->
     utype u = text /\ segmentId u = Some (seg_id seg) /\
     20 < String.length (content u) /\ (t - seg_lastUpdate seg > T)%Z) /\
  (forall i j t1 u1 t2 u2, i < j ->
     out !! i = Some (t1, u1) -> out !! j = Some (t2, u2) -> (t2 - t1 > T)%Z) /\
  (forall now toolName s, seg_text (segment (send s)) <> "" ->
     In (mkUpdate segment_end (seg_text (segment (send s)))
           (Some (seg_id (segment (send s)))))
        (handleEvent T now (tool_execution_start toolName) s).2) /\
  (forall now s, Pending (send s) -> seg_text (segment (send s)) <> "" ->
     In (mkUpdate segment_end (seg_text (segment (send s)))
           (Some (seg_id (segment (send s)))))
        (deliver T cb now (SigEvent session_idle) s).2).
Proof.
  intros HT Ha out seg.
  pose proof (run_deltas deltas st Ha) as (_ & _ & _ & Hsp & Hall).
  fold out in Hsp, Hall. fold seg in Hsp, Hall.
  split; [|split; [|split; [|split]]].
  - intros now d s Hout.
    destruct (delta_step now d s) as (_ & _ & _ & _ & [(_ & H1 & H2 & _) | (H & _)]);
      [split; assumption | contradiction].
  - intros t u Hin.
    rewrite Forall_forall in Hall.
    destruct (Hall (t, u)) as (Hty & Hid & Hlen); [apply list_elem_of_In; exact Hin|].
    simpl in *. repeat (split; [assumption|]).
    pose proof (spaced_from _ _ HT Hsp) as Hfrom. rewrite Forall_forall in Hfrom.
    apply Hfrom. apply list_elem_of_In. apply in_map_iff. exists (t, u). split; [reflexivity | exact Hin].
  - intros i j t1 u1 t2 u2 Hij H1 H2.
    apply (spaced_pairwise _ _ HT Hsp i j t1 t2 Hij).
    + rewrite list_lookup_fmap, H1. reflexivity.
    + rewrite list_lookup_fmap, H2. reflexivity.
  - intros now toolName s Hne. apply truthy_true in Hne.
    unfold handleEvent. rewrite Hne. simpl. left. reflexivity.
  - intros now s HP Hne. apply truthy_true in Hne. pose proof HP as (Hs & _ & Hsa & Hsi & _).
    unfold deliver. rewrite Hsa. simpl. rewrite Hsi.
    unfold onIdle, settle. rewrite Hs. simpl. rewrite Hne.
    repeat match goal with |- context [if ?b then _ else _] => destruct b end;
      simpl; left; reflexivity.
Qed.

End Segments.

(** The worked send of the specification: three deltas of 5, 10 and 30
    characters within one interval cause one text update, after the
    third; the tool start then closes segment 0 and opens segment 1, and
    what follows belongs to segment 1. *)
Lemma tool_start_closes_segment_witness :
  let r1 := run 500 acceptAll (delta_signals demoDeltas) demoStart in
  let r2 := deliver 500 acceptAll 1003 (SigEvent (tool_execution_start "bash")) r1.1 in
  let r3 := run 500 acceptAll demoLater r2.1 in
  subAll (send demoStart) = true /\
  map Datatypes.snd r1.2
  = [mkUpdate text "Intro and more. thirty characters of prose..." (Some 0)] /\
  segment (send r2.1) = mkSegment "" 1 0 /\
  closings 0 (map Datatypes.snd r1.2 ++ r2.2 ++ map Datatypes.snd r3.2) = 1.
Proof.
  intros r1 r2 r3. split; [reflexivity|]. split; [reflexivity|].
  destruct (tool_start_closes_segment 500 acceptAll demoStart demoDeltas 1003 "bash"
              demoLater eq_refl) as [H _].
  destruct H as (_ & Hseg & Hcount & _).
  - discriminate.
  - split; [exact Hseg | exact Hcount].
Defined.

(** A burst at 1000, 1200 and 1800 ms with an interval of 500 ms: the
    updates that go out are more than 500 ms apart. *)
Lemma text_updates_are_throttled_witness :
  let out := (run 500 acceptAll (delta_signals demoBurst) demoStart).2 in
  (0 <= 500)%Z /\ subAll (send demoStart) = true /\
  map fst out = [1000%Z; 1800%Z] /\
  forall i j t1 u1 t2 u2, i < j ->
    out !! i = Some (t1, u1) -> out !! j = Some (t2, u2) -> (t2 - t1 > 500)%Z.
Proof.
  intros out. split; [lia|]. split; [reflexivity|]. split; [reflexivity|].
  destruct (text_updates_are_throttled 500 acceptAll demoStart demoBurst
              ltac:(lia) eq_refl) as (_ & _ & H & _).
  exact H.
Defined.

(** *** The complete-message fallback *)

(** C7, refuted as stated. On a fresh send the complete message [hi]
    causes a text update although the buffered text is only 2 characters
    long: the minimum length that gates delta-driven updates is not
    tested. *)
Lemma complete_message_bypasses_throttle :
  ~ (forall (T now : Z) (body : string) (st : State) (u : Update),
       receivedDelta (send st) = false ->
       In u (handleEvent T now (assistant_message body) st).2 ->
       (now - seg_lastUpdate (segment (send st)) > T)%Z /\
       20 < String.length (content u)).
Proof.
  intros H.
  destruct (H 500%Z 1000%Z "hi" demoStart (mkUpdate text "hi" (Some 0)) eq_refl)
    as [_ Hlen].
  - simpl. left. reflexivity.
  - simpl in Hlen. lia.
Qed.

(** C7, amended. When no delta has been received in this send, a
    complete-message event with content is appended to the full response
    buffer and to the current segment, exactly as a delta with that
    content would be, and marks deltas as received; a text update with
    the segment's text is then emitted unconditionally, with neither the
    throttle interval nor the minimum length tested, and the throttle
    clock is set to the clock reading; the manager's fields are
    untouched. A complete message without content, or one that arrives
    after a delta or an earlier complete message, is ignored. *)
Theorem complete_message_fallback (T now : Z) (body : string) (st : State) :
  let st' := (handleEvent T now (assistant_message body) st).1 in
  let out := (handleEvent T now (assistant_message body) st).2 in
  let viaDelta := (handleEvent T now (assistant_message_delta body) st).1 in
  (receivedDelta (send st) = false -> body <> "" ->
   fullContent (send st') = fullContent (send st) ++ body /\
   seg_text (segment (send st')) = seg_text (segment (send st)) ++ body /\
   seg_id (segment (send st')) = seg_id (segment (send st)) /\
   receivedDelta (send st') = true /\
   fullContent (send st') = fullContent (send viaDelta) /\
   seg_text (segment (send st')) = seg_text (segment (send viaDelta)) /\
   out = [mkUpdate text (seg_text (segment (send st)) ++ body)
            (Some (seg_id (segment (send st))))] /\
   seg_lastUpdate (segment (send st')) = now /\
   mgr st' = mgr st) /\
  (receivedDelta (send st) = true \/ body = "" -> st' = st /\ out = []).
Proof.
  intros st' out viaDelta. split.
  - intros Hrd Hbody. apply truthy_true in Hbody.
    destruct (delta_step T now body st) as (Hfc & Htxt & _). fold viaDelta in Hfc, Htxt.
    rewrite Hfc, Htxt. subst st' out. clear viaDelta Hfc Htxt.
    unfold handleEvent. rewrite Hrd, Hbody. simpl. repeat split; reflexivity.
  - subst st' out. intros [Hrd | ->]; unfold handleEvent.
    + rewrite Hrd. split; reflexivity.
    + rewrite andb_false_r. split; reflexivity.
Qed.

(** The complete message [hi] on a fresh send. *)
Lemma complete_message_fallback_witness :
  receivedDelta (send demoStart) = false /\ "hi" <> "" /\
  (handleEvent 500 1000 (assistant_message "hi") demoStart).2
  = [mkUpdate text "hi" (Some 0)] /\
  seg_lastUpdate (segment (send (handleEvent 500 1000 (assistant_message "hi")
                                   demoStart).1)) = 1000%Z.
Proof.
  split; [reflexivity|]. split; [discriminate|].
  destruct (complete_message_fallback 500 1000 "hi" demoStart) as [H _].
  destruct (H eq_refl ltac:(discriminate)) as (_ & _ & _ & _ & _ & _ & Hout & Hclock & _).
  split; [exact Hout | exact Hclock].
Defined.

End SessionFacts.

(** ** The pool over its life *)

Module PoolLifecycle.

Import AccountPool JsFacts PoolFacts.

(** *** Sanitized names *)

Lemma sanitize_char c :
  let d := Js.lower_char (if Js.is_name_char c then c else "-"%char) in
  is_safe_char d = true /\
  Js.lower_char (if Js.is_name_char d then d else "-"%char) = d.
Proof. destruct c as [[] [] [] [] [] [] [] []]; vm_compute; split; reflexivity. Qed.

(** X4. A sanitized name has the length of the name, is made of
    lower-case letters, digits, underscores and dashes only, and
    sanitizing it again changes nothing. *)
Theorem sanitizeName_safe (n : string) :
  String.length (sanitizeName n) = String.length n /\
  Js.all_chars is_safe_char (sanitizeName n) = true /\
  sanitizeName (sanitizeName n) = sanitizeName n.
Proof.
  unfold sanitizeName, Js.toLowerCase.
  induction n as [|c n (IH1 & IH2 & IH3)]; [repeat split|].
  destruct (sanitize_char c) as [Hs Hi]. cbn zeta in Hs, Hi. simpl.
  rewrite IH1, IH2, IH3, Hs, Hi. repeat split.
Qed.

(** *** Names of the explicit list *)

Lemma split_pieces sep (s : string) :
  Forall (fun piece => Js.all_chars (Js.not_sep sep) piece = true) (Js.split sep s).
Proof.
  induction s as [|c s IH]; simpl.
  - repeat constructor.
  - destruct (Ascii.eqb c sep) eqn:E.
    + constructor; [reflexivity | exact IH].
    + destruct (Js.split sep s) as [|piece pieces].
      * repeat constructor. simpl. unfold Js.not_sep. rewrite E. reflexivity.
      * inversion IH as [|? ? Hp Hps]; subst. constructor; [|exact Hps].
        simpl. unfold Js.not_sep at 1. rewrite E. exact Hp.
Qed.

Lemma drop_while_sub (p q : ascii -> bool) (s : string) :
  Js.all_chars p s = true -> Js.all_chars p (Js.drop_while q s) = true.
Proof.
  induction s as [|c s IH]; [reflexivity|]. intros H. simpl.
  destruct (q c); [|exact H]. simpl in H. apply andb_true_iff in H as [_ H]. exact (IH H).
Qed.

Lemma trimEnd_sub (p : ascii -> bool) (s : string) :
  Js.all_chars p s = true -> Js.all_chars p (Js.trimEnd s) = true.
Proof.
  induction s as [|c s IH]; [reflexivity|]. intros H. simpl in H.
  apply andb_true_iff in H as [Hc Hs]. specialize (IH Hs). simpl.
  destruct (Js.trimEnd s) as [|c' r].
  - destruct (Js.is_space c); [reflexivity | simpl; rewrite Hc; reflexivity].
  - change (Js.all_chars p (String c (String c' r)))
      with (p c && Js.all_chars p (String c' r)). rewrite Hc, IH. reflexivity.
Qed.

Lemma trim_sub (p : ascii -> bool) (s : string) :
  Js.all_chars p s = true -> Js.all_chars p (Js.trim s) = true.
Proof. intros H. apply trimEnd_sub, drop_while_sub, H. Qed.

Lemma trimStart_edge (s : string) :
  Js.trimStart s = "" \/
  exists c, Js.first_char (Js.trimStart s) = Some c /\ Js.is_space c = false.
Proof.
  unfold Js.trimStart. induction s as [|c s IH]; [left; reflexivity|]. simpl.
  destruct (Js.is_space c) eqn:E; [exact IH|]. right. exists c. split; [reflexivity | exact E].
Qed.

Lemma trimEnd_edge (s : string) :
  Js.trimEnd s = "" \/
  exists c, Js.last_char (Js.trimEnd s) = Some c /\ Js.is_space c = false.
Proof.
  induction s as [|c s IH]; [left; reflexivity|]. simpl.
  destruct (Js.trimEnd s) as [|c' r].
  - destruct (Js.is_space c) eqn:E; [left; reflexivity|].
    right. exists c. split; [reflexivity | exact E].
  - right. destruct IH as [IH | (d & Hd & Hs)]; [discriminate|].
    exists d. split; [exact Hd | exact Hs].
Qed.

Lemma trimEnd_first (s : string) c :
  Js.first_char s = Some c -> Js.is_space c = false ->
  Js.first_char (Js.trimEnd s) = Some c.
Proof.
  destruct s as [|c' s]; [discriminate|]. intros [= ->] Hc. simpl.
  destruct (Js.trimEnd s); [rewrite Hc|]; reflexivity.
Qed.

(** Trimming twice is trimming once. *)
Lemma trim_idempotent (s : string) : Js.trim (Js.trim s) = Js.trim s.
Proof.
  unfold Js.trim at 2 3.
  destruct (trimStart_edge s) as [-> | (c & Hc & Hs)]; [reflexivity|].
  pose proof (trimEnd_first _ c Hc Hs) as Hf.
  destruct (trimEnd_edge (Js.trimStart s)) as [E | (d & Hd & Hds)].
  - rewrite E in Hf. discriminate.
  - exact (trim_keep _ c d Hf Hs Hd Hds).
Qed.

(** X5. The explicit list is read only when [CLAUDE_ACCOUNTS] is set and
    not empty, and every name it yields is not empty, has no white space
    at either end (trimming it changes nothing) and holds no comma. *)
Theorem loadFromEnv_names (raw : option string) (names : list string) :
  loadFromEnv raw = Some names ->
  (exists r, raw = Some r /\ r <> "") /\
  Forall (fun nm => nm <> "" /\ Js.trim nm = nm /\
                    Js.all_chars (Js.not_sep ",") nm = true) names.
Proof.
  unfold loadFromEnv. destruct raw as [r|]; [|discriminate].
  destruct (Js.truthy r) eqn:Hr; [|discriminate]. intros [= <-]. split.
  - exists r. split; [reflexivity | apply truthy_true; exact Hr].
  - apply Forall_forall. intros nm Hin.
    apply list_elem_of_filter in Hin as [Hne Hin].
    apply list_elem_of_fmap in Hin as (piece & -> & Hpiece).
    split; [apply truthy_true; exact Hne|]. split; [apply trim_idempotent|].
    apply trim_sub.
    pose proof (split_pieces "," r) as Hall. rewrite Forall_forall in Hall.
    exact (Hall piece Hpiece).
Qed.

Lemma loadFromEnv_names_witness :
  loadFromEnv (Some " a b ,, c,") = Some ["a b"; "c"] /\
  Forall (fun nm => nm <> "" /\ Js.trim nm = nm /\
                    Js.all_chars (Js.not_sep ",") nm = true) ["a b"; "c"].
Proof.
  split; [reflexivity|].
  exact (proj2 (loadFromEnv_names (Some " a b ,, c,") ["a b"; "c"] eq_refl)).
Defined.

(** *** The accounts section of the configuration file *)

Lemma parse_lines_step (line : string) rest ia names :
  exists pushed,
    (forall nm, In nm pushed -> nm <> "") /\
    (parse_lines (line :: rest) ia names = (names ++ pushed)%list \/
     exists ia', (ia' = true \/ ia' = ia) /\
       parse_lines (line :: rest) ia names = parse_lines rest ia' (names ++ pushed)%list).
Proof.
  assert (Hkeep : forall ia', (ia' = true \/ ia' = ia) ->
            exists pushed, (forall nm, In nm pushed -> nm <> "") /\
              (parse_lines rest ia' names = (names ++ pushed)%list \/
               exists ia'', (ia'' = true \/ ia'' = ia) /\
                 parse_lines rest ia' names = parse_lines rest ia'' (names ++ pushed)%list)).
  { intros ia' Hia. exists []. split; [intros ? []|]. right. exists ia'.
    split; [exact Hia|]. rewrite app_nil_r. reflexivity. }
  assert (Hpush : forall nm, nm <> "" ->
            exists pushed, (forall nm, In nm pushed -> nm <> "") /\
              (parse_lines rest ia (names ++ [nm]) = (names ++ pushed)%list \/
               exists ia'', (ia'' = true \/ ia'' = ia) /\
                 parse_lines rest ia (names ++ [nm])
                 = parse_lines rest ia'' (names ++ pushed)%list)).
  { intros nm Hnm. exists [nm]. split; [intros ? [<-|[]]; exact Hnm|]. right. exists ia.
    split; [right; reflexivity | reflexivity]. }
  cbn [parse_lines]. cbv zeta.
  destruct (is_accounts_key line); [apply Hkeep; left; reflexivity|].
  destruct ia; cbn [negb]; [|apply Hkeep; right; reflexivity].
  destruct (Js.truthy (Js.trim line) && negb (Js.startsWith "#" (Js.trim line))
            && negb (starts_with_space line)).
  { exists []. split; [intros ? []|]. left. rewrite app_nil_r. reflexivity. }
  destruct (negb (Js.truthy (Js.trim line)) || Js.startsWith "#" (Js.trim line));
    [apply Hkeep; right; reflexivity|].
  destruct (if Nat.eqb (indent_of line) 2 then match_map_key line else None) as [key|] eqn:Hkey.
  { apply Hpush. destruct (Nat.eqb (indent_of line) 2); [|discriminate].
    exact (proj1 (map_key_is_plain _ _ Hkey)). }
  destruct (Js.startsWith "-" (Js.trim line)); [|apply Hkeep; right; reflexivity].
  destruct (match_inline_name (Js.trim line)) as [cap|].
  - destruct (Js.truthy (strip_quotes (Js.trim cap))) eqn:Hnm.
    + apply Hpush. apply truthy_true. exact Hnm.
    + apply Hkeep. right. reflexivity.
  - destruct (match_plain (Js.trim line)) as [key|] eqn:Hplain.
    + apply Hpush. exact (proj1 (bare_key_is_plain _ _ Hplain)).
    + apply Hkeep. right. reflexivity.
Qed.

Lemma parse_lines_names lines : forall ia names,
  exists pushed,
    parse_lines lines ia names = (names ++ pushed)%list /\
    (forall nm, In nm pushed -> nm <> "") /\
    (pushed <> [] -> ia = true \/ Exists (fun l => is_accounts_key l = true) lines).
Proof.
  induction lines as [|line rest IH]; intros ia names.
  - exists []. simpl. rewrite app_nil_r. split; [reflexivity|]. split; [intros ? []|congruence].
  - destruct (is_accounts_key line) eqn:Hk.
    + destruct (IH true names) as (pushed & Heq & Hne & _).
      exists pushed. split; [|split; [exact Hne|]].
      * cbn [parse_lines]. cbv zeta. rewrite Hk. exact Heq.
      * intros _. right. apply Exists_cons_hd. exact Hk.
    + destruct ia.
      * destruct (parse_lines_step line rest true names) as (p1 & Hp1 & [Heq | (ia' & Hia & Heq)]).
        -- exists p1. split; [exact Heq|]. split; [exact Hp1|]. intros _. left. reflexivity.
        -- destruct (IH ia' (names ++ p1)%list) as (p2 & Heq2 & Hp2 & _).
           exists (p1 ++ p2)%list. split; [rewrite Heq, Heq2, app_assoc; reflexivity|].
           split; [|intros _; left; reflexivity].
           intros nm Hin. apply in_app_or in Hin as [Hin|Hin]; [exact (Hp1 _ Hin) | exact (Hp2 _ Hin)].
      * destruct (IH false names) as (pushed & Heq & Hne & Hkey).
        exists pushed. split; [|split; [exact Hne|]].
        -- cbn [parse_lines]. cbv zeta. rewrite Hk. exact Heq.
        -- intros Hp. destruct (Hkey Hp) as [?|Hex]; [discriminate|].
           right. apply Exists_cons_tl. exact Hex.
Qed.

(** X6. [parseYamlAccountNames] never returns an empty list: it returns
    either nothing or at least one name; every name it returns is not
    empty; and it returns names only for a content one of whose lines
    starts with the key [accounts] followed by a colon. *)
Theorem parseYamlAccountNames_result (content : string) (names : list string) :
  parseYamlAccountNames content = Some names ->
  names <> [] /\ Forall (fun nm => nm <> "") names /\
  Exists (fun line => is_accounts_key line = true) (Js.split "010" content).
Proof.
  unfold parseYamlAccountNames.
  destruct (parse_lines_names (Js.split "010" content) false []) as (pushed & Heq & Hne & Hkey).
  rewrite Heq. simpl. destruct pushed as [|nm pushed]; [discriminate|]. intros [= <-].
  split; [discriminate|]. split.
  - apply Forall_forall. intros x Hx. apply Hne. apply list_elem_of_In. exact Hx.
  - destruct (Hkey ltac:(discriminate)) as [?|Hex]; [discriminate | exact Hex].
Qed.

Lemma parseYamlAccountNames_result_witness :
  parseYamlAccountNames (list_doc "work") = Some ["work"] /\
  ["work"] <> [] /\ Forall (fun nm => nm <> "") ["work"] /\
  Exists (fun line => is_accounts_key line = true) (Js.split "010" (list_doc "work")).
Proof.
  split; [reflexivity|].
  exact (parseYamlAccountNames_result (list_doc "work") ["work"] eq_refl).
Defined.

(** Splitting at a separator splits the pieces on its two sides. *)
Lemma split_app sep (a b : string) :
  Js.split sep (a ++ String sep b) = (Js.split sep a ++ Js.split sep b)%list.
Proof.
  induction a as [|c a IH].
  - change ("" ++ String sep b) with (String sep b). simpl.
    rewrite Ascii.eqb_refl. reflexivity.
  - rewrite app_cons. simpl. rewrite IH. destruct (Ascii.eqb c sep); [reflexivity|].
    destruct (Js.split sep a) as [|piece pieces] eqn:E; [|reflexivity].
    destruct a; simpl in E; [discriminate|].
    destruct (Ascii.eqb a sep); [discriminate|]. destruct (Js.split sep a0); discriminate.
Qed.

Lemma split_nonempty sep (s : string) : Js.split sep s <> [].
Proof.
  destruct s as [|c s]; simpl; [discriminate|].
  destruct (Ascii.eqb c sep); [discriminate|]. destruct (Js.split sep s); discriminate.
Qed.

(** Once the accounts key has been seen, the lines up to some point
    either end the scan, whatever follows, or leave it inside the
    section. *)
Lemma parse_lines_prefix l1 : forall ia names,
  ia = true \/ Exists (fun l => is_accounts_key l = true) l1 ->
  (exists out, forall rest, parse_lines (l1 ++ rest) ia names = out) \/
  (exists names', forall rest, parse_lines (l1 ++ rest) ia names = parse_lines rest true names').
Proof.
  induction l1 as [|line l1 IH]; intros ia names Hin.
  - destruct Hin as [-> | Hex]; [|inversion Hex]. right. exists names. reflexivity.
  - destruct (is_accounts_key line) eqn:Hk.
    + destruct (IH true names (or_introl eq_refl)) as [(out & H) | (names' & H)].
      * left. exists out. intros rest. rewrite <- (H rest).
        change ((line :: l1) ++ rest)%list with (line :: (l1 ++ rest))%list.
        cbn [parse_lines]. cbv zeta. rewrite Hk. reflexivity.
      * right. exists names'. intros rest. rewrite <- (H rest).
        change ((line :: l1) ++ rest)%list with (line :: (l1 ++ rest))%list.
        cbn [parse_lines]. cbv zeta. rewrite Hk. reflexivity.
    + destruct ia.
      * assert (Hgo : forall names1,
                  (exists out, forall rest, parse_lines (l1 ++ rest) true names1 = out) \/
                  (exists names', forall rest,
                      parse_lines (l1 ++ rest) true names1 = parse_lines rest true names'))
          by (intros names1; apply IH; left; reflexivity).
        assert (Hshape :
          (forall rest, parse_lines (line :: rest) true names = names) \/
          (exists names1, forall rest,
              parse_lines (line :: rest) true names = parse_lines rest true names1)).
        { cbn [parse_lines]. cbv zeta. rewrite Hk. cbn [negb].
          destruct (Js.truthy (Js.trim line) && negb (Js.startsWith "#" (Js.trim line))
                    && negb (starts_with_space line)); [left; reflexivity|].
          right.
          destruct (negb (Js.truthy (Js.trim line)) || Js.startsWith "#" (Js.trim line));
            [exists names; reflexivity|].
          destruct (if Nat.eqb (indent_of line) 2 then match_map_key line else None);
            [eexists; reflexivity|].
          destruct (Js.startsWith "-" (Js.trim line)); [|exists names; reflexivity].
          destruct (match_inline_name (Js.trim line)).
          - destruct (Js.truthy (strip_quotes (Js.trim s))); eexists; reflexivity.
          - destruct (match_plain (Js.trim line)); eexists; reflexivity. }
        destruct Hshape as [Hstop | (names1 & Hnext)].
        -- left. exists names. intros rest. apply Hstop.
        -- destruct (Hgo names1) as [(out & H) | (names' & H)].
           ++ left. exists out. intros rest. rewrite <- (H rest). apply Hnext.
           ++ right. exists names'. intros rest. rewrite <- (H rest). apply Hnext.
      * destruct Hin as [? | Hex]; [discriminate|].
        inversion Hex as [? ? Hhd | ? ? Htl]; subst; [congruence|].
        destruct (IH false names (or_intror Htl)) as [(out & H) | (names' & H)].
        -- left. exists out. intros rest. rewrite <- (H rest).
           change ((line :: l1) ++ rest)%list with (line :: (l1 ++ rest))%list.
           cbn [parse_lines]. cbv zeta. rewrite Hk. reflexivity.
        -- right. exists names'. intros rest. rewrite <- (H rest).
           change ((line :: l1) ++ rest)%list with (line :: (l1 ++ rest))%list.
           cbn [parse_lines]. cbv zeta. rewrite Hk. reflexivity.
Qed.

(** X7. The accounts section ends at the first top-level line after its
    key: when a line of [before] is the accounts key and [stop] is a
    single line that is neither blank, nor a comment, nor indented, nor
    the accounts key again, then nothing that follows [stop] is read. *)
Theorem section_ends_at_top_level_line (before stop after : string) :
  Exists (fun line => is_accounts_key line = true) (Js.split "010" before) ->
  Js.all_chars (Js.not_sep "010") stop = true ->
  ends_section stop = true -> is_accounts_key stop = false ->
  parseYamlAccountNames (before ++ newline ++ stop ++ newline ++ after)
  = parseYamlAccountNames (before ++ newline ++ stop).
Proof.
  intros Hkey Hline Hend Hnk. unfold parseYamlAccountNames, newline.
  change (String "010" "" ++ stop ++ String "010" "" ++ after)
    with (String "010" (stop ++ String "010" after)).
  change (String "010" "" ++ stop) with (String "010" stop).
  rewrite !split_app, (split_no_sep _ stop Hline).
  assert (Hstop : forall rest names, parse_lines (stop :: rest) true names = names).
  { intros rest names. cbn [parse_lines]. cbv zeta. rewrite Hnk. cbn [negb].
    unfold ends_section in Hend. rewrite Hend. reflexivity. }
  destruct (parse_lines_prefix (Js.split "010" before) false [] (or_intror Hkey))
    as [(out & H) | (names' & H)].
  - rewrite !H. reflexivity.
  - rewrite !H. change ([stop] ++ Js.split "010" after)%list with (stop :: Js.split "010" after).
    rewrite !Hstop. reflexivity.
Qed.

Lemma section_ends_at_top_level_line_witness :
  parseYamlAccountNames (("accounts:" ++ newline ++ "  a:") ++ newline ++ "profiles:"
                         ++ newline ++ ("accounts:" ++ newline ++ "  b:"))
  = parseYamlAccountNames (("accounts:" ++ newline ++ "  a:") ++ newline ++ "profiles:") /\
  parseYamlAccountNames (("accounts:" ++ newline ++ "  a:") ++ newline ++ "profiles:")
  = Some ["a"].
Proof.
  split; [|reflexivity].
  apply (section_ends_at_top_level_line
           ("accounts:" ++ newline ++ "  a:") "profiles:" ("accounts:" ++ newline ++ "  b:"));
    [apply Exists_cons_hd | | |]; reflexivity.
Defined.

(** *** Rotation over the life of the pool *)

Lemma marked_length until p : length (marked until p) = length (accounts p).
Proof. unfold marked. destruct (currentAccount p); [apply length_alter | reflexivity]. Qed.

Lemma marked_lookup until p j a :
  accounts p !! j = Some a ->
  marked until p !! j = Some (if decide (j = _currentIndex p) then setLimited until a else a).
Proof.
  intros Hj. unfold marked, currentAccount.
  destruct (accounts p !! _currentIndex p) eqn:Hc.
  - apply alter_current_lookup. exact Hj.
  - destruct (decide (j = _currentIndex p)) as [->|_]; [congruence | exact Hj].
Qed.

Lemma marked_names until p :
  map name (marked until p) = map name (accounts p) /\
  map configDir (marked until p) = map configDir (accounts p).
Proof.
  unfold marked. destruct (currentAccount p); [|split; reflexivity].
  split; apply list_eq; intros i; rewrite !list_lookup_fmap;
    (destruct (decide (i = _currentIndex p)) as [->|Hne];
     [rewrite list_lookup_alter_eq; destruct (accounts p !! _currentIndex p); reflexivity
     |rewrite list_lookup_alter_ne by congruence; reflexivity]).
Qed.

(** One call, in terms of the marked accounts. *)
Lemma markLimitedAndRotate_step (p : Pool) (cooldown : option Z) (now0 now : Z) :
  let N := length (accounts p) in
  let start := _currentIndex p in
  let accts := marked (now0 + default (cooldownMs p) cooldown) p in
  exists r idx,
    markLimitedAndRotate cooldown now0 now p = Some (r, mkPool accts idx (cooldownMs p)) /\
    (r = true ->
     exists i a, 1 <= i <= N /\ idx = (start + i) `mod` N /\ idx < N /\
       accts !! idx = Some a /\ Eligible now a /\
       forall j, 1 <= j < i ->
         exists b, accts !! ((start + j) `mod` N) = Some b /\ ~ Eligible now b) /\
    (r = false ->
     idx = start /\
     forall i, 1 <= i <= N ->
       exists b, accts !! ((start + i) `mod` N) = Some b /\ ~ Eligible now b).
Proof.
  intros N start accts. unfold markLimitedAndRotate.
  change (match currentAccount p with
          | Some _ => alter (setLimited (now0 + default (cooldownMs p) cooldown))
                        (_currentIndex p) (accounts p)
          | None => accounts p
          end) with accts.
  assert (Hlen : length accts = N) by apply marked_length.
  pose proof (rotate_loop_spec accts start now (length accts) 1) as Hloop.
  assert (Hne : accts = [] -> length accts = 0) by (intros ->; reflexivity).
  specialize (Hloop Hne). unfold slot in Hloop. rewrite Hlen in Hloop. rewrite Hlen.
  fold start.
  destruct (rotate_loop accts start now 1 N) as [k| |].
  - destruct Hloop as (i & a & Hi & Hk & Ha & Hel & Hbefore).
    exists true, k. split; [reflexivity|]. split; [|discriminate].
    intros _. exists i, a. split; [lia|]. split; [exact Hk|].
    split; [apply lookup_lt_Some in Ha; lia|]. split; [exact Ha|].
    split; [exact Hel|]. intros j Hj. apply Hbefore. lia.
  - exists false, start. split; [reflexivity|]. split; [discriminate|].
    intros _. split; [reflexivity|]. intros i Hi. apply Hloop. lia.
  - destruct Hloop.
Qed.

(** Reports in sequence: all calls return, and position by position
    the accounts keep their names and directories. *)
Lemma rotations_keep (reports : list Report) : forall p : Pool,
  exists rs p',
    rotations reports p = Some (rs, p') /\
    length rs = length reports /\
    map name (accounts p') = map name (accounts p) /\
    map configDir (accounts p') = map configDir (accounts p) /\
    cooldownMs p' = cooldownMs p /\
    (IndexValid p -> IndexValid p').
Proof.
  induction reports as [|[[cooldown now0] now] reports IH]; intros p.
  - exists [], p. repeat split; auto.
  - destruct (markLimitedAndRotate_step p cooldown now0 now) as (r & idx & Hcall & Ht & Hf).
    set (p1 := mkPool _ idx _) in Hcall.
    destruct (IH p1) as (rs & p' & Hrest & Hlen & Hn & Hd & Hc & Hv).
    exists (r :: rs), p'. simpl. rewrite Hcall, Hrest.
    destruct (marked_names (now0 + default (cooldownMs p) cooldown) p) as [Hn1 Hd1].
    split; [reflexivity|]. split; [simpl; lia|].
    split; [rewrite Hn; exact Hn1|]. split; [rewrite Hd; exact Hd1|].
    split; [rewrite Hc; reflexivity|].
    intros Hvalid. apply Hv. unfold IndexValid, p1. simpl.
    rewrite marked_length.
    destruct r.
    + destruct (Ht eq_refl) as (i & a & _ & _ & Hlt & _). right. exact Hlt.
    + destruct (Hf eq_refl) as [-> _]. destruct Hvalid as [Hnil | Hlt]; [|right; exact Hlt].
      left. apply length_zero_iff_nil. rewrite marked_length, Hnil. reflexivity.
Qed.

(** X8. Any sequence of rate-limit reports can be applied to any pool:
    every call returns, one result per report, and the pool keeps its
    accounts (same number, same names and credential directories in the
    same order) and its default cooldown; an index that points into the
    pool keeps doing so, and the current account keeps being one of the
    accounts the pool started with. *)
Theorem rotations_preserve_pool (reports : list Report) (p : Pool) :
  exists rs p',
    rotations reports p = Some (rs, p') /\
    length rs = length reports /\
    accountCount p' = accountCount p /\
    map name (accounts p') = map name (accounts p) /\
    map configDir (accounts p') = map configDir (accounts p) /\
    cooldownMs p' = cooldownMs p /\
    (IndexValid p -> IndexValid p') /\
    (IndexValid p -> accounts p <> [] ->
     exists a, accounts p !! _currentIndex p' = Some a /\ getCurrentName p' = name a).
Proof.
  destruct (rotations_keep reports p) as (rs & p' & Hrun & Hlen & Hn & Hd & Hc & Hv).
  exists rs, p'. split; [exact Hrun|]. split; [exact Hlen|].
  assert (Hcount : length (accounts p') = length (accounts p)).
  { rewrite <- (length_map name (accounts p')), Hn. apply length_map. }
  split; [exact Hcount|]. split; [exact Hn|]. split; [exact Hd|].
  split; [exact Hc|]. split; [exact Hv|].
  intros Hvalid Hne. destruct (Hv Hvalid) as [Hnil | Hlt].
  { rewrite Hnil in Hcount. symmetry in Hcount. apply length_zero_iff_nil in Hcount.
    congruence. }
  destruct (lookup_lt_is_Some_2 _ _ Hlt) as [a' Ha'].
  assert (Hlook : name <$> accounts p !! _currentIndex p' = Some (name a')).
  { rewrite <- list_lookup_fmap. change (fmap name (accounts p)) with (map name (accounts p)).
    rewrite <- Hn. change (map name (accounts p')) with (fmap name (accounts p')).
    rewrite list_lookup_fmap, Ha'. reflexivity. }
  destruct (accounts p !! _currentIndex p') as [a|]; [|discriminate].
  exists a. split; [reflexivity|]. unfold getCurrentName, currentAccount. rewrite Ha'.
  injection Hlook as ->. reflexivity.
Qed.

(** Every index of the pool is visited by the scan. *)
Lemma scan_covers (start N j : nat) :
  j < N -> exists i, 1 <= i <= N /\ (start + i) `mod` N = j.
Proof.
  intros Hj.
  assert (HN : N <> 0) by lia.
  pose proof (Nat.mod_upper_bound start N HN) as Hs.
  pose proof (Nat.div_mod_eq start N) as Hd.
  destruct (decide (start `mod` N < j)) as [Hlt|Hge].
  - exists (j - start `mod` N). split; [lia|].
    symmetry. apply (Nat.mod_unique _ _ (start `div` N)); [exact Hj | lia].
  - exists (N + j - start `mod` N). split; [lia|].
    symmetry. apply (Nat.mod_unique _ _ (S (start `div` N))); [exact Hj | nia].
Qed.

(** X9. The result of a report tells whether anybody is left: it is
    true exactly when, once the current account has been marked, some
    account of the pool is eligible at the clock reading of the scan, and
    false exactly when every account of the pool is limited beyond it. *)
Theorem rotation_succeeds_iff_some_account_eligible
        (p : Pool) (cooldown : option Z) (now0 now : Z) :
  exists r p',
    markLimitedAndRotate cooldown now0 now p = Some (r, p') /\
    accounts p' = marked (now0 + default (cooldownMs p) cooldown) p /\
    (r = true <-> Exists (Eligible now) (accounts p')) /\
    (r = false <-> Forall (fun a => ~ Eligible now a) (accounts p')).
Proof.
  destruct (markLimitedAndRotate_step p cooldown now0 now) as (r & idx & Hcall & Ht & Hf).
  eexists r, _. split; [exact Hcall|]. simpl. split; [reflexivity|].
  set (accts := marked _ p) in *.
  assert (Hlen : length accts = length (accounts p)) by apply marked_length.
  assert (Hfalse : r = false -> Forall (fun a => ~ Eligible now a) accts).
  { intros Hr. destruct (Hf Hr) as [_ Hall]. apply Forall_lookup. intros j a Hj.
    assert (Hlt : j < length (accounts p)) by (apply lookup_lt_Some in Hj; lia).
    destruct (scan_covers (_currentIndex p) _ j Hlt) as (i & Hi & Hmod).
    destruct (Hall i Hi) as (b & Hb & Hnot). rewrite Hmod in Hb. congruence. }
  assert (Htrue : r = true -> Exists (Eligible now) accts).
  { intros Hr. destruct (Ht Hr) as (i & a & _ & _ & _ & Ha & Hel & _).
    apply Exists_exists. exists a. split; [|exact Hel].
    apply list_elem_of_lookup. exists idx. exact Ha. }
  assert (Hexcl : Exists (Eligible now) accts -> Forall (fun a => ~ Eligible now a) accts -> False).
  { intros Hex Hall. apply Exists_exists in Hex as (a & Hin & Hel).
    rewrite Forall_forall in Hall. exact (Hall a Hin Hel). }
  split; split.
  - exact Htrue.
  - intros Hex. destruct r; [reflexivity|]. exfalso. exact (Hexcl Hex (Hfalse eq_refl)).
  - exact Hfalse.
  - intros Hall. destruct r; [|reflexivity]. exfalso. exact (Hexcl (Htrue eq_refl) Hall).
Qed.

(** X10. With a cooldown that has not elapsed when the scan starts
    (positive, and the clock has not passed the mark), a report on a pool
    whose index points at an account never selects that account again:
    when it returns true the index has moved to another account, which
    is eligible; when it returns false the index has not moved. A pool
    of one account always gets false. *)
Theorem rotation_leaves_limited_account
        (p : Pool) (cooldown : option Z) (now0 now : Z) (r : bool) (p' : Pool) :
  _currentIndex p < length (accounts p) ->
  (now < now0 + default (cooldownMs p) cooldown)%Z ->
  markLimitedAndRotate cooldown now0 now p = Some (r, p') ->
  (r = true ->
   _currentIndex p' <> _currentIndex p /\
   exists b, currentAccount p' = Some b /\ Eligible now b) /\
  (r = false -> _currentIndex p' = _currentIndex p) /\
  (length (accounts p) = 1 -> r = false).
Proof.
  intros Hidx Hcd Hcall.
  destruct (markLimitedAndRotate_step p cooldown now0 now) as (r0 & idx & Hcall0 & Ht & Hf).
  rewrite Hcall in Hcall0. injection Hcall0 as -> ->.
  set (until := (now0 + default (cooldownMs p) cooldown)%Z) in *.
  assert (Hmoved : r0 = true ->
            idx <> _currentIndex p /\
            exists b, marked until p !! idx = Some b /\ Eligible now b).
  { intros Hr. destruct (Ht Hr) as (i & a & _ & _ & Hlt & Ha & Hel & _).
    split; [|exists a; split; assumption].
    intros ->. destruct (lookup_lt_is_Some_2 _ _ Hidx) as [c Hc].
    rewrite (marked_lookup until p _ c Hc) in Ha.
    destruct (decide (_currentIndex p = _currentIndex p)); [|congruence].
    injection Ha as <-. destruct Hel as [Hel | (u & Hu & Hle)]; simpl in *; [discriminate|].
    injection Hu as <-. lia. }
  split; [|split].
  - intros Hr. exact (Hmoved Hr).
  - intros Hr. simpl. exact (proj1 (Hf Hr)).
  - intros Hone. destruct r0; [|reflexivity]. exfalso.
    destruct (Ht eq_refl) as (i & a & _ & _ & Hlt & _).
    destruct (Hmoved eq_refl) as [Hne _]. lia.
Qed.

(** The pool of two: a report on [B] at reading 2000, when the limit of
    [A] has elapsed, moves the index from [B] to [A]. *)
Lemma rotation_leaves_limited_account_witness :
  let p' := mkPool [mkAccount "A" "/ccs/instances/a" (Some (Js.Int 1601));
                    mkAccount "B" "/ccs/instances/b" (Some (Js.Int 302000))] 0 300000 in
  markLimitedAndRotate None 2000 2000 demoPool = Some (true, p') /\
  _currentIndex p' <> _currentIndex demoPool /\
  exists b, currentAccount p' = Some b /\ Eligible 2000 b.
Proof.
  intros p'. split; [reflexivity|].
  exact (proj1 (rotation_leaves_limited_account demoPool None 2000 2000 true p'
                  ltac:(simpl; lia) ltac:(simpl; lia) eq_refl) eq_refl).
Defined.

(** *** Running out of accounts *)

Lemma exhaust_from (m : nat) : forall (k : nat) (p : Pool) (t0 : Z) (reports : list Report),
  length (accounts p) = k + S m -> _currentIndex p = k ->
  (forall j a, accounts p !! j = Some a ->
     (j < k -> exists u : Z, rateLimitedUntil a = Some (Js.Int u) /\ (t0 + cooldownMs p <= u)%Z) /\
     (k <= j -> rateLimitedUntil a = None)) ->
  length reports = S m -> Forall (in_window t0 (cooldownMs p)) reports ->
  exists p',
    rotations reports p = Some ((replicate m true ++ [false])%list, p') /\
    _currentIndex p' = k + m /\
    Forall (fun a => exists u : Z,
              rateLimitedUntil a = Some (Js.Int u) /\ (t0 + cooldownMs p <= u)%Z)
           (accounts p').
Proof.
  induction m as [|m IH]; intros k p t0 reports HN Hidx Hst Hlen Hwin;
    destruct reports as [|[[cooldown now0] now] rest]; try discriminate;
    inversion Hwin as [|? ? Hrep Hrest]; subst;
    destruct Hrep as (Hcd & Ht0 & Hnow); simpl in Hcd, Ht0, Hnow; subst cooldown;
    destruct (markLimitedAndRotate_step p None now0 now) as (r & idx & Hcall & Ht & Hf);
    cbn [default] in *;
    set (accts := marked (now0 + cooldownMs p) p) in *;
    assert (Hacc : forall j a, accts !! j = Some a ->
              (j <= _currentIndex p ->
               exists u : Z, rateLimitedUntil a = Some (Js.Int u) /\ (t0 + cooldownMs p <= u)%Z) /\
              (_currentIndex p < j -> rateLimitedUntil a = None)).
  1,3: intros j a Ha;
       assert (Hj : j < length (accounts p))
         by (apply lookup_lt_Some in Ha; unfold accts in Ha; rewrite marked_length in Ha; exact Ha);
       destruct (lookup_lt_is_Some_2 _ _ Hj) as [a0 Ha0];
       unfold accts in Ha; rewrite (marked_lookup _ p j a0 Ha0) in Ha;
       destruct (Hst j a0 Ha0) as [Hlow Hhigh];
       destruct (decide (j = _currentIndex p)) as [->|Hne]; injection Ha as <-;
       (split; [intros Hle | intros Hgt]);
       [ eexists; split; [reflexivity | lia]
       | lia
       | apply Hlow; lia
       | apply Hhigh; lia ].
  - (* the last account *)
    destruct rest; [|discriminate].
    assert (Hr : r = false).
    { destruct r; [|reflexivity]. exfalso.
      destruct (Ht eq_refl) as (i & a & _ & _ & Hlt & Ha & Hel & _).
      destruct (Hacc idx a Ha) as [Hlow _].
      destruct (Hlow ltac:(lia)) as (u & Hu & Hle).
      destruct Hel as [Hel | (u' & Hu' & Hle')]; [congruence|].
      assert (u' = u) by congruence. lia. }
    subst r. destruct (Hf eq_refl) as [-> _].
    eexists. simpl. rewrite Hcall. split; [reflexivity|]. simpl. split; [lia|].
    apply Forall_lookup. intros j a Ha. destruct (Hacc j a Ha) as [Hlow _].
    apply Hlow. apply lookup_lt_Some in Ha. unfold accts in Ha.
    rewrite marked_length in Ha. lia.
  - (* an account is left after the current one *)
    assert (Hslot : (_currentIndex p + 1) `mod` length (accounts p) = S (_currentIndex p))
      by (rewrite Nat.mod_small; lia).
    assert (Hnext : exists b, accts !! S (_currentIndex p) = Some b /\ Eligible now b).
    { destruct (lookup_lt_is_Some_2 accts (S (_currentIndex p))) as [b Hb].
      - unfold accts. rewrite marked_length. lia.
      - exists b. split; [exact Hb|]. left. apply (Hacc _ b Hb). lia. }
    destruct Hnext as (b & Hb & Helb).
    assert (Hr : r = true /\ idx = S (_currentIndex p)).
    { destruct r.
      - split; [reflexivity|].
        destruct (Ht eq_refl) as (i & a & Hi & Hidx' & _ & _ & _ & Hbefore).
        destruct (decide (i = 1)) as [->|Hi1]; [congruence|].
        destruct (Hbefore 1 ltac:(lia)) as (b' & Hb' & Hnot).
        rewrite Hslot in Hb'. rewrite Hb in Hb'. injection Hb' as <-. contradiction.
      - exfalso. destruct (Hf eq_refl) as [_ Hall].
        destruct (Hall 1 ltac:(lia)) as (b' & Hb' & Hnot).
        rewrite Hslot in Hb'. rewrite Hb in Hb'. injection Hb' as <-. contradiction. }
    destruct Hr as [-> ->].
    destruct (IH (S (_currentIndex p)) (mkPool accts (S (_currentIndex p)) (cooldownMs p))
                 t0 rest) as (p' & Hrun & Hidx' & Hall).
    + simpl. unfold accts. rewrite marked_length. lia.
    + reflexivity.
    + simpl. intros j a Ha. destruct (Hacc j a Ha) as [Hlow Hhigh].
      split; [intros Hj; apply Hlow; lia | intros Hj; apply Hhigh; lia].
    + simpl in Hlen. lia.
    + exact Hrest.
    + exists p'. simpl. rewrite Hcall, Hrun. split; [reflexivity|].
      split; [simpl in Hidx'; lia | exact Hall].
Qed.

(** X11. A pool of [N] accounts, none of them limited yet and the first
    one current, absorbs [N - 1] rate-limit reports that arrive within
    one cooldown window: each of them returns true and moves to the next
    account. The [N]-th report in the window returns false, the index
    stays on the last account, and every account is then limited to the
    end of the window at least. *)
Theorem fresh_pool_absorbs_reports (p : Pool) (t0 : Z) (reports : list Report) :
  accounts p <> [] -> _currentIndex p = 0 -> Forall Unlimited (accounts p) ->
  length reports = length (accounts p) ->
  Forall (in_window t0 (cooldownMs p)) reports ->
  exists p',
    rotations reports p
    = Some ((replicate (length (accounts p) - 1) true ++ [false])%list, p') /\
    _currentIndex p' = length (accounts p) - 1 /\
    Forall (fun a => exists u : Z,
              rateLimitedUntil a = Some (Js.Int u) /\ (t0 + cooldownMs p <= u)%Z)
           (accounts p').
Proof.
  intros Hne Hidx Hfresh Hlen Hwin.
  assert (HN : length (accounts p) = 0 + S (length (accounts p) - 1)).
  { destruct (accounts p); [congruence | simpl; lia]. }
  destruct (exhaust_from (length (accounts p) - 1) 0 p t0 reports HN Hidx) as (p' & H1 & H2 & H3).
  - intros j a Ha. split; [lia|]. intros _.
    rewrite Forall_lookup in Hfresh. exact (Hfresh j a Ha).
  - lia.
  - exact Hwin.
  - exists p'. split; [exact H1|]. split; [lia | exact H3].
Qed.

Lemma fresh_pool_absorbs_reports_witness :
  exists p',
    rotations [(None, 1000, 1001); (None, 5000, 5002)]%Z freshPool
    = Some ([true; false], p') /\
    _currentIndex p' = 1 /\
    Forall (fun a => exists u : Z,
              rateLimitedUntil a = Some (Js.Int u) /\ (1000 + 300000 <= u)%Z)
           (accounts p').
Proof.
  apply (fresh_pool_absorbs_reports freshPool 1000
           [(None, 1000, 1001); (None, 5000, 5002)]%Z).
  - discriminate.
  - reflexivity.
  - repeat constructor.
  - reflexivity.
  - repeat constructor; simpl; lia.
Defined.

(** *** The environment handed to the backend *)

Section Environment.

Variable pathJoin : list string -> string.
Variable existsSync : string -> bool.
Variable readFileSync : string -> option string.
Variable jsonParse : string -> option Json.

(** X12. From construction on and after any sequence of rate-limit
    reports, the pool hands out a sound environment: for an empty pool no
    override at all and the name [default]; otherwise exactly one
    override, [CLAUDE_CONFIG_DIR], whose value is the instance directory
    of the current account's sanitized name under the pool root, a
    directory that existed at construction, and the current name is one
    of the names the constructor resolved. *)
Theorem current_env_is_an_existing_instance
        (cooldown : Z) (CLAUDE_ACCOUNTS : option string) (ccsDir : string)
        (reports : list Report) :
  let names := resolveNames pathJoin existsSync readFileSync jsonParse CLAUDE_ACCOUNTS ccsDir in
  let p0 := newPool pathJoin existsSync readFileSync jsonParse cooldown CLAUDE_ACCOUNTS ccsDir in
  exists rs p,
    rotations reports p0 = Some (rs, p) /\
    (accountCount p0 = 0 ->
     getCurrentEnv p = empty /\ getCurrentName p = "default") /\
    (accountCount p0 <> 0 ->
     In (getCurrentName p) names /\
     existsSync (instanceDir pathJoin ccsDir (getCurrentName p)) = true /\
     getCurrentEnv p
     = {[ "CLAUDE_CONFIG_DIR" := instanceDir pathJoin ccsDir (getCurrentName p) ]}).
Proof.
  intros names p0.
  destruct (rotations_keep reports p0) as (rs & p & Hrun & _ & Hn & Hd & _ & Hv).
  exists rs, p. split; [exact Hrun|].
  assert (Hcount : length (accounts p) = length (accounts p0)).
  { rewrite <- (length_map name (accounts p)), Hn. apply length_map. }
  assert (Hvalid : IndexValid p).
  { apply Hv. unfold IndexValid, p0. simpl.
    destruct (buildAccounts _ _ _ _); [left; reflexivity | right; simpl; lia]. }
  unfold accountCount. split.
  - intros H0. rewrite H0 in Hcount. apply length_zero_iff_nil in Hcount.
    unfold getCurrentEnv, getCurrentName, currentAccount. rewrite Hcount.
    split; reflexivity.
  - intros Hne. destruct Hvalid as [Hnil | Hlt]; [rewrite Hnil in Hcount; cbn [length] in Hcount; lia|].
    destruct (lookup_lt_is_Some_2 _ _ Hlt) as [a Ha].
    assert (Hlt0 : _currentIndex p < length (accounts p0)) by lia.
    destruct (lookup_lt_is_Some_2 _ _ Hlt0) as [a0 Ha0].
    assert (Hname : name a = name a0).
    { assert (H : map name (accounts p) !! _currentIndex p
                  = map name (accounts p0) !! _currentIndex p) by (rewrite Hn; reflexivity).
      change (map name) with (fmap (M := list) name) in H.
      rewrite !list_lookup_fmap, Ha, Ha0 in H. injection H as H. exact H. }
    assert (Hdir : configDir a = configDir a0).
    { assert (H : map configDir (accounts p) !! _currentIndex p
                  = map configDir (accounts p0) !! _currentIndex p) by (rewrite Hd; reflexivity).
      change (map configDir) with (fmap (M := list) configDir) in H.
      rewrite !list_lookup_fmap, Ha, Ha0 in H. injection H as H. exact H. }
    assert (Hin : In a0 (buildAccounts pathJoin existsSync names ccsDir)).
    { apply list_elem_of_In. apply list_elem_of_lookup. exists (_currentIndex p). exact Ha0. }
    destruct (buildAccounts_dirs _ _ _ _ _ Hin) as (Hnm & Hcd & Hex & _).
    unfold getCurrentEnv, getCurrentName, currentAccount, instanceDir. rewrite Ha.
    rewrite Hname, Hdir. split; [exact Hnm|]. rewrite <- Hcd. split; [exact Hex | reflexivity].
Qed.

(** X13. The constructor keeps, in their order and with their
    repetitions, the resolved names whose instance directory exists; all
    accounts start unlimited and the first one is current. A
    [CLAUDE_ACCOUNTS] that is set and not empty is the only source
    consulted, even when it names no account, in which case the pool is
    empty. *)
Theorem newPool_accounts (cooldown : Z) (CLAUDE_ACCOUNTS : option string) (ccsDir : string) :
  let names := resolveNames pathJoin existsSync readFileSync jsonParse CLAUDE_ACCOUNTS ccsDir in
  let p0 := newPool pathJoin existsSync readFileSync jsonParse cooldown CLAUDE_ACCOUNTS ccsDir in
  map name (accounts p0)
  = filter (fun nm => existsSync (instanceDir pathJoin ccsDir nm) = true) names /\
  Forall Unlimited (accounts p0) /\
  _currentIndex p0 = 0 /\ cooldownMs p0 = cooldown /\
  (forall r, CLAUDE_ACCOUNTS = Some r -> r <> "" ->
     names = filter (fun s => s <> "") (map Js.trim (Js.split "," r))).
Proof.
  intros names p0. unfold p0, newPool. simpl. fold names.
  split; [|split; [|split; [reflexivity | split; [reflexivity|]]]].
  - induction names as [|nm rest IH]; [reflexivity|]. simpl.
    rewrite filter_cons.
    destruct (existsSync (instanceDir pathJoin ccsDir nm)) eqn:E.
    + rewrite decide_True by reflexivity. simpl. rewrite IH. reflexivity.
    + rewrite decide_False by congruence. exact IH.
  - induction names as [|nm rest IH]; [constructor|]. simpl.
    destruct (existsSync (instanceDir pathJoin ccsDir nm)); [constructor; [reflexivity|]|]; exact IH.
  - intros r -> Hr. unfold names, resolveNames, loadFromEnv.
    apply truthy_true in Hr. rewrite Hr.
    apply list_filter_iff. intros s. rewrite truthy_true. reflexivity.
Qed.

End Environment.

End PoolLifecycle.

(** ** The stream of a send *)

Module StreamFacts.

Import CopilotSession JsFacts SessionFacts.

Section Stream.

Variable T : Z.
Variable cb : Update -> bool.

(** *** What a send in flight does with an event *)

Lemma deliver_event_pending now ev st :
  Pending (send st) -> is_terminal (SigEvent ev) = false ->
  deliver T cb now (SigEvent ev) st = handleEvent T now ev st.
Proof.
  intros (_ & _ & Hall & _) Hnt. unfold deliver. rewrite Hall.
  destruct (handleEvent T now ev st) as [st1 out1] eqn:E.
  destruct ev; try discriminate; rewrite app_nil_r; reflexivity.
Qed.

Lemma nonterminal_is_event sig :
  is_terminal sig = false -> exists ev, sig = SigEvent ev.
Proof. destruct sig as [ev| |]; [exists ev; reflexivity | discriminate..]. Qed.

Lemma closedText_app (l1 l2 : list Update) :
  closedText (l1 ++ l2) = closedText l1 ++ closedText l2.
Proof.
  unfold closedText. rewrite List.filter_app, map_app.
  induction (map content (List.filter _ l1)) as [|x xs IH].
  - reflexivity.
  - change ((x :: xs) ++ ?l)%list with (x :: (xs ++ l))%list.
    rewrite !concat_empty_cons, IH, app_assoc_str. reflexivity.
Qed.

Lemma closedText_cons (u : Update) (l : list Update) :
  closedText (u :: l)
  = (if bool_decide (utype u = segment_end) then content u else "") ++ closedText l.
Proof.
  unfold closedText. cbn [List.filter].
  destruct (bool_decide (utype u = segment_end)); [apply concat_empty_cons | reflexivity].
Qed.

Lemma updates_app (o1 o2 : list (Z * Update)) :
  updates (o1 ++ o2) = (updates o1 ++ updates o2)%list.
Proof. apply map_app. Qed.

Lemma updates_stamp now (out : list Update) : updates (map (pair now) out) = out.
Proof. unfold updates. rewrite map_map. apply map_id. Qed.

(** One event on a send in flight: what the log closes and what the
    segment holds still make up the whole response. *)
Lemma handleEvent_text now ev st c :
  fullContent (send st) = c ++ seg_text (segment (send st)) ->
  fullContent (send (handleEvent T now ev st).1)
  = c ++ closedText (handleEvent T now ev st).2
      ++ seg_text (segment (send (handleEvent T now ev st).1)).
Proof.
  intros Hfc. destruct st as [m s]. simpl in Hfc. unfold handleEvent. cbn [mgr send].
  destruct ev; cbn -[String.append closedText];
    repeat match goal with
           | |- context [if ?b then _ else _] => destruct b eqn:?
           end;
    cbn -[String.append closedText];
    rewrite ?Hfc, ?app_assoc_str, ?app_empty_r; try reflexivity.
Qed.

Lemma run_text sigs : forall st c,
  Pending (send st) -> Forall (fun s => is_terminal s.2 = false) sigs ->
  fullContent (send st) = c ++ seg_text (segment (send st)) ->
  fullContent (send (run T cb sigs st).1)
  = c ++ closedText (updates (run T cb sigs st).2)
      ++ seg_text (segment (send (run T cb sigs st).1)).
Proof.
  induction sigs as [|[now sig] sigs IH]; intros st c HP Hnt Hfc.
  - simpl. exact Hfc.
  - inversion Hnt as [|? ? Hsig Hrest]; subst. simpl in Hsig.
    destruct (nonterminal_is_event sig Hsig) as [ev ->].
    rewrite run_cons, (deliver_event_pending now ev st HP Hsig).
    pose proof (handleEvent_text now ev st c Hfc) as Hstep.
    pose proof (handleEvent_pending T now ev st HP) as HP1.
    destruct (handleEvent T now ev st) as [st1 out1]. simpl in Hstep, HP1.
    rewrite <- app_assoc_str in Hstep.
    specialize (IH st1 _ HP1 Hrest Hstep).
    destruct (run T cb sigs st1) as [st2 outs]. simpl in IH |- *.
    rewrite IH, updates_app, updates_stamp, closedText_app, !app_assoc_str. reflexivity.
Qed.

(** The idle listener closes what the segment still holds. *)
Lemma onIdle_text now st :
  Pending (send st) ->
  fullContent (send (onIdle cb now st).1) = fullContent (send st) /\
  closedText (onIdle cb now st).2 = seg_text (segment (send st)) /\
  (forall v, In (Resolved v) (promise (send (onIdle cb now st).1)) ->
     In (Resolved v) (promise (send st)) \/ v = finalText (fullContent (send st))).
Proof.
  intros (Hs & _). unfold onIdle. rewrite (settle_pending _ Hs).
  cbn -[String.append closedText].
  assert (Hval : (if Js.truthy (fullContent (send st)) then fullContent (send st)
                  else "No response from Copilot.") = finalText (fullContent (send st)))
    by (unfold finalText; apply truthy_decide).
  rewrite Hval.
  assert (Hflush : forall rest,
            closedText (mkUpdate segment_end (seg_text (segment (send st)))
                          (Some (seg_id (segment (send st)))) :: rest)
            = seg_text (segment (send st)) ++ closedText rest)
    by (intros rest; apply closedText_cons).
  assert (Hfin : forall rest, closedText (mkUpdate done "" None :: rest) = closedText rest)
    by reflexivity.
  assert (Hnil : closedText [] = "") by reflexivity.
  assert (Hin : forall v, In (Resolved v)
                 (promise (send st) ++ [Resolved (finalText (fullContent (send st)))])%list ->
               In (Resolved v) (promise (send st)) \/ v = finalText (fullContent (send st))).
  { intros v H. apply in_app_or in H as [H | [[= <-] | []]]; [left; exact H | right; reflexivity]. }
  destruct (Js.truthy (seg_text (segment (send st)))) eqn:Ht.
  - destruct (cb _); [destruct (cb _)|]; cbn -[String.append closedText];
      rewrite ?Hflush, ?Hfin, ?Hnil, ?app_empty_r;
      (split; [reflexivity|]; split; [reflexivity|]); intros v H;
      first [exact (Hin v H) | left; exact H].
  - assert (Hempty : seg_text (segment (send st)) = "")
      by (destruct (seg_text (segment (send st))); [reflexivity | discriminate]).
    destruct (cb _); cbn -[String.append closedText];
      rewrite ?Hfin, ?Hnil, Hempty; (split; [reflexivity|]; split; [reflexivity|]);
      intros v H; first [exact (Hin v H) | left; exact H].
Qed.

(** X14. No text is lost between the backend and the chat. While a send
    is in flight, the response accumulated so far is the text the
    segment_end updates have closed, in order, followed by the text of
    the open segment. When the idle event ends the send, whatever the
    status callback does and whatever arrives later, the texts of the
    segment_end updates make up the whole response, and a resolved call
    returns their concatenation (the fallback message when it is
    empty). *)
Theorem no_text_lost (now0 : Z) (m : Manager) (pre : list (Z * Signal))
        (now : Z) (later : list (Z * Signal)) :
  Forall (fun s => is_terminal s.2 = false) pre ->
  let mid := run T cb pre (beginSend now0 m) in
  let r := run T cb (pre ++ (now, SigEvent session_idle) :: later) (beginSend now0 m) in
  fullContent (send mid.1)
  = closedText (updates mid.2) ++ seg_text (segment (send mid.1)) /\
  closedText (updates r.2) = fullContent (send r.1) /\
  (forall v, In (Resolved v) (promise (send r.1)) ->
     v = finalText (closedText (updates r.2))).
Proof.
  intros Hnt mid r.
  assert (HP0 : Pending (send (beginSend now0 m))) by (repeat split).
  pose proof (run_text pre (beginSend now0 m) "" HP0 Hnt eq_refl) as Hmid.
  destruct (run_nonterminal T cb pre _ Hnt HP0) as [HP1 Hprom].
  fold mid in Hmid, HP1, Hprom. change ("" ++ ?x) with x in Hmid.
  split; [exact Hmid|].
  unfold r. rewrite run_app. fold mid. destruct mid as [st1 out1].
  simpl in Hmid, HP1, Hprom.
  rewrite (run_terminal T cb now (SigEvent session_idle) later st1 HP1 eq_refl).
  rewrite (deliver_idle_pending T cb now st1 HP1).
  destruct (onIdle_text now st1 HP1) as (Hfc & Hclosed & Hres).
  destruct (onIdle cb now st1) as [st2 out2]. simpl in Hfc, Hclosed, Hres |- *.
  rewrite updates_app, updates_stamp, closedText_app, Hclosed, Hfc.
  split; [symmetry; exact Hmid|].
  intros v Hin. destruct (Hres v Hin) as [Hold | ->].
  - rewrite Hprom in Hold. destruct Hold.
  - rewrite Hmid. reflexivity.
Qed.

(** *** The done update *)

Lemma handleEvent_no_done now ev st : NoDone (handleEvent T now ev st).2.
Proof.
  unfold NoDone, handleEvent.
  destruct ev; cbn;
    repeat match goal with
           | |- context [if ?b then _ else _] => destruct b
           end;
    cbn; repeat constructor; discriminate.
Qed.

Lemma NoDone_app l1 l2 : NoDone l1 -> NoDone l2 -> NoDone (l1 ++ l2).
Proof. apply Forall_app_2. Qed.

Lemma EndsDone_app l1 l2 : NoDone l1 -> EndsDone l2 -> EndsDone (l1 ++ l2).
Proof.
  intros H1 (pre & -> & Hpre). exists (l1 ++ pre)%list.
  split; [apply app_assoc | apply NoDone_app; assumption].
Qed.

Lemma settled_over s :
  settled s = false -> Over (unsubscribe (settle s).2).
Proof. intros Hs. rewrite (settle_pending _ Hs). repeat split. Qed.

(** One signal on a send in flight. *)
Lemma deliver_done now sig st log :
  Pending (send st) -> promise (send st) = [] -> NoDone log ->
  DoneInv (send (deliver T cb now sig st).1) (log ++ (deliver T cb now sig st).2).
Proof.
  intros HP Hprom Hlog. pose proof HP as (Hs & _).
  assert (Hover : forall s1 p, Over (mkSend (fullContent s1) (receivedDelta s1) (segment s1)
                                       true false false false false p))
    by (intros; repeat split).
  assert (Hfin : EndsDone [doneUpdate]) by (exists []; split; [reflexivity | constructor]).
  destruct (is_terminal sig) eqn:Hterm.
  - destruct sig as [ev| |err]; [destruct ev; try discriminate|..].
    + (* idle *)
      rewrite (deliver_idle_pending T cb now st HP). unfold onIdle.
      rewrite (settle_pending _ Hs). cbn -[String.append]. rewrite Hprom.
      set (flush := mkUpdate segment_end _ _).
      assert (Hflush : NoDone [flush]) by (repeat constructor; discriminate).
      assert (Hboth : EndsDone [flush; doneUpdate])
        by (exists [flush]; split; [reflexivity | exact Hflush]).
      right.
      destruct (Js.truthy (seg_text (segment (send st))));
        [destruct (cb flush); [destruct (cb (mkUpdate done "" None))|]
        |destruct (cb (mkUpdate done "" None))];
        (split; [apply Hover|]); cbn -[String.append].
      * right. right. split; [eexists; reflexivity | apply EndsDone_app; assumption].
      * right. left. split; [reflexivity|]. right. apply EndsDone_app; assumption.
      * right. left. split; [reflexivity|]. left. apply NoDone_app; assumption.
      * right. right. split; [eexists; reflexivity | apply EndsDone_app; assumption].
      * right. left. split; [reflexivity|]. right. apply EndsDone_app; assumption.
    + (* error *)
      rewrite (deliver_error_pending T cb now message st HP). unfold onError.
      rewrite (settle_pending _ Hs). cbn -[String.append]. rewrite Hprom, app_nil_r.
      right. split; [apply Hover|]. left. split; [eexists; reflexivity | exact Hlog].
    + (* timer *)
      rewrite (deliver_timeout_pending T cb now st HP). unfold onTimeout.
      rewrite (settle_pending _ Hs). cbn -[String.append]. rewrite Hprom, app_nil_r.
      right. split; [apply Hover|]. left. split; [eexists; reflexivity | exact Hlog].
    + (* submission *)
      unfold deliver, onSendFailed.
      rewrite (settle_pending _ Hs). cbn -[String.append]. rewrite Hprom, app_nil_r.
      right. split; [apply Hover|]. left. split; [eexists; reflexivity | exact Hlog].
  - destruct sig as [ev| |err]; try discriminate.
    rewrite (deliver_event_pending now ev st HP Hterm). left.
    split; [apply handleEvent_pending; exact HP|]. split.
    + destruct (handleEvent_frame T now ev st) as (_ & _ & _ & _ & _ & Hp).
      rewrite Hp. exact Hprom.
    + apply NoDone_app; [exact Hlog | apply handleEvent_no_done].
Qed.

Lemma run_done sigs : forall st log,
  DoneInv (send st) log ->
  DoneInv (send (run T cb sigs st).1) (log ++ updates (run T cb sigs st).2).
Proof.
  induction sigs as [|[now sig] sigs IH]; intros st log Hinv.
  - simpl. rewrite app_nil_r. exact Hinv.
  - destruct Hinv as [(HP & Hprom & Hlog) | (Hover & Hrest)].
    + rewrite run_cons.
      pose proof (deliver_done now sig st log HP Hprom Hlog) as Hstep.
      destruct (deliver T cb now sig st) as [st1 out1]. simpl in Hstep.
      specialize (IH st1 _ Hstep). destruct (run T cb sigs st1) as [st2 outs].
      simpl in IH |- *. rewrite updates_app, updates_stamp, app_assoc. exact IH.
    + rewrite (run_over T cb _ st Hover). simpl. rewrite app_nil_r.
      right. split; assumption.
Qed.

Lemma EndsDone_last log : EndsDone log -> last log = Some doneUpdate.
Proof. intros (pre & -> & _). apply last_snoc. Qed.

Lemma EndsDone_lookup log i u :
  EndsDone log -> log !! i = Some u -> utype u = done ->
  u = doneUpdate /\ S i = length log.
Proof.
  intros (pre & -> & Hpre) Hi Hu. rewrite length_app. simpl.
  destruct (decide (i < length pre)) as [Hlt|Hge].
  - rewrite lookup_app_l in Hi by exact Hlt.
    unfold NoDone in Hpre. rewrite Forall_lookup in Hpre. destruct (Hpre i u Hi Hu).
  - rewrite lookup_app_r in Hi by lia.
    destruct (i - length pre) as [|n] eqn:E; simpl in Hi; [|destruct n; discriminate].
    injection Hi as <-. split; [reflexivity | lia].
Qed.

Lemma NoDone_lookup log i u :
  NoDone log -> log !! i = Some u -> utype u <> done.
Proof. unfold NoDone. rewrite Forall_lookup. intros H Hi. exact (H i u Hi). Qed.

Lemma NoDone_EndsDone log : NoDone log -> EndsDone log -> False.
Proof.
  intros Hno (pre & -> & _). unfold NoDone in Hno.
  apply Forall_app in Hno as [_ Hno]. inversion Hno as [|? ? Hd _]. apply Hd. reflexivity.
Qed.

(** X15. The done update ends the log and comes at most once: in every
    send and under every sequence of signals, whatever the status
    callback's promises do, an update of type done is the update
    [("done", "")] and nothing is emitted after it. A send that resolved
    has emitted it as its last update, and a send that rejected has never
    emitted it. *)
Theorem done_is_last_and_unique (sigs : list (Z * Signal)) (now0 : Z) (m : Manager) :
  let r := run T cb sigs (beginSend now0 m) in
  (forall i u, updates r.2 !! i = Some u -> utype u = done ->
     u = doneUpdate /\ S i = length (updates r.2)) /\
  (forall v, In (Resolved v) (promise (send r.1)) -> last (updates r.2) = Some doneUpdate) /\
  (forall e, In (Rejected e) (promise (send r.1)) -> NoDone (updates r.2)).
Proof.
  intros r.
  assert (H0 : DoneInv (send (beginSend now0 m)) []).
  { left. split; [repeat split|]. split; [reflexivity | constructor]. }
  pose proof (run_done sigs _ _ H0) as Hinv. fold r in Hinv. simpl in Hinv.
  destruct Hinv as [(_ & Hprom & Hlog) | (_ & [((e0 & Hprom) & Hlog)
                    | [(Hprom & Hlog) | ((v0 & Hprom) & Hlog)]])]; rewrite Hprom.
  - split; [|split]; [|intros ? []..].
    intros i u Hi Hu. destruct (NoDone_lookup _ i u Hlog Hi Hu).
  - split; [|split].
    + intros i u Hi Hu. destruct (NoDone_lookup _ i u Hlog Hi Hu).
    + intros v [[=]|[]].
    + intros e _. exact Hlog.
  - split; [|split]; [|intros ? []..].
    intros i u Hi Hu. destruct Hlog as [Hlog | Hlog].
    + destruct (NoDone_lookup _ i u Hlog Hi Hu).
    + exact (EndsDone_lookup _ i u Hlog Hi Hu).
  - split; [|split].
    + intros i u Hi Hu. exact (EndsDone_lookup _ i u Hlog Hi Hu).
    + intros v _. apply EndsDone_last. exact Hlog.
    + intros e [[=]|[]].
Qed.

(** *** What a send leaves alone *)

Lemma deliver_foreign now sig st :
  let m' := mgr (deliver T cb now sig st).1 in
  session m' = session (mgr st) /\ client m' = client (mgr st) /\
  interruptFlag m' = interruptFlag (mgr st) /\ stopRequested m' = stopRequested (mgr st) /\
  lastMessage m' = lastMessage (mgr st) /\ currentModel m' = currentModel (mgr st).
Proof.
  destruct st as [m s].
  destruct sig as [ev| |err]; [destruct ev|..];
    unfold deliver, handleEvent, onIdle, onError, onTimeout, onSendFailed, settle;
    cbn -[String.append];
    repeat match goal with
           | |- context [if ?b then _ else _] => destruct b; cbn -[String.append]
           end;
    repeat split.
Qed.

(** What no signal changes, no run changes. *)
Lemma run_keeps {A : Type} (f : Manager -> A) :
  (forall now sig st, f (mgr (deliver T cb now sig st).1) = f (mgr st)) ->
  forall sigs st, f (mgr (run T cb sigs st).1) = f (mgr st).
Proof.
  intros Hstep sigs. induction sigs as [|[now sig] sigs IH]; intros st; [reflexivity|].
  rewrite run_cons. specialize (Hstep now sig st).
  destruct (deliver T cb now sig st) as [st1 out1]. simpl in Hstep.
  specialize (IH st1). destruct (run T cb sigs st1) as [st2 outs]. simpl in IH |- *.
  rewrite IH. exact Hstep.
Qed.

(** What [ensureSession] touches: the client and the session, nothing
    else; the session it answers with is the one that was held, or else
    the one the backend created. *)
Lemma ensureSession_frame startOk created m :
  let r := ensureSession startOk created m in
  interruptFlag r.1 = interruptFlag m /\ lastMessage r.1 = lastMessage m /\
  currentModel r.1 = currentModel m /\ stopRequested r.1 = stopRequested m /\
  match r.2 with
  | Some s => session r.1 = Some s /\ client r.1 = true /\
              (session m = Some s \/ (session m = None /\ created = Some s))
  | None => session r.1 = session m
  end.
Proof.
  unfold ensureSession, ensureClient.
  destruct (client m) eqn:Hc; [|destruct startOk]; cbn [fst snd session set_client].
  - destruct (session m) as [s0|] eqn:Hs; [|destruct created as [s1|]]; cbn;
      rewrite ?Hs, ?Hc; repeat split; auto.
  - destruct (session m) as [s0|] eqn:Hs; [|destruct created as [s1|]]; cbn;
      rewrite ?Hs; repeat split; auto.
  - cbn. repeat split.
Qed.

(** X16. What a send does to the fields that belong to the session and
    to the handlers. No signal that reaches a send, in whatever state,
    changes the session handle, the client, the interrupt flag, the stop
    request, the stored last message or the model. For a call of
    [sendMessageStreaming] as a whole: the interrupt flag, the stored last
    message and the model are never changed; when the call gets its
    session it clears the stop request, which no signal sets again, it
    holds a started client and a session (the one that was held, if any,
    else the one the backend created), and no signal changes either; when
    [ensureSession] throws, the stop request and the session handle are
    what they were. *)
Theorem send_leaves_session_fields (startOk : bool) (created : option SdkSession)
        (now : Z) (sigs : list (Z * Signal)) (m : Manager) :
  (forall st : State,
     let m' := mgr (run T cb sigs st).1 in
     session m' = session (mgr st) /\ client m' = client (mgr st) /\
     interruptFlag m' = interruptFlag (mgr st) /\
     stopRequested m' = stopRequested (mgr st) /\
     lastMessage m' = lastMessage (mgr st) /\ currentModel m' = currentModel (mgr st)) /\
  match sendMessageStreaming startOk created now m with
  | inr st =>
      let m' := mgr (run T cb sigs st).1 in
      interruptFlag m' = interruptFlag m /\ lastMessage m' = lastMessage m /\
      currentModel m' = currentModel m /\
      stopRequested m' = false /\ client m' = true /\
      (exists s, session m' = Some s /\
                 (session m = Some s \/ (session m = None /\ created = Some s)))
  | inl m1 =>
      interruptFlag m1 = interruptFlag m /\ lastMessage m1 = lastMessage m /\
      currentModel m1 = currentModel m /\
      stopRequested m1 = stopRequested m /\ session m1 = session m
  end.
Proof.
  assert (Hrun : forall st : State,
            session (mgr (run T cb sigs st).1) = session (mgr st) /\
            client (mgr (run T cb sigs st).1) = client (mgr st) /\
            interruptFlag (mgr (run T cb sigs st).1) = interruptFlag (mgr st) /\
            stopRequested (mgr (run T cb sigs st).1) = stopRequested (mgr st) /\
            lastMessage (mgr (run T cb sigs st).1) = lastMessage (mgr st) /\
            currentModel (mgr (run T cb sigs st).1) = currentModel (mgr st)).
  { intros st. repeat split; apply run_keeps; intros now' sig st0;
      destruct (deliver_foreign now' sig st0) as (H1 & H2 & H3 & H4 & H5 & H6); assumption. }
  split; [exact Hrun|].
  unfold sendMessageStreaming.
  pose proof (ensureSession_frame startOk created m) as Hens. cbn zeta in Hens.
  destruct (ensureSession startOk created m) as [m1 [s|]]; cbn [fst snd] in Hens.
  - destruct Hens as (Hi & Hl & Hm & _ & Hs & Hc & Hfrom).
    destruct (Hrun (beginSend now m1)) as (H1 & H2 & H3 & H4 & H5 & H6).
    cbn zeta. rewrite H1, H2, H3, H4, H5, H6. cbn.
    split; [exact Hi|]. split; [exact Hl|]. split; [exact Hm|].
    split; [reflexivity|]. split; [exact Hc|]. exists s. split; [exact Hs | exact Hfrom].
  - destruct Hens as (Hi & Hl & Hm & Hr & Hs).
    split; [exact Hi|]. split; [exact Hl|]. split; [exact Hm|]. split; [exact Hr | exact Hs].
Qed.

(** *** The processing flag *)

Lemma deliver_flags now sig st q :
  Pending (send st) -> _isProcessing (mgr st) = true -> queryStarted (mgr st) = Some q ->
  let st' := (deliver T cb now sig st).1 in
  (Pending (send st') /\ _isProcessing (mgr st') = true /\ queryStarted (mgr st') = Some q) \/
  (Over (send st') /\ _isProcessing (mgr st') = false /\ queryStarted (mgr st') = None).
Proof.
  intros HP Hproc Hq. pose proof HP as (Hs & _).
  destruct (is_terminal sig) eqn:Hterm.
  - right. split; [exact (proj1 (deliver_terminal T cb now sig st Hterm HP))|].
    destruct sig as [ev| |err]; [destruct ev; try discriminate|..].
    + rewrite (deliver_idle_pending T cb now st HP). unfold onIdle.
      rewrite (settle_pending _ Hs). cbn -[String.append].
      repeat match goal with
             | |- context [if ?b then _ else _] => destruct b; cbn -[String.append]
             end; split; reflexivity.
    + rewrite (deliver_error_pending T cb now message st HP). unfold onError.
      rewrite (settle_pending _ Hs). split; reflexivity.
    + rewrite (deliver_timeout_pending T cb now st HP). unfold onTimeout.
      rewrite (settle_pending _ Hs). split; reflexivity.
    + unfold deliver, onSendFailed. rewrite (settle_pending _ Hs). split; reflexivity.
  - left. destruct sig as [ev| |err]; try discriminate.
    rewrite (deliver_event_pending now ev st HP Hterm).
    split; [apply handleEvent_pending; exact HP|].
    destruct st as [m s]. simpl in Hproc, Hq.
    destruct ev; unfold handleEvent; cbn -[String.append];
      repeat match goal with
             | |- context [if ?b then _ else _] => destruct b; cbn -[String.append]
             end; split; assumption.
Qed.

Lemma run_flags sigs : forall st q,
  Pending (send st) -> _isProcessing (mgr st) = true -> queryStarted (mgr st) = Some q ->
  let st' := (run T cb sigs st).1 in
  (Pending (send st') /\ _isProcessing (mgr st') = true /\ queryStarted (mgr st') = Some q) \/
  (Over (send st') /\ _isProcessing (mgr st') = false /\ queryStarted (mgr st') = None).
Proof.
  induction sigs as [|[now sig] sigs IH]; intros st q HP Hproc Hq.
  - left. simpl. repeat split; try assumption; apply HP.
  - rewrite run_cons. pose proof (deliver_flags now sig st q HP Hproc Hq) as Hstep.
    destruct (deliver T cb now sig st) as [st1 out1]. simpl in Hstep.
    destruct Hstep as [(HP1 & Hproc1 & Hq1) | (Hover & Hproc1 & Hq1)].
    + specialize (IH st1 q HP1 Hproc1 Hq1). destruct (run T cb sigs st1) as [st2 outs].
      exact IH.
    + rewrite (run_over T cb sigs st1 Hover). right. simpl. repeat split; try assumption;
        apply Hover.
Qed.

(** X17. The processing flag follows the latch of the send. From the
    start of a send and under every sequence of signals: as long as the
    latch is open the manager reports a running query, started at the
    clock reading of the start, with the timer armed and the three
    listeners subscribed; once the latch is set the manager reports no
    running query and no start time, the timer is cleared and the
    listeners are gone. *)
Theorem processing_flag_follows_latch (sigs : list (Z * Signal)) (now0 : Z) (m : Manager) :
  let st' := (run T cb sigs (beginSend now0 m)).1 in
  (settled (send st') = false ->
   isRunning (mgr st') = true /\ queryStarted (mgr st') = Some now0 /\ Pending (send st')) /\
  (settled (send st') = true ->
   isRunning (mgr st') = false /\ queryStarted (mgr st') = None /\ Over (send st')).
Proof.
  intros st'.
  assert (HP : Pending (send (beginSend now0 m))) by (repeat split).
  pose proof (run_flags sigs (beginSend now0 m) now0 HP eq_refl eq_refl) as Hrun.
  cbn zeta in Hrun. fold st' in Hrun.
  destruct Hrun as [(HP' & Hproc & Hq) | (Hover & Hproc & Hq)].
  - split; [intros _; split; [exact Hproc | split; [exact Hq | exact HP']]|].
    intros Hs. destruct HP' as (Hs' & _). congruence.
  - split; [|intros _; split; [exact Hproc | split; [exact Hq | exact Hover]]].
    intros Hs. destruct Hover as (Hs' & _). congruence.
Qed.

(** *** Bookkeeping events *)

Lemma deliver_bookkeeping now sig st :
  is_bookkeeping sig = true ->
  send (deliver T cb now sig st).1 = send st /\ (deliver T cb now sig st).2 = [].
Proof.
  destruct st as [m s]. destruct sig as [ev| |err]; try discriminate.
  destruct ev; try discriminate; intros _; unfold deliver, handleEvent; cbn;
    destruct (subAll s); split; reflexivity.
Qed.

(** The closure and the updates depend on the closure only. *)
Lemma deliver_closure now sig st1 st2 :
  send st1 = send st2 ->
  send (deliver T cb now sig st1).1 = send (deliver T cb now sig st2).1 /\
  (deliver T cb now sig st1).2 = (deliver T cb now sig st2).2.
Proof.
  destruct st1 as [m1 s1], st2 as [m2 s2]. simpl. intros ->.
  destruct sig as [ev| |err]; [destruct ev|..];
    unfold deliver, handleEvent, onIdle, onError, onTimeout, onSendFailed, settle;
    cbn -[String.append];
    repeat match goal with
           | |- context [if ?b then _ else _] => destruct b; cbn -[String.append]
           end;
    split; reflexivity.
Qed.

Lemma run_closure sigs : forall st1 st2,
  send st1 = send st2 ->
  send (run T cb sigs st1).1 = send (run T cb sigs st2).1 /\
  (run T cb sigs st1).2 = (run T cb sigs st2).2.
Proof.
  induction sigs as [|[now sig] sigs IH]; intros st1 st2 Heq; [split; [exact Heq | reflexivity]|].
  rewrite !run_cons. destruct (deliver_closure now sig st1 st2 Heq) as [Hs Ho].
  destruct (deliver T cb now sig st1) as [st1' out1].
  destruct (deliver T cb now sig st2) as [st2' out2]. simpl in Hs, Ho. subst out2.
  destruct (IH st1' st2' Hs) as [Hs' Ho'].
  destruct (run T cb sigs st1') as [st1'' outs1].
  destruct (run T cb sigs st2') as [st2'' outs2]. simpl in Hs', Ho' |- *.
  subst outs2. split; [exact Hs' | reflexivity].
Qed.

(** X18. Bookkeeping events do not disturb the stream: the end of a
    tool run, usage reports, title changes and events the manager does
    not know can be dropped from any sequence of signals without changing
    the updates the status callback receives, their clock readings, the
    text and the segments of the send, or what the promise is told. *)
Theorem bookkeeping_events_do_not_disturb (sigs : list (Z * Signal)) (st : State) :
  send (run T cb sigs st).1 = send (run T cb (essential sigs) st).1 /\
  (run T cb sigs st).2 = (run T cb (essential sigs) st).2.
Proof.
  revert st. induction sigs as [|[now sig] sigs IH]; intros st; [split; reflexivity|].
  unfold essential. cbn [List.filter Datatypes.snd negb]. fold (essential sigs).
  change ((now, sig).2) with sig.
  destruct (is_bookkeeping sig) eqn:Hb; cbn [negb].
  - rewrite run_cons. destruct (deliver_bookkeeping now sig st Hb) as [Hs Ho].
    destruct (deliver T cb now sig st) as [st1 out1]. simpl in Hs, Ho. subst out1.
    destruct (run_closure sigs st1 st Hs) as [Hs' Ho'].
    destruct (IH st) as [IH1 IH2].
    destruct (run T cb sigs st1) as [st2 outs]. simpl in Hs', Ho' |- *.
    rewrite Hs', Ho'. split; assumption.
  - rewrite !run_cons. destruct (deliver T cb now sig st) as [st1 out1].
    destruct (IH st1) as [IH1 IH2].
    destruct (run T cb sigs st1) as [st2 outs].
    destruct (run T cb (essential sigs) st1) as [st2' outs']. simpl in IH1, IH2 |- *.
    subst outs'. split; [exact IH1 | reflexivity].
Qed.

(** *** Streamed text *)

Lemma is_prefix_refl a : is_prefix a a.
Proof. exists "". symmetry. apply app_empty_r. Qed.

Lemma is_prefix_app a b d : is_prefix a b -> is_prefix a (b ++ d).
Proof. intros [t ->]. exists (t ++ d). apply app_assoc_str. Qed.

Lemma is_prefix_empty a : is_prefix a "" -> a = "".
Proof. intros [t H]. destruct a; [reflexivity | discriminate]. Qed.

Lemma app_nonempty_r (a b : string) : b <> "" -> a ++ b <> "".
Proof.
  intros Hb H. destruct a; [exact (Hb H) | discriminate].
Qed.

Lemma long_nonempty (s : string) : 20 < String.length s -> s <> "".
Proof. intros H ->. simpl in H. lia. Qed.

Lemma ClosedBy_more log out u k : ClosedBy log u k -> ClosedBy (log ++ out) u k.
Proof.
  intros (e & Hin & H). exists e. split; [apply in_or_app; left; exact Hin | exact H].
Qed.

Lemma closings_quiet k (out : list Update) :
  Forall (fun u => utype u <> segment_end) out -> closings k out = 0.
Proof.
  intros H. apply closings_none. eapply Forall_impl; [exact H|].
  intros u Hu. unfold closes. rewrite bool_decide_eq_false_2 by exact Hu. reflexivity.
Qed.

(** The segment keeps its id and its text grows: updates that are not
    segment_end updates, and text updates that carry the new text, keep
    the invariant. *)
Lemma TextInv_grow log seg seg' out :
  seg_id seg' = seg_id seg -> is_prefix (seg_text seg) (seg_text seg') ->
  Forall (fun u => utype u <> segment_end /\
                   (utype u = text ->
                    content u <> "" /\ segmentId u = Some (seg_id seg) /\
                    content u = seg_text seg')) out ->
  TextInv log seg -> TextInv (log ++ out) seg'.
Proof.
  intros Hid [d Hd] Hout [Htext Hclose]. split.
  - intros u Hin Hu. apply in_app_or in Hin as [Hin | Hin].
    + destruct (Htext u Hin Hu) as (Hne & k & Hk & Hcase). split; [exact Hne|].
      exists k. split; [exact Hk|]. rewrite Hid.
      destruct Hcase as [[-> Hp] | [Hlt Hc]].
      * left. split; [reflexivity|]. rewrite Hd. apply is_prefix_app. exact Hp.
      * right. split; [exact Hlt | apply ClosedBy_more; exact Hc].
    + rewrite Forall_forall in Hout. apply list_elem_of_In in Hin.
      destruct (Hout u Hin) as [_ Hnew]. destruct (Hnew Hu) as (Hne & Hk & Hc).
      split; [exact Hne|]. exists (seg_id seg). split; [exact Hk|]. left.
      rewrite Hid. split; [reflexivity|]. rewrite Hc. apply is_prefix_refl.
  - intros k. rewrite closings_app, (closings_quiet k out), Hid, Nat.add_0_r;
      [apply Hclose|].
    eapply Forall_impl; [exact Hout|]. intros u [Hu _]. exact Hu.
Qed.

(** A segment_end update that closes the open segment on its text, the
    segment moving on or not. *)
Lemma TextInv_close log seg extra next :
  seg_id seg <= next ->
  Forall (fun u => utype u <> segment_end /\ utype u <> text) extra ->
  TextInv log seg ->
  let log' := (log ++ mkUpdate segment_end (seg_text seg) (Some (seg_id seg)) :: extra)%list in
  (forall u, In u log' -> utype u = text ->
     content u <> "" /\
     exists k, segmentId u = Some k /\ k <= seg_id seg /\ ClosedBy log' u k) /\
  (forall k, closings k log' <= 1 /\ (seg_id seg < k -> closings k log' = 0)) /\
  closings (seg_id seg) log' = 1.
Proof.
  intros Hnext Hextra [Htext Hclose] log'.
  set (flush := mkUpdate segment_end (seg_text seg) (Some (seg_id seg))).
  assert (Hflush : In flush log') by (apply in_or_app; right; left; reflexivity).
  assert (Hquiet : forall k, closings k extra = 0).
  { intros k. apply closings_quiet. eapply Forall_impl; [exact Hextra|].
    intros u [Hu _]. exact Hu. }
  assert (Hcount : forall k, closings k log'
                     = closings k log + (if decide (k = seg_id seg) then 1 else 0)).
  { intros k. unfold log'. rewrite closings_app. f_equal.
    specialize (Hquiet k). unfold closings in *. cbn [List.filter].
    unfold closes at 1. cbn [utype segmentId flush].
    rewrite (bool_decide_eq_true_2 (segment_end = segment_end)) by reflexivity.
    destruct (decide (k = seg_id seg)) as [->|Hne].
    - rewrite bool_decide_eq_true_2 by reflexivity. simpl. rewrite Hquiet. reflexivity.
    - rewrite bool_decide_eq_false_2 by congruence. simpl. exact Hquiet. }
  split; [|split].
  - intros u Hin Hu. apply in_app_or in Hin as [Hin | [<- | Hin]].
    + destruct (Htext u Hin Hu) as (Hne & k & Hk & Hcase). split; [exact Hne|].
      exists k. split; [exact Hk|].
      destruct Hcase as [[-> Hp] | [Hlt Hc]].
      * split; [lia|]. exists flush. repeat split; [exact Hflush | exact Hp].
      * split; [lia | apply ClosedBy_more; exact Hc].
    + discriminate.
    + rewrite Forall_forall in Hextra. apply list_elem_of_In in Hin.
      destruct (Hextra u Hin) as [_ Hnt]. contradiction.
  - intros k. rewrite Hcount. destruct (Hclose k) as [Hle Hzero].
    destruct (decide (k = seg_id seg)) as [->|Hne].
    + rewrite Hzero by lia. split; [lia|]. intros ?. lia.
    + split; [lia|]. intros Hlt. rewrite Hzero by lia. reflexivity.
  - rewrite Hcount. destruct (Hclose (seg_id seg)) as [_ Hzero].
    rewrite Hzero by lia. rewrite decide_True by reflexivity. reflexivity.
Qed.

Lemma handleEvent_textinv now ev st log :
  TextInv log (segment (send st)) ->
  TextInv (log ++ (handleEvent T now ev st).2) (segment (send (handleEvent T now ev st).1)).
Proof.
  intros Hinv. destruct st as [m s]. cbn [send] in Hinv.
  assert (Hsame : forall out,
            Forall (fun u => utype u <> segment_end /\ utype u <> text) out ->
            TextInv (log ++ out) (segment s)).
  { intros out Hout. apply (TextInv_grow log (segment s)); [reflexivity | apply is_prefix_refl | | exact Hinv].
    eapply Forall_impl; [exact Hout|]. intros u [H1 H2]. split; [exact H1 | contradiction]. }
  assert (Hnil : TextInv (log ++ []) (segment s)) by (apply Hsame; constructor).
  destruct ev as [deltaContent|body|toolName| | | | | | |]; unfold handleEvent; cbn [mgr send].
  - (* delta *)
    destruct ((now - seg_lastUpdate (segment s) >? T)%Z
              && (20 <? String.length (seg_text (segment s) ++ deltaContent))%nat) eqn:Hc;
      cbn [fst snd send segment set_hooks].
    + apply andb_true_iff in Hc as [_ Hlen]. apply Nat.ltb_lt in Hlen.
      apply (TextInv_grow log (segment s)); [reflexivity | exists deltaContent; reflexivity | | exact Hinv].
      constructor; [|constructor]. split; [discriminate|]. intros _.
      split; [apply long_nonempty; exact Hlen | split; reflexivity].
    + apply (TextInv_grow log (segment s)); [reflexivity | exists deltaContent; reflexivity | | exact Hinv].
      constructor.
  - (* complete message *)
    destruct (negb (receivedDelta s) && Js.truthy body) eqn:Hc;
      cbn [fst snd send segment set_hooks]; [|exact Hnil].
    apply andb_true_iff in Hc as [_ Hbody]. apply truthy_true in Hbody.
    apply (TextInv_grow log (segment s)); [reflexivity | exists body; reflexivity | | exact Hinv].
    constructor; [|constructor]. split; [discriminate|]. intros _.
    split; [apply app_nonempty_r; exact Hbody | split; reflexivity].
  - (* tool start *)
    destruct (Js.truthy (seg_text (segment s))) eqn:Ht; cbn [fst snd send segment set_hooks].
    + destruct (TextInv_close log (segment s)
                  [mkUpdate tool ("⚙️ " ++ toolName) None] (S (seg_id (segment s))))
        as (Htext & Hclose & Hone); [lia | repeat constructor; discriminate | exact Hinv |].
      split.
      * intros u Hin Hu. destruct (Htext u Hin Hu) as (Hne & k & Hk & Hle & Hcl).
        split; [exact Hne|]. exists k. split; [exact Hk|]. right. cbn [seg_id].
        split; [lia | exact Hcl].
      * intros k. destruct (Hclose k) as [Hle Hzero]. split; [exact Hle|].
        cbn [seg_id]. intros Hk. apply Hzero. lia.
    + apply Hsame. repeat constructor; discriminate.
  - exact Hnil.
  - exact Hnil.
  - exact Hnil.
  - apply Hsame. repeat constructor; discriminate.
  - exact Hnil.
  - exact Hnil.
  - exact Hnil.
Qed.

Lemma run_textinv sigs : forall st log,
  Pending (send st) -> Forall (fun s => is_terminal s.2 = false) sigs ->
  TextInv log (segment (send st)) ->
  TextInv (log ++ updates (run T cb sigs st).2) (segment (send (run T cb sigs st).1)).
Proof.
  induction sigs as [|[now sig] sigs IH]; intros st log HP Hnt Hinv.
  - simpl. rewrite app_nil_r. exact Hinv.
  - inversion Hnt as [|? ? Hsig Hrest]; subst. simpl in Hsig.
    destruct sig as [ev| |err]; try discriminate.
    rewrite run_cons, (deliver_event_pending now ev st HP Hsig).
    pose proof (handleEvent_textinv now ev st log Hinv) as Hstep.
    pose proof (handleEvent_pending T now ev st HP) as HP1.
    destruct (handleEvent T now ev st) as [st1 out1]. simpl in Hstep, HP1.
    specialize (IH st1 _ HP1 Hrest Hstep).
    destruct (run T cb sigs st1) as [st2 outs]. simpl in IH |- *.
    rewrite updates_app, updates_stamp, app_assoc. exact IH.
Qed.

(** What the idle listener emits, and the segment it leaves. *)
Lemma onIdle_out now st :
  Pending (send st) ->
  exists extra,
    Forall (fun u => utype u <> segment_end /\ utype u <> text) extra /\
    (onIdle cb now st).2
    = (if Js.truthy (seg_text (segment (send st)))
       then mkUpdate segment_end (seg_text (segment (send st)))
              (Some (seg_id (segment (send st)))) :: extra
       else extra).
Proof.
  intros (Hs & _). unfold onIdle. rewrite (settle_pending _ Hs). cbn -[String.append].
  assert (Hfin : Forall (fun u => utype u <> segment_end /\ utype u <> text)
                   [mkUpdate done "" None])
    by (repeat constructor; discriminate).
  destruct (Js.truthy (seg_text (segment (send st)))).
  - destruct (cb _); [destruct (cb _)|]; cbn;
      [exists [mkUpdate done "" None] | exists [mkUpdate done "" None] | exists []];
      (split; [first [exact Hfin | constructor] | reflexivity]).
  - destruct (cb _); cbn; exists [mkUpdate done "" None]; (split; [exact Hfin | reflexivity]).
Qed.

(** X19. Streamed text is never retracted. In a send that the idle
    event ends, whatever the status callback does and whatever arrives
    later, every text update is not empty, carries the id of a segment
    that exactly one segment_end update of the log closes, and the text
    of that segment_end update extends the text of the text update. No
    segment is closed twice. *)
Theorem streamed_text_is_closed_once (now0 : Z) (m : Manager) (pre : list (Z * Signal))
        (now : Z) (later : list (Z * Signal)) :
  Forall (fun s => is_terminal s.2 = false) pre ->
  let log := updates (run T cb (pre ++ (now, SigEvent session_idle) :: later)
                        (beginSend now0 m)).2 in
  (forall u, In u log -> utype u = text ->
     content u <> "" /\
     exists k, segmentId u = Some k /\ closings k log = 1 /\ ClosedBy log u k) /\
  (forall k, closings k log <= 1).
Proof.
  intros Hnt log.
  assert (HP0 : Pending (send (beginSend now0 m))) by (repeat split).
  assert (H0 : TextInv [] (segment (send (beginSend now0 m)))).
  { split; [intros u []|]. intros k. split; [unfold closings; simpl; lia | reflexivity]. }
  pose proof (run_textinv pre _ [] HP0 Hnt H0) as Hinv.
  destruct (run_nonterminal T cb pre _ Hnt HP0) as [HP1 _].
  unfold log. rewrite run_app. destruct (run T cb pre (beginSend now0 m)) as [st1 out1].
  simpl in Hinv, HP1.
  rewrite (run_terminal T cb now (SigEvent session_idle) later st1 HP1 eq_refl).
  rewrite (deliver_idle_pending T cb now st1 HP1).
  destruct (onIdle_out now st1 HP1) as (extra & Hextra & Hout).
  destruct (onIdle cb now st1) as [st2 out2]. simpl in Hout |- *.
  rewrite updates_app, updates_stamp, Hout.
  destruct (Js.truthy (seg_text (segment (send st1)))) eqn:Ht.
  - destruct (TextInv_close (updates out1) (segment (send st1)) extra
                (seg_id (segment (send st1))))
      as (Htext & Hclose & Hone); [lia | exact Hextra | exact Hinv |].
    split; [|intros k; apply Hclose].
    intros u Hin Hu. destruct (Htext u Hin Hu) as (Hne & k & Hk & Hle & Hcl).
    split; [exact Hne|]. exists k. split; [exact Hk|]. split; [|exact Hcl].
    destruct Hcl as (e & He & Hty & Hid & _).
    destruct (Hclose k) as [Hle1 _].
    assert (0 < closings k (updates out1 ++
              mkUpdate segment_end (seg_text (segment (send st1)))
                (Some (seg_id (segment (send st1)))) :: extra)); [|lia].
    unfold closings.
    assert (Hf : In e (List.filter (closes k) (updates out1 ++
              mkUpdate segment_end (seg_text (segment (send st1)))
                (Some (seg_id (segment (send st1)))) :: extra))).
    { apply filter_In. split; [exact He|].
      unfold closes. rewrite !bool_decide_eq_true_2 by assumption. reflexivity. }
    destruct (List.filter _ _); [destruct Hf | simpl; lia].
  - assert (Hempty : seg_text (segment (send st1)) = "")
      by (destruct (seg_text (segment (send st1))); [reflexivity | discriminate]).
    assert (Hinv' : TextInv (updates out1 ++ extra) (segment (send st1))).
    { apply (TextInv_grow _ (segment (send st1))); [reflexivity | apply is_prefix_refl | | exact Hinv].
      eapply Forall_impl; [exact Hextra|]. intros u [H1 H2]. split; [exact H1 | contradiction]. }
    destruct Hinv' as [Htext Hclose]. split; [|intros k; apply Hclose].
    intros u Hin Hu. destruct (Htext u Hin Hu) as (Hne & k & Hk & Hcase).
    split; [exact Hne|]. exists k. split; [exact Hk|].
    destruct Hcase as [[_ Hp] | [_ Hcl]].
    + rewrite Hempty in Hp. apply is_prefix_empty in Hp. contradiction.
    + split; [|exact Hcl]. destruct Hcl as (e & He & Hty & Hid & _).
      destruct (Hclose k) as [Hle1 _].
      assert (0 < closings k (updates out1 ++ extra)); [|lia].
      unfold closings.
      assert (Hf : In e (List.filter (closes k) (updates out1 ++ extra))).
      { apply filter_In. split; [exact He|].
        unfold closes. rewrite !bool_decide_eq_true_2 by assumption. reflexivity. }
      destruct (List.filter _ _); [destruct Hf | simpl; lia].
Qed.

End Stream.

(** The worked send, with its tool start: the two segment_end updates
    carry the whole response. *)
Lemma no_text_lost_witness :
  Forall (fun s => is_terminal s.2 = false) demoTooled /\
  closedText (updates (run 500 acceptAll (demoTooled ++ [(2400%Z, SigEvent session_idle)])
                         (beginSend 0 newManager)).2)
  = "Intro and more. thirty characters of prose...The answer continues after the tool." /\
  forall v,
    In (Resolved v)
       (promise (send (run 500 acceptAll (demoTooled ++ [(2400%Z, SigEvent session_idle)])
                         (beginSend 0 newManager)).1)) ->
    v = "Intro and more. thirty characters of prose...The answer continues after the tool.".
Proof.
  assert (Hpre : Forall (fun s => is_terminal s.2 = false) demoTooled)
    by (repeat constructor).
  split; [exact Hpre|].
  destruct (no_text_lost 500 acceptAll 0 newManager demoTooled 2400 [] Hpre)
    as (_ & Hall & Hres).
  split.
  - rewrite Hall. reflexivity.
  - intros v Hv. rewrite (Hres v Hv), Hall. reflexivity.
Defined.

(** The worked send: the text update of its second segment is closed
    by the one segment_end update of that segment. *)
Lemma streamed_text_is_closed_once_witness :
  Forall (fun s => is_terminal s.2 = false) demoTooled /\
  exists k,
    segmentId (mkUpdate text "The answer continues after the tool." (Some 1)) = Some k /\
    closings k (updates (run 500 acceptAll (demoTooled ++ [(2400%Z, SigEvent session_idle)])
                           (beginSend 0 newManager)).2) = 1.
Proof.
  assert (Hpre : Forall (fun s => is_terminal s.2 = false) demoTooled)
    by (repeat constructor).
  split; [exact Hpre|].
  destruct (streamed_text_is_closed_once 500 acceptAll 0 newManager demoTooled 2400 [] Hpre)
    as [Htext _].
  destruct (Htext (mkUpdate text "The answer continues after the tool." (Some 1)))
    as (_ & k & Hk & Hone & _).
  - vm_compute. auto 10.
  - reflexivity.
  - exists k. split; [exact Hk | exact Hone].
Defined.

End StreamFacts.

(** ** The manager over its life *)

Module LifeFacts.

Import CopilotSession JsFacts SessionFacts StreamFacts.

Section Life.

Variable T : Z.
Variable cb : Update -> bool.

(** *** The session and its client *)

Lemma ensureSession_cases startOk created m :
  (session m <> None -> client m = true) ->
  let r := ensureSession startOk created m in
  interruptFlag r.1 = interruptFlag m /\
  (session r.1 <> None -> client r.1 = true) /\
  match r.2 with
  | Some s => session r.1 = Some s /\ client r.1 = true /\
              (forall s0, session m = Some s0 -> s = s0 /\ r.1 = m)
  | None => session m = None
  end.
Proof.
  intros Hinv. unfold ensureSession, ensureClient.
  destruct (client m) eqn:Hc.
  - destruct (session m) as [s|] eqn:Hs; cbn; rewrite ?Hs, ?Hc.
    + split; [reflexivity|]. split; [reflexivity|].
      split; [reflexivity|]. split; [reflexivity|]. intros s0 [= ->]. split; reflexivity.
    + destruct created as [s|]; cbn; rewrite ?Hs, ?Hc.
      * split; [reflexivity|]. split; [reflexivity|].
        split; [reflexivity|]. split; [reflexivity|]. intros s0 Hs0. congruence.
      * split; [reflexivity|]. split; [congruence | reflexivity].
  - assert (Hs : session m = None).
    { destruct (session m) eqn:E; [|reflexivity].
      specialize (Hinv ltac:(discriminate)). congruence. }
    destruct startOk; cbn; rewrite ?Hs.
    + destruct created as [s|]; cbn; rewrite ?Hs.
      * split; [reflexivity|]. split; [reflexivity|].
        split; [reflexivity|]. split; [reflexivity|]. intros s0 Hs0. congruence.
      * split; [reflexivity|]. split; [congruence | reflexivity].
    + split; [reflexivity|]. split; [congruence | reflexivity].
Qed.

Lemma apply_op_client op m :
  (session m <> None -> client m = true) ->
  session (apply_op T cb op m) <> None -> client (apply_op T cb op m) = true.
Proof.
  intros Hinv. destruct op; cbn [apply_op].
  - unfold sendMessageStreaming.
    destruct (ensureSession_cases startOk created m Hinv) as (_ & Hinv1 & Hres).
    destruct (ensureSession startOk created m) as [m1 [s|]]; cbn in Hinv1, Hres |- *.
    + rewrite (run_keeps T cb session
                 (fun now' sig st' => proj1 (deliver_foreign T cb now' sig st'))),
              (run_keeps T cb client
                 (fun now' sig st' => proj1 (proj2 (deliver_foreign T cb now' sig st')))).
      cbn. exact Hinv1.
    + exact Hinv1.
  - destruct (deliver_foreign T cb now sig {| mgr := m; send := closure |})
      as (H1 & H2 & _).
    cbn zeta in H1, H2. cbn [mgr] in H1, H2. rewrite H1, H2. exact Hinv.
  - unfold stop. destruct (_isProcessing m && isActive m); cbn; exact Hinv.
  - unfold kill. destruct (session m) eqn:Hs; [destruct destroyOk|]; cbn; rewrite ?Hs;
      intros H; exfalso; apply H; reflexivity.
  - unfold shutdown, kill.
    destruct (session m) eqn:Hs; [destruct destroyOk|]; cbn; destruct (client m); cbn;
      try destruct stopOk; cbn; rewrite ?Hs; intros H; exfalso; apply H; reflexivity.
  - exact Hinv.
  - exact Hinv.
  - exact Hinv.
  - exact Hinv.
  - exact Hinv.
  - exact Hinv.
  - exact Hinv.
Qed.

Lemma apply_ops_snoc ops op m :
  apply_ops T cb (ops ++ [op]) m = apply_op T cb op (apply_ops T cb ops m).
Proof. unfold apply_ops. rewrite foldl_app. reflexivity. Qed.

Lemma apply_ops_client ops :
  session (apply_ops T cb ops newManager) <> None ->
  client (apply_ops T cb ops newManager) = true.
Proof.
  induction ops as [|op ops IH] using rev_ind; [intros H; exfalso; apply H; reflexivity|].
  rewrite apply_ops_snoc. apply apply_op_client. exact IH.
Qed.

(** Why the histories are taken without overlap. [shutdown] on a manager
    with a started client kills the session and then waits for
    [client.stop()]; a send that starts during the wait creates a session
    on the client that is still there; when the wait is over the client
    is dropped, and the manager holds a session without a client. *)
Lemma overlapping_shutdown_strands_the_session :
  let m0 := set_client true newManager in
  shutdown true true m0 = shutdownResume (kill true m0) /\
  exists st,
    sendMessageStreaming true (Some (mkSdkSession "s1")) 0 (kill true m0) = inr st /\
    session (shutdownResume (mgr st)) = Some (mkSdkSession "s1") /\
    client (shutdownResume (mgr st)) = false.
Proof. split; [reflexivity|]. eexists. split; [reflexivity|]. split; reflexivity. Qed.

(** X20. A session never outlives its client, and a live session is
    reused, in every history of operations that do not overlap. Whatever
    has been done to the manager since it was constructed, one operation
    at a time (sends with any backend answers, signals that reach the
    sends in flight at any point, stops, kills, shutdowns, marks), a
    session that is held comes with a started client; the next send then
    runs on that very session, without starting a client or creating a
    session, whatever the backend would have answered to either.
    Operations that overlap at an await (a send that starts while a
    shutdown waits for its client to stop) are outside the histories
    considered. *)
Theorem live_session_is_reused (ops : list Op) :
  let m := apply_ops T cb ops newManager in
  (isActive m = true -> client m = true) /\
  (forall s, session m = Some s ->
     forall startOk created now,
       sendMessageStreaming startOk created now m = inr (beginSend now m) /\
       session (mgr (beginSend now m)) = Some s).
Proof.
  intros m. pose proof (apply_ops_client ops) as Hinv. fold m in Hinv. split.
  - intros Hact. apply Hinv. unfold isActive in Hact.
    apply bool_decide_eq_true in Hact. exact Hact.
  - intros s Hs startOk created now.
    destruct (ensureSession_cases startOk created m Hinv) as (_ & _ & Hres).
    unfold sendMessageStreaming.
    destruct (ensureSession startOk created m) as [m1 [s1|]]; cbn in Hres |- *.
    + destruct Hres as (_ & _ & Hsame). destruct (Hsame s Hs) as [-> ->].
      split; [reflexivity | exact Hs].
    + congruence.
Qed.

(** *** The interrupt flag *)

Lemma apply_op_interrupt op m :
  leaves_interrupt op = true -> interruptFlag (apply_op T cb op m) = interruptFlag m.
Proof.
  destruct op; try discriminate; intros _; cbn [apply_op]; try reflexivity.
  - unfold sendMessageStreaming, ensureSession, ensureClient.
    destruct (client m); [|destruct startOk]; cbn;
      repeat match goal with
             | |- context [match ?x with Some _ => _ | None => _ end] => destruct x; cbn
             end; try reflexivity;
      match goal with
      | |- context [run T cb sigs ?st] =>
          rewrite (run_keeps T cb interruptFlag
                     (fun now' sig st' =>
                        proj1 (proj2 (proj2 (deliver_foreign T cb now' sig st')))));
          reflexivity
      end.
  - exact (proj1 (proj2 (proj2 (deliver_foreign T cb now sig
                                  {| mgr := m; send := closure |})))).
  - unfold stop. destruct (_isProcessing m && isActive m); reflexivity.
  - unfold kill. destruct (session m); [destruct destroyOk|]; reflexivity.
  - unfold shutdown, kill.
    destruct (session m); [destruct destroyOk|]; cbn; destruct (client m); cbn;
      try destruct stopOk; reflexivity.
Qed.

Lemma apply_ops_interrupt ops : forall m,
  Forall (fun op => leaves_interrupt op = true) ops ->
  interruptFlag (apply_ops T cb ops m) = interruptFlag m.
Proof.
  induction ops as [|op ops IH]; intros m Hall; [reflexivity|].
  inversion Hall as [|? ? Hop Hrest]; subst. cbn.
  change (foldl (fun acc op => apply_op T cb op acc) (apply_op T cb op m) ops)
    with (apply_ops T cb ops (apply_op T cb op m)).
  rewrite (IH _ Hrest). apply apply_op_interrupt. exact Hop.
Qed.

(** X21. An interrupt mark is reported exactly once. Whatever is done
    to the manager between the mark and the question, short of another
    mark or question (sends with any signals, stops, kills, shutdowns),
    the first [consumeInterruptFlag] after [markInterrupt] answers true,
    and the next one, whatever is done in between, answers false. *)
Theorem interrupt_mark_is_reported_once (ops1 ops2 : list Op) (m : Manager) :
  Forall (fun op => leaves_interrupt op = true) ops1 ->
  Forall (fun op => leaves_interrupt op = true) ops2 ->
  let first := consumeInterruptFlag (apply_ops T cb ops1 (markInterrupt m)) in
  let second := consumeInterruptFlag (apply_ops T cb ops2 first.2) in
  first.1 = true /\ second.1 = false.
Proof.
  intros H1 H2. cbn. rewrite (apply_ops_interrupt ops2 _ H2). cbn.
  rewrite (apply_ops_interrupt ops1 _ H1). split; reflexivity.
Qed.

End Life.

Lemma interrupt_mark_is_reported_once_witness :
  let ops1 := [OpStop true; OpSend true (Some (mkSdkSession "s1")) 0 demoTooled;
               OpKill true] in
  let ops2 := [OpStartProcessing; OpStopProcessing] in
  let first := consumeInterruptFlag (apply_ops 500 acceptAll ops1 (markInterrupt newManager)) in
  let second := consumeInterruptFlag (apply_ops 500 acceptAll ops2 first.2) in
  first.1 = true /\ second.1 = false.
Proof.
  apply (interrupt_mark_is_reported_once 500 acceptAll
           [OpStop true; OpSend true (Some (mkSdkSession "s1")) 0 demoTooled; OpKill true]
           [OpStartProcessing; OpStopProcessing] newManager);
    repeat constructor.
Defined.

End LifeFacts.

(** ** The agent manager *)

Module AgentFacts.

Import AgentManager.

Lemma switches_snoc calls call a :
  switches (calls ++ [call]) a = setAgent call.1 call.2 (switches calls a).
Proof. unfold switches. rewrite foldl_app. reflexivity. Qed.

Lemma last_for_snoc u calls call :
  last_for u (calls ++ [call])
  = if decide (given call.2 = Some u) then Some call.1 else last_for u calls.
Proof.
  unfold last_for. rewrite omap_app, last_app. cbn.
  destruct (decide (given call.2 = Some u)); reflexivity.
Qed.

Lemma last_global_snoc calls call :
  last_global (calls ++ [call])
  = if decide (given call.2 = None) then Some call.1 else last_global calls.
Proof.
  unfold last_global. rewrite omap_app, last_app. cbn.
  destruct (decide (given call.2 = None)); reflexivity.
Qed.

(** The two fields after a sequence of calls. *)
Lemma switches_fields calls a :
  currentAgent (switches calls a) = default (currentAgent a) (last_global calls) /\
  forall u, userPreferences (switches calls a) !! u
            = match last_for u calls with
              | Some t => Some t
              | None => userPreferences a !! u
              end.
Proof.
  induction calls as [|[t uid] calls [IHg IHu]] using rev_ind; [split; reflexivity|].
  rewrite switches_snoc, last_global_snoc. cbn [fst snd]. unfold setAgent.
  destruct (given uid) as [v|] eqn:Hg.
  - split.
    + cbn. rewrite decide_False by discriminate. exact IHg.
    + intros u. rewrite last_for_snoc. cbn [fst snd userPreferences]. rewrite Hg.
      destruct (decide (Some v = Some u)) as [[= ->]|Hne].
      * apply lookup_insert_eq.
      * rewrite lookup_insert_ne by congruence. apply IHu.
  - split.
    + cbn. rewrite decide_True by reflexivity. reflexivity.
    + intros u. rewrite last_for_snoc. cbn [fst snd userPreferences]. rewrite Hg.
      rewrite decide_False by discriminate. apply IHu.
Qed.

(** X22. The agent of a user after any sequence of switches. For a user
    id other than 0 it is the agent of the last switch that named this
    user; failing that, the preference the user had before; failing
    that, the agent of the last switch that named nobody, or the global
    agent from before. A switch that names another user never changes
    it. Without a user id, and for the id 0, it is the global agent: the
    agent of the last switch that named nobody or 0. *)
Theorem agent_after_switches (calls : list Switch) (a : Manager) :
  (forall u, u <> 0%Z ->
     getCurrentAgent (Some u) (switches calls a)
     = match last_for u calls with
       | Some t => t
       | None =>
           match userPreferences a !! u with
           | Some t => t
           | None => default (currentAgent a) (last_global calls)
           end
       end) /\
  getCurrentAgent None (switches calls a) = default (currentAgent a) (last_global calls) /\
  getCurrentAgent (Some 0%Z) (switches calls a) = default (currentAgent a) (last_global calls) /\
  (forall u v t, u <> 0%Z -> v <> 0%Z -> u <> v ->
     getCurrentAgent (Some u) (switches (calls ++ [(t, Some v)]) a)
     = getCurrentAgent (Some u) (switches calls a)).
Proof.
  destruct (switches_fields calls a) as [Hg Hu].
  assert (Hgiven : forall u, u <> 0%Z -> given (Some u) = Some u).
  { intros u Hne. cbn. destruct (Z.eqb_spec u 0); [contradiction | reflexivity]. }
  split; [|split; [|split]].
  - intros u Hne. unfold getCurrentAgent. rewrite (Hgiven u Hne), Hu, Hg.
    destruct (last_for u calls); reflexivity.
  - exact Hg.
  - exact Hg.
  - intros u v t Hu0 Hv0 Huv. rewrite switches_snoc. cbn [fst snd].
    unfold getCurrentAgent, setAgent. rewrite (Hgiven u Hu0), (Hgiven v Hv0).
    cbn [userPreferences currentAgent]. rewrite lookup_insert_ne by congruence. reflexivity.
Qed.

End AgentFacts.

(** ** The handlers *)

Module HandlerFacts.

Import CopilotSession Handlers JsFacts PoolFacts.

(** *** The title of a conversation *)

Lemma length_app_str (a b : string) :
  String.length (a ++ b) = String.length a + String.length b.
Proof.
  induction a as [|c a IH]; [reflexivity|]. rewrite app_cons. simpl. rewrite IH. reflexivity.
Qed.

(** X23. The title taken from a first message has at most 50
    characters: a message of at most 50 characters is its own title, and
    a longer one gives its first 47 characters followed by three
    dots. *)
Theorem titleOf_bound (message : string) :
  String.length (titleOf message) <= 50 /\
  (String.length message <= 50 -> titleOf message = message) /\
  (50 < String.length message ->
   exists head tail, message = head ++ tail /\ String.length head = 47 /\
                     titleOf message = head ++ "...").
Proof.
  unfold titleOf. destruct (Nat.ltb_spec 50 (String.length message)) as [Hlong | Hshort].
  - destruct (slice0_prefix 47 message) as (tail & Hsplit & Hlen).
    rewrite Nat.min_l in Hlen by lia.
    split; [rewrite length_app_str, Hlen; simpl; lia|]. split; [lia|].
    intros _. exists (Js.slice0 47 message), tail. repeat split; assumption.
  - split; [exact Hshort|]. split; [reflexivity | lia].
Qed.

Section Provider.

Context {S : Type}.
Variable isActive : S -> bool.
Variable isRunning : S -> bool.
Variable setLastMessage : string -> S -> S.
Variable setConversationTitle : string -> S -> S.
Variable startProcessing : S -> S.
Variable stopProcessing : S -> S.
Variable sendMessageStreaming : string -> S -> S * Outcome.
Variable stop : S -> StopResult * S.
Variable kill : S -> S.
Variable clearStopRequested : S -> S.
Variable consumeInterruptFlag : S -> bool * S.
Variable isAuthorized : Z -> bool.
Variable checkInterrupt : string -> Z -> S -> S * string.
Variable rateLimiterCheck : Z -> S -> S * bool.

Abbreviation attempts := (attempts sendMessageStreaming kill consumeInterruptFlag).
Abbreviation reportError := (reportError (S := S) consumeInterruptFlag).
Abbreviation handleText :=
  (handleText isActive setLastMessage setConversationTitle startProcessing stopProcessing
     sendMessageStreaming kill consumeInterruptFlag isAuthorized checkInterrupt
     rateLimiterCheck).

(** *** The retry loop *)

Lemma reportError_acts errorStr s :
  let acts := (reportError errorStr s).2 in
  sends acts = 0 /\ kills acts = 0 /\ audits acts = 0 /\ failure_notices acts <= 1 /\
  Forall (fun a => forall m, a <> Sent m) acts.
Proof.
  unfold Handlers.reportError.
  destruct (Js.includes "abort" errorStr || Js.includes "cancel" errorStr).
  - destruct (consumeInterruptFlag s) as [[] s1]; cbn; repeat split; try lia;
      repeat constructor; discriminate.
  - destruct (Js.includes "all accounts rate limited" errorStr); cbn; repeat split; try lia;
      repeat constructor; discriminate.
Qed.

Lemma attempts_step fuel attempt message s :
  attempts (Datatypes.S fuel) attempt message s
  = match sendMessageStreaming message s with
    | (s1, Returned response) => (s1, [Sent message; Audit message response], true)
    | (s1, NeverSettles) => (s1, [Sent message], false)
    | (s1, Threw errorStr) =>
        if Js.includes "exited with code" errorStr && (attempt <? MAX_RETRIES)%nat then
          let '(s2, acts, exited) := attempts fuel (Datatypes.S attempt) message (kill s1) in
          (s2, ([Sent message; CleanedUp; Killed; Reply Retrying] ++ acts)%list, exited)
        else
          let (s2, acts) := reportError errorStr s1 in
          (s2, ([Sent message; CleanedUp] ++ acts)%list, true)
    end.
Proof. reflexivity. Qed.

(** The last attempt: whatever the error, nothing is retried. *)
Lemma last_attempt attempt message s :
  MAX_RETRIES <= attempt ->
  let r := attempts 1 attempt message s in
  sends r.1.2 = 1 /\ kills r.1.2 = 0 /\ audits r.1.2 + failure_notices r.1.2 <= 1 /\
  Forall (fun a => forall m, a = Sent m -> m = message) r.1.2 /\
  (r.2 = false <-> exists s1, sendMessageStreaming message s = (s1, NeverSettles)) /\
  (audits r.1.2 = 1 <-> exists s1 response,
      sendMessageStreaming message s = (s1, Returned response)).
Proof.
  intros Hlast. cbn zeta. rewrite attempts_step.
  destruct (sendMessageStreaming message s) as [s1 [response | errorStr |]] eqn:Hsend.
  - cbn. split; [reflexivity|]. split; [reflexivity|]. split; [lia|]. split; [|split].
    + constructor; [intros m [= <-]; reflexivity|]. constructor; [discriminate | constructor].
    + split; [discriminate | intros (? & [=])].
    + split; [intros _; eauto | reflexivity].
  - assert (Hno : (attempt <? MAX_RETRIES)%nat = false) by (apply Nat.ltb_ge; exact Hlast).
    rewrite Hno, andb_false_r.
    destruct (reportError_acts errorStr s1) as (H1 & H2 & H3 & H4 & H5).
    destruct (Handlers.reportError consumeInterruptFlag errorStr s1) as [s2 acts].
    cbn [fst snd] in H1, H2, H3, H4, H5 |- *.
    unfold sends, kills, audits, failure_notices in *. simpl.
    rewrite H1, H2, H3. split; [reflexivity|]. split; [reflexivity|]. split; [exact H4|].
    split; [|split].
    + constructor; [intros m [= <-]; reflexivity|]. constructor; [discriminate|].
      eapply Forall_impl; [exact H5|]. intros a Ha m ->. destruct (Ha m eq_refl).
    + split; [discriminate | intros (? & [=])].
    + split; [discriminate | intros (? & ? & [=])].
  - cbn. split; [reflexivity|]. split; [reflexivity|]. split; [lia|]. split; [|split].
    + constructor; [intros m [= <-]; reflexivity | constructor].
    + split; [intros _; eauto | reflexivity].
    + split; [discriminate | intros (? & ? & [=])].
Qed.

(** X24. The retry policy of the text handler. A message is sent once
    or twice, never more. It is sent a second time exactly when the first
    send threw an error that tells of a crashed process; the session is
    then killed once, between the two sends, and the retry runs on the
    killed session. In every other case nothing is killed. Every send
    carries the same message, at most one audit entry or failure reply
    ends the handling, and the loop is left unless a send never
    settles. *)
Theorem text_retry_policy (message : string) (s : S) :
  let r := attempts (Datatypes.S MAX_RETRIES) 0 message s in
  let acts := r.1.2 in
  1 <= sends acts <= 2 /\ kills acts = sends acts - 1 /\
  audits acts + failure_notices acts <= 1 /\
  Forall (fun a => forall m, a = Sent m -> m = message) acts /\
  (sends acts = 2 <->
   exists s1 errorStr, sendMessageStreaming message s = (s1, Threw errorStr) /\
                       Js.includes "exited with code" errorStr = true) /\
  (forall s1 errorStr,
     sendMessageStreaming message s = (s1, Threw errorStr) ->
     Js.includes "exited with code" errorStr = true ->
     exists rest, acts = ([Sent message; CleanedUp; Killed; Reply Retrying] ++ rest)%list /\
                  attempts 1 1 message (kill s1) = (r.1.1, rest, r.2)).
Proof.
  cbn zeta. change (Datatypes.S MAX_RETRIES) with 2. rewrite attempts_step.
  destruct (sendMessageStreaming message s) as [s1 [response | errorStr |]] eqn:Hsend.
  - cbn. split; [lia|]. split; [reflexivity|]. split; [lia|]. split; [|split].
    + constructor; [intros m [= <-]; reflexivity|]. constructor; [discriminate | constructor].
    + split; [discriminate | intros (? & ? & [=] & _)].
    + intros ? ? [=].
  - destruct (Js.includes "exited with code" errorStr) eqn:Hcrash.
    + change (0 <? MAX_RETRIES)%nat with true. cbn [andb].
      destruct (last_attempt 1 message (kill s1) ltac:(unfold MAX_RETRIES; lia))
        as (H1 & H2 & H3 & H4 & _).
      destruct (Handlers.attempts sendMessageStreaming kill consumeInterruptFlag 1 1 message
                  (kill s1)) as [[s2 rest] exited] eqn:Hrest.
      cbn [fst snd] in H1, H2, H3, H4 |- *.
      unfold sends, kills, audits, failure_notices in *. simpl.
      rewrite H1, H2. split; [lia|]. split; [reflexivity|]. split; [exact H3|].
      split; [|split].
      * constructor; [intros m [= <-]; reflexivity|]. repeat (constructor; [discriminate|]).
        exact H4.
      * split; [intros _; eauto | reflexivity].
      * intros s1' e' [= <- <-] _. exists rest. split; [reflexivity | exact Hrest].
    + cbn [andb].
      destruct (reportError_acts errorStr s1) as (H1 & H2 & H3 & H4 & H5).
      destruct (Handlers.reportError consumeInterruptFlag errorStr s1) as [s2 acts].
      cbn [fst snd] in H1, H2, H3, H4, H5 |- *.
      unfold sends, kills, audits, failure_notices in *. simpl.
      rewrite H1, H2, H3. split; [lia|]. split; [reflexivity|]. split; [exact H4|].
      split; [|split].
      * constructor; [intros m [= <-]; reflexivity|]. constructor; [discriminate|].
        eapply Forall_impl; [exact H5|]. intros a Ha m ->. destruct (Ha m eq_refl).
      * split; [discriminate | intros (? & ? & [= <- <-] & Hc); congruence].
      * intros s1' e' [= <- <-] Hc. congruence.
  - cbn. split; [lia|]. split; [reflexivity|]. split; [lia|]. split; [|split].
    + constructor; [intros m [= <-]; reflexivity | constructor].
    + split; [discriminate | intros (? & ? & [=] & _)].
    + intros ? ? [=].
Qed.

(** X25. The text handler reaches the session only for a message it may
    handle: when it sends anything, the sender has an id other than 0 and
    is authorized, the chat has an id, the message left by the interrupt
    check is not blank, the rate limiter let it pass, and every send
    carries that message. In every other case the handler returns
    without a send, a kill or an audit entry of a response, and what it
    does is one of three things: nothing, the reply that the sender is
    not authorized, or the audit entry of the rate limit followed by the
    reply that the sender is rate limited. When the handler returns after
    a send, the last thing done to the session is to clear the processing
    flag. *)
Theorem text_handler_guards (userId : option Z) (text : option string) (chatId : option Z)
        (s : S) :
  let r := handleText userId text chatId s in
  let acts := r.1.2 in
  (sends acts <> 0 ->
   exists uid message0 s1 message s2,
     AgentManager.given userId = Some uid /\ AgentManager.given chatId <> None /\
     text = Some message0 /\ isAuthorized uid = true /\
     checkInterrupt message0 uid s = (s1, message) /\ Js.trim message <> "" /\
     rateLimiterCheck uid s1 = (s2, true) /\
     Forall (fun a => forall m, a = Sent m -> m = message) acts /\
     (r.2 = true -> exists s', r.1.1 = stopProcessing s')) /\
  (sends acts = 0 ->
   kills acts = 0 /\ audits acts = 0 /\ r.2 = true /\
   (acts = [] \/ acts = [Reply Unauthorized] \/
    acts = [AuditRateLimit; Reply RateLimited])) /\
  sends acts <= 2.
Proof.
  cbn zeta. unfold Handlers.handleText.
  assert (Hquiet : forall (s0 : S) (acts : list Action),
            sends acts = 0 -> kills acts = 0 -> audits acts = 0 ->
            (acts = [] \/ acts = [Reply Unauthorized] \/
             acts = [AuditRateLimit; Reply RateLimited]) ->
            (sends (s0, acts, true).1.2 <> 0 ->
             exists uid message0 s1 message s2,
               AgentManager.given userId = Some uid /\ AgentManager.given chatId <> None /\
               text = Some message0 /\ isAuthorized uid = true /\
               checkInterrupt message0 uid s = (s1, message) /\ Js.trim message <> "" /\
               rateLimiterCheck uid s1 = (s2, true) /\
               Forall (fun a => forall m, a = Sent m -> m = message) (s0, acts, true).1.2 /\
               ((s0, acts, true).2 = true -> exists s', (s0, acts, true).1.1 = stopProcessing s')) /\
            (sends (s0, acts, true).1.2 = 0 ->
             kills (s0, acts, true).1.2 = 0 /\ audits (s0, acts, true).1.2 = 0 /\
             (s0, acts, true).2 = true /\
             ((s0, acts, true).1.2 = [] \/ (s0, acts, true).1.2 = [Reply Unauthorized] \/
              (s0, acts, true).1.2 = [AuditRateLimit; Reply RateLimited])) /\
            sends (s0, acts, true).1.2 <= 2).
  { intros s0 acts H1 H2 H3 H4. cbn [fst snd]. rewrite H1.
    split; [intros H; contradiction|].
    split; [intros _; exact (conj H2 (conj H3 (conj eq_refl H4))) | lia]. }
  destruct (AgentManager.given userId) as [uid|] eqn:Hu; [|apply Hquiet; first [reflexivity | auto]].
  destruct text as [message0|]; [|apply Hquiet; first [reflexivity | auto]].
  destruct (AgentManager.given chatId) as [cid|] eqn:Hc; [|apply Hquiet; first [reflexivity | auto]].
  destruct (Js.truthy message0) eqn:Hm0; cbn [negb]; [|apply Hquiet; first [reflexivity | auto]].
  destruct (isAuthorized uid) eqn:Hauth; cbn [negb]; [|apply Hquiet; first [reflexivity | auto]].
  destruct (checkInterrupt message0 uid s) as [s1 message] eqn:Hci.
  destruct (Js.truthy (Js.trim message)) eqn:Htrim; cbn [negb]; [|apply Hquiet; first [reflexivity | auto]].
  destruct (rateLimiterCheck uid s1) as [s2 allowed] eqn:Hrl.
  destruct allowed; cbn [negb]; [|apply Hquiet; first [reflexivity | auto]].
  set (s5 := startProcessing _).
  pose proof (text_retry_policy message s5) as (Hs & Hk & Ha & Hall & _).
  change (Handlers.attempts sendMessageStreaming kill consumeInterruptFlag
            (Datatypes.S MAX_RETRIES) 0 message s5)
    with (attempts (Datatypes.S MAX_RETRIES) 0 message s5) in *.
  destruct (attempts (Datatypes.S MAX_RETRIES) 0 message s5) as [[s6 acts] exited].
  cbn [fst snd] in Hs, Hk, Ha, Hall.
  assert (Hgoal : forall (sf : S) (fin : bool),
            (fin = true -> exists s', sf = stopProcessing s') ->
            (sends (sf, acts, fin).1.2 <> 0 ->
             exists uid0 message1 s1' message' s2',
               Some uid = Some uid0 /\ Some cid <> None /\
               Some message0 = Some message1 /\ isAuthorized uid0 = true /\
               checkInterrupt message1 uid0 s = (s1', message') /\ Js.trim message' <> "" /\
               rateLimiterCheck uid0 s1' = (s2', true) /\
               Forall (fun a => forall m, a = Sent m -> m = message') (sf, acts, fin).1.2 /\
               ((sf, acts, fin).2 = true -> exists s', (sf, acts, fin).1.1 = stopProcessing s')) /\
            (sends (sf, acts, fin).1.2 = 0 ->
             kills (sf, acts, fin).1.2 = 0 /\ audits (sf, acts, fin).1.2 = 0 /\
             (sf, acts, fin).2 = true /\
             ((sf, acts, fin).1.2 = [] \/ (sf, acts, fin).1.2 = [Reply Unauthorized] \/
              (sf, acts, fin).1.2 = [AuditRateLimit; Reply RateLimited])) /\
            sends (sf, acts, fin).1.2 <= 2).
  { intros sf fin Hfin. cbn [fst snd]. split; [|split; [intros H0; lia | lia]].
    intros _. exists uid, message0, s1, message, s2.
    repeat split; try assumption; try discriminate.
    apply truthy_true. exact Htrim. }
  destruct exited; apply Hgoal; [intros _; eexists; reflexivity | discriminate].
Qed.

End Provider.

(** *** The commands on the Copilot session *)

Lemma set_stopRequested_same m : set_stopRequested (stopRequested m) m = m.
Proof. destruct m; reflexivity. Qed.

(** What stopping a running query does to the Copilot manager. *)
Lemma copilot_stopRunning abortOk m :
  (stopRunning CopilotSession.isRunning (CopilotSession.stop abortOk)
     CopilotSession.clearStopRequested m).1
  = set_stopRequested (stopRequested m && negb (isRunning m && isActive m)) m.
Proof.
  unfold stopRunning, CopilotSession.stop, CopilotSession.isRunning, clearStopRequested.
  destruct (_isProcessing m) eqn:Hp; cbn [andb negb].
  - destruct (isActive m); cbn [andb negb fst snd].
    + rewrite andb_false_r. destruct abortOk; cbn [fst]; destruct m; reflexivity.
    + rewrite andb_true_r. symmetry. apply set_stopRequested_same.
  - rewrite andb_true_r. symmetry. apply set_stopRequested_same.
Qed.

(** X26. After [/new] on the Copilot session, whatever the state was and
    whatever the backend answers to the abort and to the destruction, no
    session is held, no query runs, the stored message and the title are
    gone, no stop request is left that was not there before, and the
    interrupt flag is untouched; the next send starts on the session the
    backend creates. The last reply is that the session was cleared. For
    an unauthorized user nothing changes. *)
Theorem new_command_clears_session (abortOk destroyOk : bool) (m : Manager) :
  let r := copilotNew abortOk destroyOk true m in
  isActive r.1 = false /\ isRunning r.1 = false /\
  lastMessage r.1 = None /\ conversationTitle r.1 = None /\
  (stopRequested r.1 = true -> stopRequested m = true) /\
  interruptFlag r.1 = interruptFlag m /\
  last r.2 = Some (Reply SessionCleared) /\
  (forall fresh now,
     exists st, sendMessageStreaming true (Some fresh) now r.1 = inr st /\
                session (mgr st) = Some fresh /\ send st = freshSend) /\
  copilotNew abortOk destroyOk false m = (m, [Reply Unauthorized]).
Proof.
  cbn zeta. unfold copilotNew, handleNew. cbn [negb].
  pose proof (copilot_stopRunning abortOk m) as Hm1.
  destruct (stopRunning CopilotSession.isRunning (CopilotSession.stop abortOk)
              CopilotSession.clearStopRequested m) as [m1 acts].
  cbn [fst snd] in Hm1 |- *. subst m1.
  set (b := stopRequested m && negb (isRunning m && isActive m)).
  assert (Hb : b = true -> stopRequested m = true).
  { unfold b. intros H. apply andb_true_iff in H as [H _]. exact H. }
  assert (Hkill : forall m0, session (CopilotSession.kill destroyOk m0) = None /\
                    _isProcessing (CopilotSession.kill destroyOk m0) = false /\
                    lastMessage (CopilotSession.kill destroyOk m0) = None /\
                    conversationTitle (CopilotSession.kill destroyOk m0) = None /\
                    stopRequested (CopilotSession.kill destroyOk m0) = stopRequested m0 /\
                    interruptFlag (CopilotSession.kill destroyOk m0) = interruptFlag m0).
  { intros m0. unfold CopilotSession.kill.
    destruct (session m0) eqn:Hs0; [destruct destroyOk|]; cbn; rewrite ?Hs0; repeat split. }
  destruct (Hkill (set_stopRequested b m)) as (Hs & Hp & Hl & Ht & Hr & Hi).
  set (m' := CopilotSession.kill destroyOk (set_stopRequested b m)) in *.
  split; [unfold isActive; rewrite Hs; reflexivity|].
  split; [exact Hp|]. split; [exact Hl|]. split; [exact Ht|].
  split; [rewrite Hr; exact Hb|]. split; [rewrite Hi; reflexivity|].
  split; [rewrite last_app; reflexivity|].
  split; [|reflexivity].
  intros fresh now. unfold sendMessageStreaming, ensureSession, ensureClient.
  destruct (client m') eqn:Hc; cbn [session set_client]; rewrite Hs.
  - eexists. split; [reflexivity|]. split; reflexivity.
  - eexists. split; [reflexivity|]. split; reflexivity.
Qed.

(** X27. [/stop] on the Copilot session leaves no stop request behind:
    it changes at most the stop request, which is set afterwards only if
    it was set before and no query was running on a live session. *)
Theorem stop_command_leaves_no_request (abortOk : bool) (m : Manager) :
  let r := copilotStop abortOk true m in
  r.1 = set_stopRequested (stopRequested r.1) m /\
  stopRequested r.1 = stopRequested m && negb (isRunning m && isActive m) /\
  copilotStop abortOk false m = (m, [Reply Unauthorized]).
Proof.
  cbn zeta. unfold copilotStop, handleStop. cbn [negb].
  rewrite (copilot_stopRunning abortOk m).
  split; [|split; reflexivity]. reflexivity.
Qed.

(** *** The two views of the pool *)

Import AccountPool.

Lemma limited_test now u :
  (0 <= now)%Z -> negb (u =? 0)%Z && (u >? now)%Z = negb (u <=? now)%Z.
Proof.
  intros Hnow. destruct (Z.eqb_spec u 0), (Z.gtb_spec u now), (Z.leb_spec u now);
    cbn; try reflexivity; lia.
Qed.

Lemma cooldownText_split (secs : Z) :
  (0 < secs)%Z ->
  exists mins rest,
    (secs = 60 * mins + rest)%Z /\ (0 <= mins)%Z /\ (0 <= rest < 60)%Z /\
    cooldownText secs
    = if decide (mins = 0%Z) then Js.show_int rest ++ "s"
      else Js.show_int mins ++ "m " ++ Js.show_int rest ++ "s".
Proof.
  intros Hpos. exists (secs / 60)%Z, (secs mod 60)%Z.
  pose proof (Z.div_mod secs 60 ltac:(lia)) as Hdm.
  pose proof (Z.mod_pos_bound secs 60 ltac:(lia)) as Hb.
  assert (Hq : (0 <= secs / 60)%Z) by (apply Z.div_pos; lia).
  split; [exact Hdm|]. split; [exact Hq|]. split; [exact Hb|].
  unfold cooldownText. rewrite Z.rem_mod_nonneg by lia.
  destruct (Z.gtb_spec (secs / 60) 0) as [Hgt | Hle].
  - rewrite decide_False by lia. reflexivity.
  - assert (H0 : (secs / 60 = 0)%Z) by lia. rewrite decide_True by exact H0.
    rewrite Z.mod_small; [reflexivity|]. rewrite H0 in Hdm. lia.
Qed.

(** One account in the two views. *)
Lemma account_views_ok (now : Z) (current i : nat) (acct : Account) :
  (0 <= now)%Z ->
  Eligible now acct \/ rateLimitedUntil acct = Some Js.NaN ->
  accountLine now current i acct
  = ((if decide (i = current) then "▶" else "  ")
     ++ " <code>" ++ name acct ++ "</code> — ") ++ "✅ available" /\
  statusEntry now current i acct
  = ((if decide (i = current) then ">" else " ") ++ " " ++ name acct) ++ " [ok]".
Proof.
  intros Hnow Hcase. unfold accountLine, statusEntry.
  rewrite !statusEntry_marker.
  assert (Hm : (if Nat.eqb i current then "▶" else "  ")
               = (if decide (i = current) then "▶" else "  ")).
  { destruct (Nat.eqb_spec i current), (decide (i = current)); congruence. }
  rewrite Hm, !app_assoc_str. clear Hm.
  destruct Hcase as [[-> | (u & -> & Hu)] | ->]; [split; reflexivity | | split; reflexivity].
  rewrite (limited_test now u Hnow).
  destruct (u <=? now)%Z eqn:Hle; [split; reflexivity|].
  apply Z.leb_gt in Hle. lia.
Qed.

Lemma account_views_limited (now : Z) (current i : nat) (acct : Account) (u : Z) :
  (0 <= now)%Z -> rateLimitedUntil acct = Some (Js.Int u) -> (now < u)%Z ->
  exists secs mins rest,
    (1000 * (secs - 1) < u - now <= 1000 * secs)%Z /\
    (secs = 60 * mins + rest)%Z /\ (0 <= mins)%Z /\ (0 <= rest < 60)%Z /\
    statusEntry now current i acct
    = ((if decide (i = current) then ">" else " ") ++ " " ++ name acct)
      ++ " [limited " ++ Js.show_int secs ++ "s]" /\
    accountLine now current i acct
    = ((if decide (i = current) then "▶" else "  ")
       ++ " <code>" ++ name acct ++ "</code> — ")
      ++ "⏳ limited ("
      ++ (if decide (mins = 0%Z) then Js.show_int rest ++ "s"
          else Js.show_int mins ++ "m " ++ Js.show_int rest ++ "s")
      ++ " left)".
Proof.
  intros Hnow Hu Hlt. unfold accountLine, statusEntry.
  rewrite !statusEntry_marker.
  assert (Hm : (if Nat.eqb i current then "▶" else "  ")
               = (if decide (i = current) then "▶" else "  ")).
  { destruct (Nat.eqb_spec i current), (decide (i = current)); congruence. }
  rewrite Hm, Hu, (limited_test now u Hnow). clear Hm.
  assert (Hle : (u <=? now)%Z = false) by (apply Z.leb_gt; exact Hlt).
  rewrite Hle. cbn [negb].
  pose proof (ceil_div_bounds (u - now) 1000 ltac:(lia)) as Hb.
  destruct (cooldownText_split (Js.ceil_div (u - now) 1000) ltac:(lia))
    as (mins & rest & Hsplit & Hmins & Hrest & Htext).
  exists (Js.ceil_div (u - now) 1000), mins, rest.
  split; [exact Hb|]. split; [exact Hsplit|]. split; [exact Hmins|]. split; [exact Hrest|].
  rewrite Htext, !app_assoc_str. split; reflexivity.
Qed.

(** X28. The two views of the pool, and the rotation. For a pool that is
    not empty, at a clock reading that is not negative: the text
    [/account] replies with is a header that counts the accounts, one
    line per account in pool order and a footer that names the current
    account, joined by line breaks; the status summary is one entry per
    account joined by a comma and a space. An account that is eligible
    for the rotation at that reading ([rateLimitedUntil] null or not
    after it) is shown as available by the one and as ok by the other.
    An account limited until a later time is rejected by the test of the
    rotation and shown as limited by both, with the same number of
    seconds left, rounded up, which [/account] prints as minutes and
    seconds below 60 from a minute on. An account whose
    [rateLimitedUntil] is NaN is rejected by the test of the rotation
    and yet shown as available and as ok: there the views and the
    rotation disagree. The current account carries the mark in both
    views. *)
Theorem pool_views_agree_with_rotation (now : Z) (p : Pool) :
  (0 <= now)%Z -> accounts p <> [] ->
  let nl := String "010" EmptyString in
  let header := "👤 <b>Account Pool</b> ("
                ++ Js.show_int (Z.of_nat (length (accounts p))) ++ " accounts)" ++ nl in
  let footer := nl ++ "Current: <b>" ++ getCurrentName p ++ "</b>" in
  exists lines entries : list string,
    handleAccount true now p = String.concat nl (header :: lines ++ [footer])%list /\
    getStatus now p = String.concat ", " entries /\
    length lines = length (accounts p) /\ length entries = length (accounts p) /\
    forall i acct, accounts p !! i = Some acct ->
      let head := (if decide (i = _currentIndex p) then "▶" else "  ")
                  ++ " <code>" ++ name acct ++ "</code> — " in
      let mark := (if decide (i = _currentIndex p) then ">" else " ") ++ " " ++ name acct in
      (Eligible now acct ->
       lines !! i = Some (head ++ "✅ available") /\
       entries !! i = Some (mark ++ " [ok]")) /\
      (rateLimitedUntil acct = Some Js.NaN ->
       available now acct = false /\
       lines !! i = Some (head ++ "✅ available") /\
       entries !! i = Some (mark ++ " [ok]")) /\
      (forall u : Z, rateLimitedUntil acct = Some (Js.Int u) -> (now < u)%Z ->
       available now acct = false /\
       exists secs mins rest,
         (1000 * (secs - 1) < u - now <= 1000 * secs)%Z /\
         (secs = 60 * mins + rest)%Z /\ (0 <= mins)%Z /\ (0 <= rest < 60)%Z /\
         entries !! i = Some (mark ++ " [limited " ++ Js.show_int secs ++ "s]") /\
         lines !! i
         = Some (head ++ "⏳ limited ("
                 ++ (if decide (mins = 0%Z) then Js.show_int rest ++ "s"
                     else Js.show_int mins ++ "m " ++ Js.show_int rest ++ "s")
                 ++ " left)")).
Proof.
  intros Hnow Hne nl header footer.
  exists (imap (accountLine now (_currentIndex p)) (accounts p)),
         (imap (statusEntry now (_currentIndex p)) (accounts p)).
  split; [|split; [|split; [apply length_imap | split; [apply length_imap|]]]].
  - unfold handleAccount, accountCount, Js.join. cbn [negb].
    destruct (accounts p) as [|a rest] eqn:Hacc; [congruence|]. reflexivity.
  - unfold getStatus, Js.join. destruct (accounts p); [congruence | reflexivity].
  - intros i acct Hi head mark. rewrite !list_lookup_imap, Hi.
    cbn [fmap option_fmap option_map]. split; [|split].
    + intros Hel.
      destruct (account_views_ok now (_currentIndex p) i acct Hnow (or_introl Hel))
        as [Hline Hentry].
      split; f_equal; assumption.
    + intros Hnan.
      destruct (account_views_ok now (_currentIndex p) i acct Hnow (or_intror Hnan))
        as [Hline Hentry].
      split; [unfold available; rewrite Hnan; reflexivity|].
      split; f_equal; assumption.
    + intros u Hu Hlt. split.
      { unfold available. rewrite Hu. apply Z.leb_gt. exact Hlt. }
      destruct (account_views_limited now (_currentIndex p) i acct u Hnow Hu Hlt)
        as (secs & mins & rest & Hb & Hsplit & Hmins & Hrest & Hentry & Hline).
      exists secs, mins, rest. split; [exact Hb|]. split; [exact Hsplit|].
      split; [exact Hmins|]. split; [exact Hrest|]. split; f_equal; assumption.
Qed.

(** Both views of a pool of three at clock reading 100, read off the
    theorem: [A] is limited for another 90 seconds, [B] is current, and
    [C], limited until NaN, is shown as available though the test of the
    rotation rejects it. *)
Lemma pool_views_agree_with_rotation_witness :
  let nl := String "010" EmptyString in
  (0 <= 100)%Z /\ accounts viewPool <> [] /\
  handleAccount true 100 viewPool
  = "👤 <b>Account Pool</b> (3 accounts)" ++ nl ++ nl
    ++ "   <code>A</code> — ⏳ limited (1m 30s left)" ++ nl
    ++ "▶ <code>B</code> — ✅ available" ++ nl
    ++ "   <code>C</code> — ✅ available" ++ nl ++ nl
    ++ "Current: <b>B</b>" /\
  getStatus 100 viewPool = "  A [limited 90s], > B [ok],   C [ok]" /\
  available 100 (mkAccount "C" "/ccs/instances/c" (Some Js.NaN)) = false.
Proof.
  intros nl. split; [lia|]. split; [discriminate|].
  destruct (pool_views_agree_with_rotation 100 viewPool ltac:(lia) ltac:(discriminate))
    as (lines & entries & Hview & Hstatus & Hl & He & Hall).
  destruct (Hall 0 _ eq_refl) as (_ & _ & Hlim).
  destruct (Hlim 90100%Z eq_refl ltac:(lia))
    as (_ & secs & mins & rest & Hsecs & Hsplit & Hmins & Hrest & He0 & Hl0).
  assert (secs = 90%Z) as -> by lia.
  assert (mins = 1%Z) as -> by lia.
  assert (rest = 30%Z) as -> by lia.
  destruct (Hall 1 _ eq_refl) as [Hok _].
  destruct (Hok (or_introl eq_refl)) as [Hl1 He1].
  destruct (Hall 2 _ eq_refl) as (_ & Hnan & _).
  destruct (Hnan eq_refl) as (Hrej & Hl2 & He2).
  destruct lines as [|l0 [|l1 [|l2 [|l3 lines]]]]; try discriminate.
  destruct entries as [|e0 [|e1 [|e2 [|e3 entries]]]]; try discriminate.
  simpl in Hl0, Hl1, Hl2, He0, He1, He2.
  injection Hl0 as ->. injection Hl1 as ->. injection Hl2 as ->.
  injection He0 as ->. injection He1 as ->. injection He2 as ->.
  split; [rewrite Hview; reflexivity|]. split; [rewrite Hstatus; reflexivity | exact Hrej].
Defined.

End HandlerFacts.

(** ** The usage tracker *)

Module UsageFacts.

Import UsageTracker.

Lemma total_app field (l1 l2 : list FileStats) :
  total field (l1 ++ l2) = (total field l1 + total field l2)%Z.
Proof.
  unfold total. induction l1 as [|x l1 IH]; [reflexivity|]. simpl. rewrite IH. lia.
Qed.

(** The loop, file by file. *)
Lemma addFile_spec cutoff (files : list FileStats) :
  let acc := foldl (addFile cutoff) noTotals files in
  let kept := List.filter (counted cutoff) files in
  t_input acc = total inputTokens kept /\
  t_output acc = total outputTokens kept /\
  t_cacheCreation acc = total cacheCreation kept /\
  t_cacheRead acc = total cacheRead kept /\
  t_count acc = length kept /\
  t_recent acc = candidates cutoff files /\
  (kept = [] -> oldestDate acc = None /\ newestDate acc = None) /\
  (kept <> [] ->
   exists o n, oldestDate acc = Some o /\ newestDate acc = Some n /\
     In o (map timeOf kept) /\ In n (map timeOf kept) /\
     Forall (fun stats => (o <= timeOf stats <= n)%Z) kept).
Proof.
  induction files as [|stats files IH] using rev_ind.
  - cbn. repeat split; try reflexivity. intros H. contradiction.
  - cbn zeta in IH |- *. rewrite foldl_app. cbn [foldl].
    rewrite List.filter_app. cbn [List.filter].
    unfold candidates. rewrite List.filter_app, map_app. cbn [List.filter].
    fold (candidates cutoff files).
    destruct IH as (H1 & H2 & H3 & H4 & H5 & H6 & H7 & H8).
    set (acc := foldl (addFile cutoff) noTotals files) in *.
    set (kept := List.filter (counted cutoff) files) in *.
    unfold addFile, counted. destruct (timestamp stats) as [t|] eqn:Ht.
    + destruct (t <? cutoff)%Z eqn:Hc; cbn [negb andb].
      * rewrite !app_nil_r.
        exact (conj H1 (conj H2 (conj H3 (conj H4 (conj H5 (conj H6 (conj H7 H8))))))).
      * cbn [t_input t_output t_cacheCreation t_cacheRead t_count t_recent oldestDate
             newestDate].
        rewrite !total_app, length_app. unfold total at 2 4 6 8. cbn [map foldr length].
        assert (Htime : timeOf stats = t) by (unfold timeOf; rewrite Ht; reflexivity).
        split; [lia|]. split; [lia|]. split; [lia|]. split; [lia|]. split; [lia|].
        split.
        { rewrite H6.
          destruct ((inputTokens stats >? 0)%Z || (outputTokens stats >? 0)%Z); cbn [map].
          - rewrite Htime. reflexivity.
          - rewrite app_nil_r. reflexivity. }
        split; [intros H; destruct kept; discriminate|]. intros _.
        destruct kept as [|k0 kept0] eqn:Hk.
        -- destruct (H7 eq_refl) as [-> ->]. exists t, t.
           split; [reflexivity|]. split; [reflexivity|]. cbn. rewrite Htime.
           split; [left; reflexivity|]. split; [left; reflexivity|].
           repeat constructor; rewrite Htime; lia.
        -- destruct (H8 ltac:(discriminate)) as (o & n & -> & -> & Ho & Hn & Hall).
           exists (if (t <? o)%Z then t else o), (if (t >? n)%Z then t else n).
           split; [destruct (t <? o)%Z; reflexivity|].
           split; [destruct (t >? n)%Z; reflexivity|].
           rewrite map_app. cbn [map]. rewrite Htime.
           split; [destruct (t <? o)%Z; apply in_or_app; [right; left; reflexivity | left; exact Ho]|].
           split; [destruct (t >? n)%Z; apply in_or_app; [right; left; reflexivity | left; exact Hn]|].
           apply Forall_app. split.
           ++ eapply Forall_impl; [exact Hall|]. intros s0 Hs0. cbn beta in Hs0 |- *.
              destruct (Z.ltb_spec t o), (Z.gtb_spec t n); lia.
           ++ repeat constructor; rewrite Htime;
                destruct (Z.ltb_spec t o), (Z.gtb_spec t n); lia.
    + cbn [andb]. rewrite !app_nil_r.
      exact (conj H1 (conj H2 (conj H3 (conj H4 (conj H5 (conj H6 (conj H7 H8))))))).
Qed.

(** *** The sort *)

Lemma insertSession_perm x l : Permutation (insertSession x l) (x :: l).
Proof.
  induction l as [|y l IH]; [reflexivity|]. simpl.
  destruct (rs_timestamp y <=? rs_timestamp x)%Z; [reflexivity|].
  rewrite IH. apply Permutation_swap.
Qed.

Lemma insertSession_sorted x l : newestFirst l -> newestFirst (insertSession x l).
Proof.
  unfold newestFirst. induction l as [|y l IH]; intros Hs; simpl.
  - repeat constructor.
  - destruct (Z.leb_spec (rs_timestamp y) (rs_timestamp x)) as [Hle | Hgt].
    + constructor; [exact Hs | constructor; exact Hle].
    + inversion Hs as [|? ? Hs' Hhd]; subst. constructor; [apply IH; exact Hs'|].
      destruct l as [|z l]; simpl.
      * constructor. lia.
      * destruct (rs_timestamp z <=? rs_timestamp x)%Z; constructor;
          [lia | inversion Hhd; assumption].
Qed.

Lemma sortNewestFirst_spec l :
  Permutation (sortNewestFirst l) l /\ newestFirst (sortNewestFirst l).
Proof.
  unfold sortNewestFirst. induction l as [|x l [IHp IHs]]; simpl.
  - split; [reflexivity | constructor].
  - split; [rewrite insertSession_perm, IHp; reflexivity | apply insertSession_sorted; exact IHs].
Qed.

Lemma newestFirst_take n l : newestFirst l -> newestFirst (take n l).
Proof.
  unfold newestFirst. revert n. induction l as [|x l IH]; intros n Hs; destruct n; simpl;
    try constructor.
  - inversion Hs; subst. apply IH. assumption.
  - inversion Hs as [|? ? Hs' Hhd]; subst. destruct l, n; simpl; constructor.
    inversion Hhd; assumption.
Qed.

(** X29. The usage statistics read off the session files. The
    statistics exist exactly when the projects directory exists and the
    traversal does not throw. They count the files whose first event is
    not older than the cutoff: the four totals are the sums over these
    files and the session count is their number. The date range runs
    from the oldest to the newest of them, both of them times of counted
    files that bound all the others, and from the cutoff to now when no
    file is counted. *)
Theorem usage_totals (projectsDirExists : bool) (files : option (list FileStats))
        (cutoff now : Z) :
  (getLocalUsageStats projectsDirExists files cutoff now = None <->
   projectsDirExists = false \/ files = None) /\
  forall l stats,
    files = Some l -> getLocalUsageStats projectsDirExists files cutoff now = Some stats ->
    let kept := List.filter (counted cutoff) l in
    totalInputTokens stats = total inputTokens kept /\
    totalOutputTokens stats = total outputTokens kept /\
    totalCacheCreation stats = total cacheCreation kept /\
    totalCacheRead stats = total cacheRead kept /\
    sessionCount stats = length kept /\
    (kept = [] -> dateRange_start stats = cutoff /\ dateRange_end stats = now) /\
    (kept <> [] ->
     In (dateRange_start stats) (map timeOf kept) /\
     In (dateRange_end stats) (map timeOf kept) /\
     Forall (fun f => (dateRange_start stats <= timeOf f <= dateRange_end stats)%Z) kept).
Proof.
  unfold getLocalUsageStats. split.
  - destruct projectsDirExists; cbn [negb].
    + destruct files as [l|].
      * split; [discriminate | intros [H|H]; discriminate].
      * split; [intros _; right; reflexivity | reflexivity].
    + split; [intros _; left; reflexivity | reflexivity].
  - intros l stats ->. destruct projectsDirExists; cbn [negb]; [|discriminate].
    intros [= <-]. cbn zeta.
    destruct (addFile_spec cutoff l) as (H1 & H2 & H3 & H4 & H5 & _ & H7 & H8).
    cbn [totalInputTokens totalOutputTokens totalCacheCreation totalCacheRead sessionCount
         dateRange_start dateRange_end].
    split; [exact H1|]. split; [exact H2|]. split; [exact H3|]. split; [exact H4|].
    split; [exact H5|]. split.
    + intros Hk. destruct (H7 Hk) as [-> ->]. split; reflexivity.
    + intros Hk. destruct (H8 Hk) as (o & n & -> & -> & Ho & Hn & Hall).
      split; [exact Ho|]. split; [exact Hn | exact Hall].
Qed.

(** The statistics of five files, three of them counted. *)
Lemma usage_totals_witness :
  exists stats,
    getLocalUsageStats true (Some demoFiles) 1000 10000 = Some stats /\
    totalInputTokens stats = 15%Z /\ sessionCount stats = 3 /\
    dateRange_start stats = 5000%Z /\ dateRange_end stats = 9000%Z.
Proof.
  eexists. split; [reflexivity|].
  destruct (proj2 (usage_totals true (Some demoFiles) 1000 10000) demoFiles _ eq_refl eq_refl)
    as (H1 & _ & _ & _ & H5 & _).
  split; [exact H1|]. split; [exact H5|]. split; reflexivity.
Defined.

(** X30. The recent sessions of the statistics are the newest counted
    sessions that show usage (input or output tokens): at most five of
    them, newest first, the first five of a newest-first arrangement of
    all of them. *)
Theorem recent_sessions_are_the_newest (l : list FileStats) (cutoff now : Z) :
  exists stats all,
    getLocalUsageStats true (Some l) cutoff now = Some stats /\
    Permutation all (candidates cutoff l) /\ newestFirst all /\
    recentSessions stats = take 5 all /\
    length (recentSessions stats) <= 5 /\ newestFirst (recentSessions stats).
Proof.
  unfold getLocalUsageStats. cbn [negb]. eexists _, (sortNewestFirst (candidates cutoff l)).
  split; [reflexivity|].
  destruct (sortNewestFirst_spec (candidates cutoff l)) as [Hp Hs].
  destruct (addFile_spec cutoff l) as (_ & _ & _ & _ & _ & H6 & _).
  cbn [recentSessions]. rewrite H6.
  split; [exact Hp|]. split; [exact Hs|]. split; [reflexivity|].
  split; [rewrite length_take; lia | apply newestFirst_take; exact Hs].
Qed.

End UsageFacts.
